(** * A shallow embedding of the pacman-agent decision engine

    The development follows the three Python modules of the repository:
    [shared.py] (route planner, collision avoidance, food listing),
    [attackAgent.py] and [defendAgent.py] (the two per-role policies).

    Python integers are modelled as [Z], positions as pairs of [Z],
    Python lists as [list], Python sets as stdpp's [gset].  Exceptions are
    an explicit outcome; the agents' mutable attributes are a record that
    is threaded through a small state monad whose state survives an
    exception, as the attributes of a Python object do. *)

From stdpp Require Import base tactics option list gmap sets strings numbers.
From Stdlib Require Import ZArith Lia Permutation Sorted.

Local Open Scope Z_scope.

(** ** Moves and positions *)

Inductive Action := North | South | East | West | Stop.

Global Instance Action_eq_dec : EqDecision Action.
Proof. solve_decision. Defined.

Notation Pos := (Z * Z)%type (only parsing).

(** The four cardinal moves; ['Stop'] is the fifth value of the move type. *)
Definition cardinal (a : Action) : Prop := a ≠ Stop.

Global Instance cardinal_dec a : Decision (cardinal a).
Proof. unfold cardinal. apply _. Defined.

(** The coordinate delta that the planner and the collision filter attach
    to each move name ([Stop] has none). *)
Definition move (p : Pos) (a : Action) : option Pos :=
  let '(x, y) := p in
  match a with
  | North => Some (x, y + 1)
  | South => Some (x, y - 1)
  | East => Some (x + 1, y)
  | West => Some (x - 1, y)
  | Stop => None
  end.

(** ** Python sequences *)

(** [range(a, b)]. *)
Definition py_range (a b : Z) : list Z := seqZ a (b - a).

(** [l[i]] on a Python list: negative indices count from the end, an index
    outside [-len, len) raises [IndexError] (here: [None]). *)
Definition py_index {A} (l : list A) (i : Z) : option A :=
  if decide (0 ≤ i) then l !! Z.to_nat i
  else if decide (- Z.of_nat (length l) ≤ i) then l !! Z.to_nat (Z.of_nat (length l) + i)
  else None.

(** [l[-1]]. *)
Definition py_last {A} (l : list A) : option A := py_index l (-1).

(** [list.remove(x)]: drops the first element equal to [x]. *)
Fixpoint py_remove `{EqDecision A} (x : A) (l : list A) : list A :=
  match l with
  | [] => []
  | y :: t => if decide (x = y) then t else y :: py_remove x t
  end.

(** [sorted(l, key=...)]: a stable sort by an integer key. *)
Fixpoint insert_by_key {A} (key : A → Z) (x : A) (l : list A) : list A :=
  match l with
  | [] => [x]
  | y :: t => if decide (key x ≤ key y) then x :: y :: t else y :: insert_by_key key x t
  end.

Definition sorted_by_key {A} (key : A → Z) (l : list A) : list A :=
  foldr (insert_by_key key) [] l.

(** ** The Board Oracle

    Everything the agents read from the match engine.  The engine itself
    is not part of the repository, so its answers are fields of a record:
    the theorems below hold for every board. *)

(** A [Grid] of the engine: [data[x][y]], a list of columns. *)
Notation Grid := (list (list bool)) (only parsing).

Definition grid_get (g : Grid) (x y : Z) : option bool :=
  col ← py_index g x; py_index col y.

Record GameState := {
  layout_width : Z;
  layout_height : Z;
  layout_walls : Grid;
  (** [game_state.get_agent_position(i)]: [None] when agent [i] is not visible *)
  get_agent_position : nat → option Pos;
  get_initial_agent_position : nat → Pos;
  red_team : list nat;
  blue_team : list nat;
  red_food : Grid;
  blue_food : Grid;
  red_capsules : list Pos;
  blue_capsules : list Pos;
  (** [game_state.get_legal_actions(i)] *)
  get_legal_actions : nat → list Action;
  (** [AgentRules.filter_for_allowed_actions(Actions.get_possible_actions(conf, walls))]
      for a configuration placed at the given position *)
  get_possible_actions : Pos → list Action;
  (** the distance oracle behind [agent.get_maze_distance] *)
  get_maze_distance : Pos → Pos → Z;
}.

(** What the shared functions read from the agent object they are handed:
    its index, its team and its search heuristic. *)
Record Agent := {
  index : nat;
  red : bool;
  heuristic : Pos → GameState → Z;
}.

Definition get_opponents (ag : Agent) (gs : GameState) : list nat :=
  if red ag then blue_team gs else red_team gs.

Definition get_food (ag : Agent) (gs : GameState) : Grid :=
  if red ag then blue_food gs else red_food gs.

Definition get_food_you_are_defending (ag : Agent) (gs : GameState) : Grid :=
  if red ag then red_food gs else blue_food gs.

Definition get_capsules (ag : Agent) (gs : GameState) : list Pos :=
  if red ag then blue_capsules gs else red_capsules gs.

Definition get_capsules_you_are_defending (ag : Agent) (gs : GameState) : list Pos :=
  if red ag then red_capsules gs else blue_capsules gs.

(** ** Exceptions, logging, randomness *)

Inductive PyError :=
  | IndexError
  | ValueError
  | TypeError
  | UnboundLocalError (var : string).

(** One constructor per [logging.info] call of the three modules. *)
Inductive LogMsg :=
  | LogAlternativeAction (a : Action)
  | LogCapsuleActive (turns : Z)
  | LogAteCapsule (turns : Z)
  | LogKilled
  | LogAteFood (eaten : Z)
  | LogDetour (food_pos : Pos)
  | LogReturning (has_to_flee : bool)
  | LogStartOfMatch
  | LogKeepFleeing (turns : Z)
  | LogFleeingTooMuch (point : Pos)
  | LogClosestFood (dest : Pos)
  | LogFleeing (distance : Z) (flee_point : option Pos)
  | LogPatrolling (goal : Pos)
  | LogDefStart (goal : Pos)
  | LogDefCapsuleEaten (turns : Z)
  | LogDefCapsuleActive (turns : Z)
  | LogPursuing (enemy : Pos)
  | LogPursuingCapsule (enemy : Pos) (turns distance : Z)
  | LogDoingPatrol (enemy : Pos) (turns distance : Z)
  | LogFoodEaten (food_pos : Pos)
  | LogReachedFood.

(** How a call ends: with a value, with a Python exception, or (for the
    search loop only) with the step budget of the model used up. *)
Inductive outcome (A : Type) :=
  | Ok (a : A)
  | Raise (e : PyError)
  | OutOfFuel.
Arguments Ok {A} a.
Arguments Raise {A} e.
Arguments OutOfFuel {A}.

(** The part of the world outside the agent object that a call can change:
    the random source (a tape of numbers, [random.choice] consumes one)
    and the log. *)
Record World := { tape : list nat; trace : list LogMsg }.

(** A computation of an agent whose attributes have type [S]. *)
Definition M (S A : Type) : Type := S → World → outcome A * S * World.

Definition ret {S A} (a : A) : M S A := λ s w, (Ok a, s, w).

Definition bind {S A B} (m : M S A) (k : A → M S B) : M S B :=
  λ s w,
    match m s w with
    | (Ok a, s', w') => k a s' w'
    | (Raise e, s', w') => (Raise e, s', w')
    | (OutOfFuel, s', w') => (OutOfFuel, s', w')
    end.

Global Instance M_ret S : MRet (M S) := λ A, ret.
Global Instance M_bind S : MBind (M S) := λ A B k m, bind m k.

Definition raise {S A} (e : PyError) : M S A := λ s w, (Raise e, s, w).
Definition get {S} : M S S := λ s w, (Ok s, s, w).
Definition modify {S} (f : S → S) : M S unit := λ s w, (Ok tt, f s, w).
Definition logging_info {S} (m : LogMsg) : M S unit :=
  λ s w, (Ok tt, s, {| tape := tape w; trace := trace w ++ [m] |}).

(** A Python operation that raises where the model has [None]. *)
Definition or_raise {S A} (e : PyError) (o : option A) : M S A :=
  match o with Some a => ret a | None => raise e end.

(** A fuelled computation of the model. *)
Definition or_out_of_fuel {S A} (o : option A) : M S A :=
  match o with Some a => ret a | None => λ s w, (OutOfFuel, s, w) end.

(** [random.choice(l)]: [IndexError] on an empty sequence; otherwise the
    element picked by the next number of the tape. *)
Definition random_choice {S A} (l : list A) : M S A :=
  λ s w,
    let r := match tape w with [] => 0%nat | n :: _ => n end in
    match l !! (r mod length l)%nat with
    | Some a => (Ok a, s, {| tape := tail (tape w); trace := trace w |})
    | None => (Raise IndexError, s, w)
    end.

(** Outcome, final attributes and final world of a run. *)
Definition result {S A} (r : outcome A * S * World) : outcome A := r.1.1.
Definition final {S A} (r : outcome A * S * World) : S := r.1.2.
Definition world {S A} (r : outcome A * S * World) : World := r.2.

(** * shared.py *)

(** ** The frontier ([util.PriorityQueue] of the game framework)

    The framework's queue keeps triples (priority, insertion count, item)
    in a binary heap.  Insertion counts are pairwise distinct, so the heap
    order on triples is total and [pop] returns the one least triple; the
    model keeps the triples in a list and extracts that least triple. *)

(** What the planner queues: (position, moves so far, cost so far). *)
Notation Item := (Pos * list Action * Z)%type (only parsing).

Record Entry := { priority : Z; stamp : nat; item : Item }.

Record PriorityQueue := { heap : list Entry; count : nat }.

Definition empty_queue : PriorityQueue := {| heap := []; count := 0 |}.

Definition isEmpty (q : PriorityQueue) : bool :=
  match heap q with [] => true | _ => false end.

Definition push (it : Item) (prio : Z) (q : PriorityQueue) : PriorityQueue :=
  {| heap := heap q ++ [{| priority := prio; stamp := count q; item := it |}];
     count := S (count q) |}.

(** Tuple order on (priority, count). *)
Definition entry_le (a b : Entry) : bool :=
  bool_decide (priority a < priority b)
  || (bool_decide (priority a = priority b) && bool_decide (stamp a ≤ stamp b)%nat).

Fixpoint extract_min (l : list Entry) : option (Entry * list Entry) :=
  match l with
  | [] => None
  | e :: t =>
      match extract_min t with
      | None => Some (e, [])
      | Some (m, r) => if entry_le e m then Some (e, t) else Some (m, e :: r)
      end
  end.

Definition pop (q : PriorityQueue) : option (Item * PriorityQueue) :=
  match extract_min (heap q) with
  | None => None
  | Some (m, r) => Some (item m, {| heap := r; count := count q |})
  end.

(** [update]: an item already queued with a priority that is not higher
    stays as it is; one queued with a higher priority is re-queued with
    the new priority under its old count; an item not queued is pushed. *)
Fixpoint update_heap (it : Item) (prio : Z) (l : list Entry) : option (list Entry) :=
  match l with
  | [] => None
  | e :: t =>
      if decide (item e = it) then
        if decide (priority e ≤ prio) then Some (e :: t)
        else Some (t ++ [{| priority := prio; stamp := stamp e; item := it |}])
      else (λ t', e :: t') <$> update_heap it prio t
  end.

Definition update (it : Item) (prio : Z) (q : PriorityQueue) : PriorityQueue :=
  match update_heap it prio (heap q) with
  | Some h => {| heap := h; count := count q |}
  | None => push it prio q
  end.

(** ** get_legal_actions_own *)

Definition get_legal_actions_own (ag : Agent) (gs : GameState) (pos : Pos) : list Action :=
  get_possible_actions gs pos.

(** ** aStarSearch *)

(** The planner returns either the pair [(pos, actions)] or the empty
    list [[]]. *)
Inductive SearchResult :=
  | Found (pos : Pos) (actions : list Action)
  | NoPath.

(** The successor triples built from the legal actions of a position;
    ['Stop'] is disregarded. *)
Definition successor_states (pos : Pos) (legal_actions : list Action)
  : list (Pos * Action * Z) :=
  omap (λ action, (λ p, (p, action, 1)) <$> move pos action) legal_actions.

Definition expand (ag : Agent) (gs : GameState) (actions : list Action)
    (cost_until_now : Z) (succs : list (Pos * Action * Z)) (frontier : PriorityQueue)
  : PriorityQueue :=
  foldl (λ fr '(successor, action, stepCost),
           let priority := cost_until_now + stepCost + heuristic ag successor gs in
           update (successor, actions ++ [action], priority) priority fr)
        frontier succs.

(** The [while not frontier.isEmpty()] loop; [fuel] bounds the number of
    iterations of the model and [None] means the bound was hit.  The goal
    is only ever compared for equality with a position, and some callers
    hand over a goal that may be Python's [None]: it is an [option]. *)
Fixpoint astar_loop (ag : Agent) (gs : GameState) (food_position : option Pos) (fuel : nat)
    (frontier : PriorityQueue) (visited_states : gset Pos) : option SearchResult :=
  match fuel with
  | O => None
  | S fuel =>
      match pop frontier with
      | None => Some NoPath
      | Some ((pos, actions, cost_until_now), frontier) =>
          if decide (pos ∈ visited_states) then
            astar_loop ag gs food_position fuel frontier visited_states
          else if decide (Some pos = food_position) then Some (Found pos actions)
          else
            let visited_states := {[pos]} ∪ visited_states in
            let legal_actions := get_legal_actions_own ag gs pos in
            let frontier :=
              expand ag gs actions cost_until_now (successor_states pos legal_actions) frontier in
            astar_loop ag gs food_position fuel frontier visited_states
      end
  end.

Definition aStarSearch (fuel : nat) (ag : Agent) (initial_position : Pos)
    (food_position : option Pos) (gs : GameState) : option SearchResult :=
  astar_loop ag gs food_position fuel (push (initial_position, [], 0) 0 empty_queue) ∅.

(** ** in_our_field *)

(** [n / 2 ^ s] rounded to the nearest integer, to the even one when two
    are equally near. *)
Definition round_half_even (n s : Z) : Z :=
  let q := n / 2 ^ s in
  let r := n mod 2 ^ s in
  if decide (2 * r < 2 ^ s) then q
  else if decide (2 ^ s < 2 * r) then q + 1
  else if Z.even q then q else q + 1.

(** [int(n / 2)] for an integer [0 ≤ n].  [/] is true division: its value
    is the float nearest to the exact quotient, the one with the even
    significand when two are equally near, and [int] drops the fractional
    part.  A float keeps 53 significant bits: the half of an [n] of at
    most 53 bits is exact, a longer [n] is first rounded to 53 bits. *)
Definition int_half (n : Z) : Z :=
  let bit_length := Z.log2 n + 1 in
  if decide (bit_length ≤ 53) then n / 2
  else round_half_even n (bit_length - 53) * 2 ^ (bit_length - 54).

(** [int(game_state.data.layout.width / 2)].  The rounding is symmetric
    around 0.  (From [2 ^ 1024] on a quotient is beyond the largest float
    and Python gives up with [OverflowError]; the width of a layout is
    the length of a row of its text, far below.) *)
Definition half_width (gs : GameState) : Z :=
  let width := layout_width gs in
  if decide (0 ≤ width) then int_half width else - int_half (- width).

Definition in_our_field (ag : Agent) (position : Pos) (gs : GameState) : bool :=
  let '(x, _) := position in
  if red ag then bool_decide (x < half_width gs) else bool_decide (half_width gs ≤ x).

(** The shared functions never touch the attributes of the agent they are
    handed (they only read its index, team and heuristic), so they run in
    the monad over [unit] and are lifted into an agent's monad. *)
Notation Eff := (M unit) (only parsing).

Definition lift {S A} (m : Eff A) : M S A :=
  λ s w, let '(o, _, w') := m tt w in (o, s, w').

(** A position that Python received as [None] cannot be unpacked or
    measured: [TypeError]. *)
Definition as_pos {S} (p : option Pos) : M S Pos := or_raise TypeError p.

(** [a, b = r] on the planner's result: the empty list has no two
    elements to unpack, [ValueError]. *)
Definition unpack_pair {S} (r : SearchResult) : M S (Pos * list Action) :=
  match r with
  | Found pos actions => ret (pos, actions)
  | NoPath => raise ValueError
  end.

(** [for x in l: b = f(b, x)]. *)
Fixpoint for_each {S A B} (f : B → A → M S B) (b : B) (l : list A) : M S B :=
  match l with
  | [] => ret b
  | x :: t => b' ← f b x; for_each f b' t
  end.

Definition get_our_position (ag : Agent) (gs : GameState) : option Pos :=
  get_agent_position gs (index ag).

Definition get_my_initial_position (ag : Agent) (gs : GameState) : Pos :=
  get_initial_agent_position gs (index ag).

Definition get_initial_enemy_position (ag : Agent) (gs : GameState) : Eff Pos :=
  i ← or_raise IndexError (py_index (get_opponents ag gs) 0);
  mret (get_initial_agent_position gs i).

(** ** get_closest_point_in_our_field *)

Definition get_closest_point_in_our_field (ag : Agent) (gs : GameState)
  : Eff (option Pos) :=
  let x := if red ag then half_width gs - 1 else half_width gs in
  '(_, min_point) ←
    for_each (λ '(min_distance, min_point) y,
      wall ← or_raise IndexError (grid_get (layout_walls gs) x y);
      if negb wall then
        here ← as_pos (get_agent_position gs (index ag));
        let distance_to_point := get_maze_distance gs here (x, y) in
        if decide (distance_to_point < min_distance)
        then mret (distance_to_point, Some (x, y))
        else mret (min_distance, min_point)
      else mret (min_distance, min_point))
    (999999, None) (py_range 1 (layout_height gs));
  mret min_point.

(** ** get_column_slice *)

Definition get_column_slice (col : Z) (gs : GameState) (offset : option Z)
  : Eff (list Pos) :=
  let col := match offset with Some o => col + o | None => col end in
  for_each (λ valid_positions y,
    wall ← or_raise IndexError (grid_get (layout_walls gs) col y);
    if negb wall then mret (valid_positions ++ [(col, y)]) else mret valid_positions)
  [] (py_range 1 (layout_height gs)).

(** ** avoid_enemy_collision *)

(** [for (action, position) in l: if d(position, enemy) <= 1: l.remove((action, position))]:
    Python's list iterator holds an index into the list it walks, and the
    list shrinks under it.  [i] is that index; the loop stops as soon as
    it is outside the current list.  [n] counts the iterations left and is
    started at the length of the list, which the index reaches at the
    latest. *)
Fixpoint remove_colliding (gs : GameState) (enemy_position : Pos) (n i : nat)
    (l : list (Action * Pos)) : list (Action * Pos) :=
  match n with
  | O => l
  | S n =>
      match l !! i with
      | None => l
      | Some (action, position) =>
          if decide (get_maze_distance gs position enemy_position ≤ 1)
          then remove_colliding gs enemy_position n (S i) (py_remove (action, position) l)
          else remove_colliding gs enemy_position n (S i) l
      end
  end.

Definition possible_actions_and_positions (current_pos : Pos) (actions : list Action)
  : list (Action * Pos) :=
  omap (λ action, (λ p, (action, p)) <$> move current_pos action) actions.

Definition surviving_moves (ag : Agent) (current_pos : Pos) (gs : GameState)
  : list (Action * Pos) :=
  foldl (λ l agent_index,
           match get_agent_position gs agent_index with
           | Some enemy_position =>
               if negb (in_our_field ag enemy_position gs)
               then remove_colliding gs enemy_position (length l) 0 l
               else l
           | None => l
           end)
        (possible_actions_and_positions current_pos (get_legal_actions gs (index ag)))
        (get_opponents ag gs).

Definition avoid_enemy_collision (ag : Agent) (current_pos : option Pos)
    (next_action : Action) (gs : GameState) : Eff Action :=
  current_pos ← as_pos current_pos;
  (* [None]: the name a_star_pos was never bound *)
  let a_star_pos := move current_pos next_action in
  let possible := surviving_moves ag current_pos gs in
  if decide (0 < length possible)%nat then
    a_star_pos ← or_raise (UnboundLocalError "a_star_pos") a_star_pos;
    match list_find (λ '(_, position), a_star_pos = position) possible with
    | Some (_, (action, _)) => mret action
    | None =>
        '(action, _) ← random_choice possible;
        logging_info (LogAlternativeAction action);;
        mret action
    end
  else mret next_action.

(** ** get_food_positions_enemy, get_food_positions_ours *)

(** The double loop shared by the two functions:
    [for j in range(0, numRows - 1): for i in range(0, numColumns - 1)]. *)
Definition scan_food (isFood : Grid) : Eff (list Pos) :=
  col0 ← or_raise IndexError (py_index isFood 0);
  let numRows := Z.of_nat (length col0) in
  let numColumns := Z.of_nat (length isFood) in
  for_each (λ food_positions j,
    for_each (λ food_positions i,
      food ← or_raise IndexError (grid_get isFood i j);
      if food : bool then mret (food_positions ++ [(i, j)]) else mret food_positions)
    food_positions (py_range 0 (numColumns - 1)))
  [] (py_range 0 (numRows - 1)).

Definition get_food_positions_enemy (ag : Agent) (gs : GameState) : Eff (list Pos) :=
  food_positions ← scan_food (get_food ag gs);
  mret (food_positions ++ get_capsules ag gs).

Definition get_food_positions_ours (ag : Agent) (gs : GameState) : Eff (list Pos) :=
  food_positions ← scan_food (get_food_you_are_defending ag gs);
  mret (food_positions ++ get_capsules_you_are_defending ag gs).

(** ** a_star_to_food_position *)

Section Planner.

(** The iteration budget handed to every run of the search loop. *)
Variable fuel : nat.

Definition search (ag : Agent) (initial_position : option Pos) (goal : option Pos)
    (gs : GameState) : Eff SearchResult :=
  start ← as_pos initial_position;
  or_out_of_fuel (aStarSearch fuel ag start goal gs).

Definition a_star_to_food_position (ag : Agent) (gs : GameState)
    (food_positions_function : Agent → GameState → Eff (list Pos))
    (randomize : bool)
    (initial_position_function : option (Agent → GameState → Eff Pos))
  : Eff (Pos * list Action) :=
  initial_position ←
    match initial_position_function with
    | None => mret (get_agent_position gs (index ag))
    | Some f => p ← f ag gs; mret (Some p)
    end;
  foods ← food_positions_function ag gs;
  distances_array ←
    for_each (λ acc food_position,
      from ← as_pos initial_position;
      mret (acc ++ [(get_maze_distance gs from food_position, food_position)]))
    [] foods;
  let distances_array := sorted_by_key fst distances_array in
  '(_, min_food_position) ←
    (if randomize then random_choice (take 3 distances_array)
     else or_raise IndexError (py_index distances_array 0));
  r ← search ag (get_agent_position gs (index ag)) (Some min_food_position) gs;
  unpack_pair r.

End Planner.

(** * attackAgent.py *)

Module AttackAgent.

Definition DISTANCE_FROM_ENEMY_TO_FLEE : Z := 6.
Definition COST_HEURISTIC_ENEMY_CLOSE : Z := 5.
Definition FOOD_EATEN_TO_RETURN : Z := 5.
Definition CAPSULE_EFFECT_DURATION : Z := 35.
Definition TURNS_FLEEING_TOO_MUCH : Z := 4.
Definition TURNS_HAS_TO_FLEE : Z := 6.

(** The attributes of the attacker object.  [has_fled] is a class-level
    list in the source, so it is shared by all attacker objects of one
    process; the model follows one attacker. *)
Record State := {
  food_in_last_turn : Z;
  food_eaten : Z;
  capsules_in_last_turn : Z;
  turns_with_capsule_effect : Z;
  first_actions : list Action;
  already_randomized : bool;
  turn_counter : Z;
  has_fled : list Z;
  fleeing_point : option Pos;
  turns_has_to_flee : Z;
  last_fled_turn_checked : Z;
}.

(** The class attributes an attacker starts from. *)
Definition fresh : State := {|
  food_in_last_turn := 0; food_eaten := 0; capsules_in_last_turn := 0;
  turns_with_capsule_effect := 0; first_actions := []; already_randomized := false;
  turn_counter := 0; has_fled := []; fleeing_point := None; turns_has_to_flee := 0;
  last_fled_turn_checked := 0 |}.

Definition set_food_in_last_turn (v : Z) (s : State) : State :=
  {| food_in_last_turn := v; food_eaten := food_eaten s;
     capsules_in_last_turn := capsules_in_last_turn s;
     turns_with_capsule_effect := turns_with_capsule_effect s;
     first_actions := first_actions s; already_randomized := already_randomized s;
     turn_counter := turn_counter s; has_fled := has_fled s;
     fleeing_point := fleeing_point s; turns_has_to_flee := turns_has_to_flee s;
     last_fled_turn_checked := last_fled_turn_checked s |}.
Definition set_food_eaten (v : Z) (s : State) : State :=
  {| food_in_last_turn := food_in_last_turn s; food_eaten := v;
     capsules_in_last_turn := capsules_in_last_turn s;
     turns_with_capsule_effect := turns_with_capsule_effect s;
     first_actions := first_actions s; already_randomized := already_randomized s;
     turn_counter := turn_counter s; has_fled := has_fled s;
     fleeing_point := fleeing_point s; turns_has_to_flee := turns_has_to_flee s;
     last_fled_turn_checked := last_fled_turn_checked s |}.
Definition set_capsules_in_last_turn (v : Z) (s : State) : State :=
  {| food_in_last_turn := food_in_last_turn s; food_eaten := food_eaten s;
     capsules_in_last_turn := v;
     turns_with_capsule_effect := turns_with_capsule_effect s;
     first_actions := first_actions s; already_randomized := already_randomized s;
     turn_counter := turn_counter s; has_fled := has_fled s;
     fleeing_point := fleeing_point s; turns_has_to_flee := turns_has_to_flee s;
     last_fled_turn_checked := last_fled_turn_checked s |}.
Definition set_turns_with_capsule_effect (v : Z) (s : State) : State :=
  {| food_in_last_turn := food_in_last_turn s; food_eaten := food_eaten s;
     capsules_in_last_turn := capsules_in_last_turn s;
     turns_with_capsule_effect := v;
     first_actions := first_actions s; already_randomized := already_randomized s;
     turn_counter := turn_counter s; has_fled := has_fled s;
     fleeing_point := fleeing_point s; turns_has_to_flee := turns_has_to_flee s;
     last_fled_turn_checked := last_fled_turn_checked s |}.
Definition set_first_actions (v : list Action) (s : State) : State :=
  {| food_in_last_turn := food_in_last_turn s; food_eaten := food_eaten s;
     capsules_in_last_turn := capsules_in_last_turn s;
     turns_with_capsule_effect := turns_with_capsule_effect s;
     first_actions := v; already_randomized := already_randomized s;
     turn_counter := turn_counter s; has_fled := has_fled s;
     fleeing_point := fleeing_point s; turns_has_to_flee := turns_has_to_flee s;
     last_fled_turn_checked := last_fled_turn_checked s |}.
Definition set_already_randomized (v : bool) (s : State) : State :=
  {| food_in_last_turn := food_in_last_turn s; food_eaten := food_eaten s;
     capsules_in_last_turn := capsules_in_last_turn s;
     turns_with_capsule_effect := turns_with_capsule_effect s;
     first_actions := first_actions s; already_randomized := v;
     turn_counter := turn_counter s; has_fled := has_fled s;
     fleeing_point := fleeing_point s; turns_has_to_flee := turns_has_to_flee s;
     last_fled_turn_checked := last_fled_turn_checked s |}.
Definition set_turn_counter (v : Z) (s : State) : State :=
  {| food_in_last_turn := food_in_last_turn s; food_eaten := food_eaten s;
     capsules_in_last_turn := capsules_in_last_turn s;
     turns_with_capsule_effect := turns_with_capsule_effect s;
     first_actions := first_actions s; already_randomized := already_randomized s;
     turn_counter := v; has_fled := has_fled s;
     fleeing_point := fleeing_point s; turns_has_to_flee := turns_has_to_flee s;
     last_fled_turn_checked := last_fled_turn_checked s |}.
Definition set_has_fled (v : list Z) (s : State) : State :=
  {| food_in_last_turn := food_in_last_turn s; food_eaten := food_eaten s;
     capsules_in_last_turn := capsules_in_last_turn s;
     turns_with_capsule_effect := turns_with_capsule_effect s;
     first_actions := first_actions s; already_randomized := already_randomized s;
     turn_counter := turn_counter s; has_fled := v;
     fleeing_point := fleeing_point s; turns_has_to_flee := turns_has_to_flee s;
     last_fled_turn_checked := last_fled_turn_checked s |}.
Definition set_fleeing_point (v : option Pos) (s : State) : State :=
  {| food_in_last_turn := food_in_last_turn s; food_eaten := food_eaten s;
     capsules_in_last_turn := capsules_in_last_turn s;
     turns_with_capsule_effect := turns_with_capsule_effect s;
     first_actions := first_actions s; already_randomized := already_randomized s;
     turn_counter := turn_counter s; has_fled := has_fled s;
     fleeing_point := v; turns_has_to_flee := turns_has_to_flee s;
     last_fled_turn_checked := last_fled_turn_checked s |}.
Definition set_turns_has_to_flee (v : Z) (s : State) : State :=
  {| food_in_last_turn := food_in_last_turn s; food_eaten := food_eaten s;
     capsules_in_last_turn := capsules_in_last_turn s;
     turns_with_capsule_effect := turns_with_capsule_effect s;
     first_actions := first_actions s; already_randomized := already_randomized s;
     turn_counter := turn_counter s; has_fled := has_fled s;
     fleeing_point := fleeing_point s; turns_has_to_flee := v;
     last_fled_turn_checked := last_fled_turn_checked s |}.
Definition set_last_fled_turn_checked (v : Z) (s : State) : State :=
  {| food_in_last_turn := food_in_last_turn s; food_eaten := food_eaten s;
     capsules_in_last_turn := capsules_in_last_turn s;
     turns_with_capsule_effect := turns_with_capsule_effect s;
     first_actions := first_actions s; already_randomized := already_randomized s;
     turn_counter := turn_counter s; has_fled := has_fled s;
     fleeing_point := fleeing_point s; turns_has_to_flee := turns_has_to_flee s;
     last_fled_turn_checked := v |}.

(** ** heuristic *)

(** The attacker's search heuristic: 5 next to a visible enemy outside
    our field (the first one found within the flee distance), 1 elsewhere. *)
Definition heuristic (self : Agent) (pos : Pos) (gs : GameState) : Z :=
  if existsb (λ agent_index,
       match get_agent_position gs agent_index with
       | Some enemy_position =>
           negb (in_our_field self enemy_position gs)
           && bool_decide (get_maze_distance gs pos enemy_position
                           < DISTANCE_FROM_ENEMY_TO_FLEE)
       | None => false
       end) (get_opponents self gs)
  then COST_HEURISTIC_ENEMY_CLOSE else 1.

(** The attacker with index [i] on the red ([r = true]) or blue team, as
    the shared functions see it.  The heuristic method reads the index
    and the team of its object only. *)
Definition agent (i : nat) (r : bool) : Agent :=
  Build_Agent i r (heuristic (Build_Agent i r (λ _ _, 1))).

Section Policy.

Variable fuel : nat.
Variable self : Agent.

(** ** register_initial_state *)

Definition register_initial_state (gs : GameState) : M State unit :=
  foods ← lift (get_food_positions_enemy self gs);
  modify (set_food_in_last_turn (Z.of_nat (length foods)));;
  modify (set_capsules_in_last_turn (Z.of_nat (length (get_capsules self gs))));;
  modify (set_turns_with_capsule_effect 0).

(** ** update_counters *)

Definition update_counters (gs : GameState) : M State unit :=
  modify (λ s, set_turn_counter (turn_counter s + 1) s);;
  s ← get;
  (if decide (0 < turns_has_to_flee s)
   then modify (set_turns_has_to_flee (turns_has_to_flee s - 1)) else mret tt);;
  s ← get;
  (if decide (0 < turns_with_capsule_effect s)
   then modify (set_turns_with_capsule_effect (turns_with_capsule_effect s - 1));;
        logging_info (LogCapsuleActive (turns_with_capsule_effect s - 1))
   else mret tt);;
  s ← get;
  (if decide (Z.of_nat (length (get_capsules self gs)) < capsules_in_last_turn s)
   then modify (set_turns_with_capsule_effect CAPSULE_EFFECT_DURATION);;
        modify (set_capsules_in_last_turn (Z.of_nat (length (get_capsules self gs))));;
        logging_info (LogAteCapsule CAPSULE_EFFECT_DURATION)
   else mret tt);;
  here ← as_pos (get_our_position self gs);
  (if in_our_field self here gs
   then modify (set_food_eaten 0)
   else modify (set_first_actions []));;
  s ← get;
  (if already_randomized s
      && bool_decide (get_our_position self gs = Some (get_my_initial_position self gs))
   then logging_info LogKilled;;
        modify (set_first_actions []);;
        modify (set_turns_has_to_flee 0)
   else mret tt);;
  foods ← lift (get_food_positions_enemy self gs);
  let food_in_current_turn := Z.of_nat (length foods) in
  s ← get;
  if decide (food_in_current_turn < food_in_last_turn s)
  then modify (set_food_in_last_turn food_in_current_turn);;
       modify (set_food_eaten (food_eaten s + 1));;
       logging_info (LogAteFood (food_eaten s + 1))
  else mret tt.

(** ** has_been_fleeing_too_much *)

Definition has_been_fleeing_too_much (gs : GameState) : M State bool :=
  here ← as_pos (get_our_position self gs);
  if in_our_field self here gs then
    s ← get;
    if decide (4 < length (has_fled s))%nat then
      last ← or_raise IndexError (py_index (has_fled s) (-1));
      if decide (last ≠ last_fled_turn_checked s) then
        modify (set_last_fled_turn_checked last);;
        last1 ← or_raise IndexError (py_index (has_fled s) (-1));
        last2 ← or_raise IndexError (py_index (has_fled s) (-2));
        if decide (last1 - last2 ≤ TURNS_FLEEING_TOO_MUCH) then
          last2 ← or_raise IndexError (py_index (has_fled s) (-2));
          last3 ← or_raise IndexError (py_index (has_fled s) (-3));
          mret (bool_decide (last2 - last3 ≤ TURNS_FLEEING_TOO_MUCH))
        else mret false
      else mret false
    else mret false
  else mret false.

(** ** decide_action_return *)

Definition decide_action_return (gs : GameState) : M State Action :=
  closest_point_in_our_field ← lift (get_closest_point_in_our_field self gs);
  r ← lift (search fuel self (get_our_position self gs) closest_point_in_our_field gs);
  '(next_pos, next_actions) ← unpack_pair r;
  has_to_flee ←
    for_each (λ (found : bool) agent_index,
      if found then mret true else
      match get_agent_position gs agent_index with
      | Some enemy_position =>
          here ← as_pos (get_our_position self gs);
          mret (bool_decide (get_maze_distance gs here enemy_position
                             < DISTANCE_FROM_ENEMY_TO_FLEE))
      | None => mret false
      end) false (get_opponents self gs);
  detour ←
    (if negb has_to_flee then
       foods ← lift (get_food_positions_enemy self gs);
       for_each (λ (taken : option Action) food_pos,
         match taken with
         | Some a => mret (Some a)
         | None =>
             '(x, y) ← as_pos (get_our_position self gs);
             if decide (get_maze_distance gs (x, y) food_pos = 1) then
               logging_info (LogDetour food_pos);;
               if decide (food_pos = (x, y + 1)) then mret (Some North)
               else if decide (food_pos = (x, y - 1)) then mret (Some South)
               else if decide (food_pos = (x + 1, y)) then mret (Some East)
               else if decide (food_pos = (x - 1, y)) then mret (Some West)
               else raise (UnboundLocalError "next_action")
             else mret None
         end) None foods
     else mret None);
  match detour with
  | Some next_action => mret next_action
  | None =>
      logging_info (LogReturning has_to_flee);;
      if decide (length next_actions = 0%nat) then mret Stop
      else
        first ← or_raise IndexError (py_index next_actions 0);
        lift (avoid_enemy_collision self (get_our_position self gs) first gs)
  end.

(** ** get_fleeing_point *)

Definition get_fleeing_point (gs : GameState) : M State Pos :=
  '(closest_food_from_enemy, _) ←
    lift (a_star_to_food_position fuel self gs get_food_positions_ours false
            (Some get_initial_enemy_position));
  let '(x, _) := closest_food_from_enemy in
  valid_positions_in_column ← lift (get_column_slice x gs None);
  let valid_positions_in_column := sorted_by_key snd valid_positions_in_column in
  patrol_point_1 ← or_raise IndexError (py_index valid_positions_in_column 0);
  patrol_point_2 ← or_raise IndexError (py_index valid_positions_in_column (-1));
  here ← as_pos (get_our_position self gs);
  let distance_to_pp_1 := get_maze_distance gs here patrol_point_1 in
  let distance_to_pp_2 := get_maze_distance gs here patrol_point_2 in
  if decide (distance_to_pp_2 < distance_to_pp_1)
  then mret patrol_point_1 else mret patrol_point_2.

(** ** decide_action_attack *)

(** The three lines both fleeing branches end with: plan a route to the
    fleeing point and return its first move. *)
Definition first_move_towards (goal : option Pos) (gs : GameState) : M State Action :=
  r ← lift (search fuel self (get_our_position self gs) goal gs);
  '(_, fleeing_actions) ← unpack_pair r;
  or_raise IndexError (py_index fleeing_actions 0).

(** The scripted mini-retreat of [decide_action_attack]: the branch taken
    when [has_been_fleeing_too_much] answers [True]. *)
Definition mini_retreat (gs : GameState) : M State Action :=
  ours ← lift (get_food_positions_ours self gs);
  if decide (length ours = 0%nat) then mret Stop
  else
    point ← get_fleeing_point gs;
    modify (set_fleeing_point (Some point));;
    modify (set_turns_has_to_flee TURNS_HAS_TO_FLEE);;
    logging_info (LogFleeingTooMuch point);;
    first_move_towards (Some point) gs.

(** The last branch of [decide_action_attack]: go for the closest enemy
    food. *)
Definition attack_closest_food (gs : GameState) : M State Action :=
  '(dest, next_actions) ← lift (a_star_to_food_position fuel self gs
                                  get_food_positions_enemy false None);
  logging_info (LogClosestFood dest);;
  first ← or_raise IndexError (py_index next_actions 0);
  lift (avoid_enemy_collision self (get_our_position self gs) first gs).

Definition decide_action_attack (gs : GameState) : M State Action :=
  s ← get;
  (if bool_decide (length (first_actions s) = 0%nat) && negb (already_randomized s)
   then modify (set_already_randomized true);;
        '(_, actions) ← lift (a_star_to_food_position fuel self gs
                                get_food_positions_enemy true None);
        modify (set_first_actions actions);;
        logging_info LogStartOfMatch
   else mret tt);;
  s ← get;
  match first_actions s with
  | next :: rest =>
      (* the arguments of the call are evaluated left to right: the
         position is read, then the queue is popped *)
      modify (set_first_actions rest);;
      lift (avoid_enemy_collision self (get_our_position self gs) next gs)
  | [] =>
      if decide (0 < turns_has_to_flee s) then
        logging_info (LogKeepFleeing (turns_has_to_flee s));;
        (if decide (fleeing_point s = get_our_position self gs)
         then point ← get_fleeing_point gs; modify (set_fleeing_point (Some point))
         else mret tt);;
        s ← get;
        first_move_towards (fleeing_point s) gs
      else
        too_much ← has_been_fleeing_too_much gs;
        if too_much : bool then mini_retreat gs else attack_closest_food gs
  end.

(** ** decide_action_in_enemy_field *)

(** The flee branch: taken at the first visible enemy outside our field
    that is within the flee distance. *)
Definition flee (gs : GameState) (distance_to_enemy : Z) : M State Action :=
  flee_point ← lift (get_closest_point_in_our_field self gs);
  logging_info (LogFleeing distance_to_enemy flee_point);;
  modify (λ s, set_has_fled (has_fled s ++ [turn_counter s]) s);;
  r ← lift (search fuel self (get_our_position self gs) flee_point gs);
  '(next_pos, next_actions) ← unpack_pair r;
  first ← or_raise IndexError (py_index next_actions 0);
  lift (avoid_enemy_collision self (get_our_position self gs) first gs).

Definition decide_action_in_enemy_field (gs : GameState) : M State Action :=
  s ← get;
  threat ←
    (if decide (turns_with_capsule_effect s = 0) then
       for_each (λ (found : option Z) agent_index,
         match found with
         | Some d => mret (Some d)
         | None =>
             match get_agent_position gs agent_index with
             | Some enemy_position =>
                 if negb (in_our_field self enemy_position gs) then
                   here ← as_pos (get_our_position self gs);
                   let distance_to_enemy := get_maze_distance gs here enemy_position in
                   if decide (distance_to_enemy < DISTANCE_FROM_ENEMY_TO_FLEE)
                   then mret (Some distance_to_enemy) else mret None
                 else mret None
             | None => mret None
             end
         end) None (get_opponents self gs)
     else mret None);
  match threat with
  | Some distance_to_enemy => flee gs distance_to_enemy
  | None => decide_action_attack gs
  end.

(** ** choose_action *)

Definition choose_action (gs : GameState) : M State Action :=
  update_counters gs;;
  s ← get;
  return_now ←
    (if decide (FOOD_EATEN_TO_RETURN < food_eaten s) then mret true
     else foods ← lift (get_food_positions_enemy self gs);
          mret (bool_decide (length foods = 0%nat)));
  if return_now : bool then decide_action_return gs
  else
    here ← as_pos (get_our_position self gs);
    if in_our_field self here gs then decide_action_attack gs
    else decide_action_in_enemy_field gs.

End Policy.

End AttackAgent.

(** * defendAgent.py *)

Module DefendAgent.

Definition COST_HEURISTIC_CROSSING_ENEMY_FIELD : Z := 5.
Definition CAPSULE_EFFECT_DURATION : Z := 40.
Definition DISTANCE_FROM_ENEMY_TO_FLEE : Z := 5.
Definition COST_HEURISTIC_ENEMY_CLOSE : Z := 5.

(** The attributes of the defender object. *)
Record State := {
  initial_actions : list Action;
  initial_goal : option Pos;
  last_patrolled_point : option Pos;
  patrol_point_1 : option Pos;
  patrol_point_2 : option Pos;
  food_positions_in_last_turn : option (gset Pos);
  eaten_food_position : option Pos;
  capsules_in_last_turn : Z;
  turns_with_capsule_effect : Z;
}.

(** The class attributes a defender starts from. *)
Definition fresh : State := {|
  initial_actions := []; initial_goal := None; last_patrolled_point := None;
  patrol_point_1 := None; patrol_point_2 := None; food_positions_in_last_turn := None;
  eaten_food_position := None; capsules_in_last_turn := 0; turns_with_capsule_effect := 0 |}.

Definition set_initial_actions (v : list Action) (s : State) : State :=
  {| initial_actions := v; initial_goal := initial_goal s;
     last_patrolled_point := last_patrolled_point s;
     patrol_point_1 := patrol_point_1 s; patrol_point_2 := patrol_point_2 s;
     food_positions_in_last_turn := food_positions_in_last_turn s;
     eaten_food_position := eaten_food_position s;
     capsules_in_last_turn := capsules_in_last_turn s;
     turns_with_capsule_effect := turns_with_capsule_effect s |}.
Definition set_initial_goal (v : option Pos) (s : State) : State :=
  {| initial_actions := initial_actions s; initial_goal := v;
     last_patrolled_point := last_patrolled_point s;
     patrol_point_1 := patrol_point_1 s; patrol_point_2 := patrol_point_2 s;
     food_positions_in_last_turn := food_positions_in_last_turn s;
     eaten_food_position := eaten_food_position s;
     capsules_in_last_turn := capsules_in_last_turn s;
     turns_with_capsule_effect := turns_with_capsule_effect s |}.
Definition set_last_patrolled_point (v : option Pos) (s : State) : State :=
  {| initial_actions := initial_actions s; initial_goal := initial_goal s;
     last_patrolled_point := v;
     patrol_point_1 := patrol_point_1 s; patrol_point_2 := patrol_point_2 s;
     food_positions_in_last_turn := food_positions_in_last_turn s;
     eaten_food_position := eaten_food_position s;
     capsules_in_last_turn := capsules_in_last_turn s;
     turns_with_capsule_effect := turns_with_capsule_effect s |}.
Definition set_patrol_points (v1 v2 : option Pos) (s : State) : State :=
  {| initial_actions := initial_actions s; initial_goal := initial_goal s;
     last_patrolled_point := last_patrolled_point s;
     patrol_point_1 := v1; patrol_point_2 := v2;
     food_positions_in_last_turn := food_positions_in_last_turn s;
     eaten_food_position := eaten_food_position s;
     capsules_in_last_turn := capsules_in_last_turn s;
     turns_with_capsule_effect := turns_with_capsule_effect s |}.
Definition set_food_positions_in_last_turn (v : option (gset Pos)) (s : State) : State :=
  {| initial_actions := initial_actions s; initial_goal := initial_goal s;
     last_patrolled_point := last_patrolled_point s;
     patrol_point_1 := patrol_point_1 s; patrol_point_2 := patrol_point_2 s;
     food_positions_in_last_turn := v;
     eaten_food_position := eaten_food_position s;
     capsules_in_last_turn := capsules_in_last_turn s;
     turns_with_capsule_effect := turns_with_capsule_effect s |}.
Definition set_eaten_food_position (v : option Pos) (s : State) : State :=
  {| initial_actions := initial_actions s; initial_goal := initial_goal s;
     last_patrolled_point := last_patrolled_point s;
     patrol_point_1 := patrol_point_1 s; patrol_point_2 := patrol_point_2 s;
     food_positions_in_last_turn := food_positions_in_last_turn s;
     eaten_food_position := v;
     capsules_in_last_turn := capsules_in_last_turn s;
     turns_with_capsule_effect := turns_with_capsule_effect s |}.
Definition set_capsules_in_last_turn (v : Z) (s : State) : State :=
  {| initial_actions := initial_actions s; initial_goal := initial_goal s;
     last_patrolled_point := last_patrolled_point s;
     patrol_point_1 := patrol_point_1 s; patrol_point_2 := patrol_point_2 s;
     food_positions_in_last_turn := food_positions_in_last_turn s;
     eaten_food_position := eaten_food_position s;
     capsules_in_last_turn := v;
     turns_with_capsule_effect := turns_with_capsule_effect s |}.
Definition set_turns_with_capsule_effect (v : Z) (s : State) : State :=
  {| initial_actions := initial_actions s; initial_goal := initial_goal s;
     last_patrolled_point := last_patrolled_point s;
     patrol_point_1 := patrol_point_1 s; patrol_point_2 := patrol_point_2 s;
     food_positions_in_last_turn := food_positions_in_last_turn s;
     eaten_food_position := eaten_food_position s;
     capsules_in_last_turn := capsules_in_last_turn s;
     turns_with_capsule_effect := v |}.

(** ** heuristic *)

Definition heuristic (self : Agent) (pos : Pos) (gs : GameState) : Z :=
  if negb (in_our_field self pos gs) then COST_HEURISTIC_CROSSING_ENEMY_FIELD else 1.

(** The defender with index [i] on the red ([r = true]) or blue team, as
    the shared functions see it. *)
Definition agent (i : nat) (r : bool) : Agent :=
  Build_Agent i r (heuristic (Build_Agent i r (λ _ _, 1))).

Section Policy.

Variable fuel : nat.
Variable self : Agent.

(** ** register_initial_state *)

Definition register_initial_state (gs : GameState) : M State unit :=
  foods ← lift (get_food_positions_ours self gs);
  modify (set_food_positions_in_last_turn (Some (list_to_set foods)));;
  modify (set_capsules_in_last_turn
            (Z.of_nat (length (get_capsules_you_are_defending self gs))));;
  modify (set_turns_with_capsule_effect 0).

(** ** do_vertical_patrol *)

Definition do_vertical_patrol (gs : GameState) : M State Action :=
  s ← get;
  match patrol_point_1 s, patrol_point_2 s with
  | None, None => mret Stop
  | pp1, pp2 =>
      here ← as_pos (get_our_position self gs);
      p1 ← as_pos pp1;
      let distance_to_pp_1 := get_maze_distance gs here p1 in
      p2 ← as_pos pp2;
      let distance_to_pp_2 := get_maze_distance gs here p2 in
      (* [None]: the name goal is not bound yet *)
      let goal : option Pos :=
        match last_patrolled_point s with
        | None => if decide (distance_to_pp_1 < distance_to_pp_2) then Some p1 else Some p2
        | Some _ => None
        end in
      goal ←
        (if decide (distance_to_pp_1 = 0) then
           modify (set_last_patrolled_point (Some p1));; mret (Some p2)
         else if decide (distance_to_pp_2 = 0) then
           modify (set_last_patrolled_point (Some p2));; mret (Some p1)
         else if decide (last_patrolled_point s = Some p1) then mret (Some p2)
         else if decide (last_patrolled_point s = Some p2) then mret (Some p1)
         else mret goal);
      goal ← or_raise (UnboundLocalError "goal") goal;
      logging_info (LogPatrolling goal);;
      r ← lift (search fuel self (get_our_position self gs) (Some goal) gs);
      '(_, actions) ← unpack_pair r;
      or_raise IndexError (py_index actions 0)
  end.

(** ** calculate_patrol_points *)

Definition calculate_patrol_points (gs : GameState) : M State unit :=
  ours ← lift (get_food_positions_ours self gs);
  if decide (0 < length ours)%nat then
    '(goal, _) ← lift (a_star_to_food_position fuel self gs get_food_positions_ours false
                         (Some get_initial_enemy_position));
    modify (set_initial_goal (Some goal));;
    logging_info (LogDefStart goal);;
    r ← lift (search fuel self (get_our_position self gs) (Some goal) gs);
    '(_, actions) ← unpack_pair r;
    modify (set_initial_actions actions);;
    let '(patrolling_column, _) := goal in
    valid_positions_in_column ← lift (get_column_slice patrolling_column gs None);
    let valid_positions_in_column := sorted_by_key snd valid_positions_in_column in
    p1 ← or_raise IndexError (py_index valid_positions_in_column 0);
    modify (λ s, set_patrol_points (Some p1) (patrol_point_2 s) s);;
    p2 ← or_raise IndexError (py_index valid_positions_in_column (-1));
    modify (λ s, set_patrol_points (patrol_point_1 s) (Some p2) s)
  else mret tt.

(** ** update_counters *)

Definition update_counters (gs : GameState) : M State unit :=
  s ← get;
  (match initial_goal s with
   | None => calculate_patrol_points gs
   | Some _ => mret tt
   end);;
  ours ← lift (get_food_positions_ours self gs);
  let food_positions_in_this_turn : gset Pos := list_to_set ours in
  s ← get;
  last ← or_raise TypeError (food_positions_in_last_turn s);
  let foods_eaten := last ∖ food_positions_in_this_turn in
  modify (set_food_positions_in_last_turn (Some food_positions_in_this_turn));;
  (match elements foods_eaten with
   | eaten :: _ => modify (set_eaten_food_position (Some eaten))
   | [] => mret tt
   end);;
  s ← get;
  let capsules := Z.of_nat (length (get_capsules_you_are_defending self gs)) in
  if decide (capsules < capsules_in_last_turn s) then
    modify (set_turns_with_capsule_effect CAPSULE_EFFECT_DURATION);;
    modify (set_capsules_in_last_turn capsules);;
    logging_info (LogDefCapsuleEaten CAPSULE_EFFECT_DURATION)
  else if decide (0 < turns_with_capsule_effect s) then
    modify (set_turns_with_capsule_effect (turns_with_capsule_effect s - 1));;
    logging_info (LogDefCapsuleActive (turns_with_capsule_effect s - 1))
  else mret tt.

(** ** decide_action_enemy_close_in_our_field *)

(** Pursuit: plan a route to the enemy's position and take its first move. *)
Definition pursue (enemy_position : Pos) (gs : GameState) : M State Action :=
  r ← lift (search fuel self (get_our_position self gs) (Some enemy_position) gs);
  '(_, actions) ← unpack_pair r;
  or_raise IndexError (py_index actions 0).

Definition decide_action_enemy_close_in_our_field (enemy_position : Pos) (gs : GameState)
  : M State Action :=
  s ← get;
  if decide (turns_with_capsule_effect s = 0) then
    logging_info (LogPursuing enemy_position);;
    pursue enemy_position gs
  else
    here ← as_pos (get_our_position self gs);
    let distance := get_maze_distance gs here enemy_position in
    if decide (turns_with_capsule_effect s < distance) then
      logging_info (LogPursuingCapsule enemy_position (turns_with_capsule_effect s) distance);;
      pursue enemy_position gs
    else
      logging_info (LogDoingPatrol enemy_position (turns_with_capsule_effect s) distance);;
      do_vertical_patrol gs.

(** ** choose_action *)

Definition choose_action (gs : GameState) : M State Action :=
  update_counters gs;;
  s ← get;
  match initial_actions s with
  | next :: rest => modify (set_initial_actions rest);; mret next
  | [] =>
      let enemy_in_our_field :=
        list_find (λ enemy_position, in_our_field self enemy_position gs = true)
                  (omap (get_agent_position gs) (get_opponents self gs)) in
      match enemy_in_our_field with
      | Some (_, enemy_position) => decide_action_enemy_close_in_our_field enemy_position gs
      | None =>
          reached ←
            match eaten_food_position s with
            | Some eaten =>
                if decide (Some eaten ≠ get_our_position self gs) then
                  logging_info (LogFoodEaten eaten);;
                  r ← lift (search fuel self (get_our_position self gs) (Some eaten) gs);
                  '(_, actions) ← unpack_pair r;
                  first ← or_raise IndexError (py_index actions 0);
                  mret (Some first)
                else
                  logging_info LogReachedFood;;
                  modify (set_eaten_food_position None);;
                  mret None
            | None => mret None
            end;
          match reached with
          | Some first => mret first
          | None => do_vertical_patrol gs
          end
      end
  end.

End Policy.

End DefendAgent.

(** * Boards

    The engine's side of the Board Oracle for a maze drawn as text, used
    to run the model on concrete boards.  Rows are listed top to bottom as
    in the engine's layout files, ['%'] is a wall, and the cell of column
    [x] in the bottom row is [(x, 0)].  The mazes drawn here are walled
    all around, so no move is tried from a cell next to the edge of the
    grid. *)

Module Layout.

Definition wall_grid (rows : list string) : Grid :=
  let height := length rows in
  let width := match rows with r :: _ => String.length r | [] => 0%nat end in
  (λ x, (λ y,
     match reverse rows !! y with
     | Some r => match String.get x r with Some c => bool_decide (c = Ascii.ascii_of_nat 37) | None => true end
     | None => true
     end) <$> seq 0 height) <$> seq 0 width.

(** A grid of the given size that holds [true] exactly at the listed cells. *)
Definition grid_of (width height : nat) (cells : list Pos) : Grid :=
  (λ x, (λ y, bool_decide ((Z.of_nat x, Z.of_nat y) ∈ cells)) <$> seq 0 height) <$> seq 0 width.

Definition is_open (walls : Grid) (p : Pos) : bool :=
  match p with
  | (x, y) =>
      bool_decide (0 ≤ x) && bool_decide (0 ≤ y)
      && match grid_get walls x y with Some false => true | _ => false end
  end.

(** The engine's [Actions.get_possible_actions]: the directions, in the
    engine's order, whose target cell is not a wall. *)
Definition possible_actions (walls : Grid) (p : Pos) : list Action :=
  filter (λ a, is_open walls (default p (move p a)) = true) [West; Stop; East; North; South].

Definition neighbours (walls : Grid) (p : Pos) : list Pos :=
  omap (move p) (possible_actions walls p).

(** Breadth-first distance; the engine's distance table holds
    [sys.maxsize] for a pair of cells that no path joins. *)
Fixpoint bfs (walls : Grid) (n : nat) (level seen : list Pos) (d : Z) (q : Pos) : Z :=
  if bool_decide (q ∈ level) then d
  else match n with
       | O => 9223372036854775807
       | S n =>
           let next := remove_dups (filter (λ p, p ∉ seen) (level ≫= neighbours walls)) in
           match next with
           | [] => 9223372036854775807
           | _ => bfs walls n next (seen ++ next) (d + 1) q
           end
       end.

Definition maze_distance (walls : Grid) (p q : Pos) : Z :=
  bfs walls (length walls * length (default [] (walls !! 0%nat))) [p] [p] 0 q.

(** The open cells of a wall grid. *)
Definition open_cells (walls : Grid) : list Pos :=
  x ← seq 0 (length walls);
  y ← seq 0 (length (default [] (walls !! 0%nat)));
  if is_open walls (Z.of_nat x, Z.of_nat y) then [(Z.of_nat x, Z.of_nat y)] else [].

Definition board (rows : list string) (positions : list (option Pos)) (spawns : list Pos)
    (reds blues : list nat) (rfood bfood rcaps bcaps : list Pos) : GameState :=
  let walls := wall_grid rows in
  let width := length walls in
  let height := length rows in
  {| layout_width := Z.of_nat width;
     layout_height := Z.of_nat height;
     layout_walls := walls;
     get_agent_position := λ i, mjoin (positions !! i);
     get_initial_agent_position := λ i, default (0, 0) (spawns !! i);
     red_team := reds;
     blue_team := blues;
     red_food := grid_of width height rfood;
     blue_food := grid_of width height bfood;
     red_capsules := rcaps;
     blue_capsules := bcaps;
     get_legal_actions := λ i,
       match mjoin (positions !! i) with
       | Some p => possible_actions walls p
       | None => []
       end;
     get_possible_actions := possible_actions walls;
     get_maze_distance := maze_distance walls |}.

(** A closed room, 10 wide and 7 high, without inner walls. *)
Definition room : list string :=
  ["%%%%%%%%%%";
   "%        %";
   "%        %";
   "%        %";
   "%        %";
   "%        %";
   "%%%%%%%%%%"].

(** A maze whose left and right halves are not connected. *)
Definition split_maze : list string :=
  ["%%%%%%%%";
   "%  %%  %";
   "%  %%  %";
   "%  %%  %";
   "%%%%%%%%"].

End Layout.

(** * Vocabulary of the properties *)

(** ** Legal routes *)

(** Applying a move sequence one step at a time: every move must be among
    the legal moves of the position it is taken from. *)
Fixpoint walk (gs : GameState) (p : Pos) (acts : list Action) : option Pos :=
  match acts with
  | [] => Some p
  | a :: t =>
      if decide (a ∈ get_possible_actions gs p)
      then q ← move p a; walk gs q t
      else None
  end.

(** [reachable gs p q]: some legal route leads from [p] to [q]. *)
Definition reachable (gs : GameState) (p q : Pos) : Prop :=
  ∃ acts, walk gs p acts = Some q.

(** Position, moves and cost of a queued entry. *)
Definition epos (e : Entry) : Pos := (item e).1.1.
Definition eacts (e : Entry) : list Action := (item e).1.2.
Definition ecost (e : Entry) : Z := (item e).2.

(** Every queued move sequence is a legal route from [start] to the
    position it is queued with. *)
Definition routes_from (gs : GameState) (start : Pos) (fr : PriorityQueue) : Prop :=
  ∀ e, e ∈ heap fr → walk gs start (eacts e) = Some (epos e).

(** A finite list of cells that no legal move leaves contains everything
    reachable from any of its cells. *)
Definition closed_under_moves (gs : GameState) (cells : list Pos) : bool :=
  forallb (λ p,
    forallb (λ a, match move p a with
                  | Some q => bool_decide (q ∈ cells)
                  | None => true
                  end) (get_possible_actions gs p)) cells.

(** [unit_h]: the heuristic is the constant function 1. *)
Definition unit_h (ag : Agent) (gs : GameState) : Prop := ∀ p, heuristic ag p gs = 1.

(** No route from [start] to [p] is shorter than [n]. *)
Definition at_least (gs : GameState) (start : Pos) (n : nat) (p : Pos) : Prop :=
  ∀ acts, walk gs start acts = Some p → (n ≤ length acts)%nat.

(** The loop invariant.  Queued move sequences are legal routes from
    [start] to the position they are queued with; under a unit heuristic
    the priority and the cost are twice the length of the sequence; the
    start position and every legal neighbour of a visited position are
    visited or queued, the latter one step after a shortest route to the
    visited position; every proper prefix of a queued sequence ends on a
    visited position; the goal is never marked visited. *)
Record search_inv (ag : Agent) (gs : GameState) (start goal : Pos)
    (fr : PriorityQueue) (vis : gset Pos) : Prop := {
  inv_sound : ∀ e, e ∈ heap fr → walk gs start (eacts e) = Some (epos e);
  inv_prio : unit_h ag gs → ∀ e, e ∈ heap fr →
      priority e = 2 * Z.of_nat (length (eacts e)) ∧ ecost e = priority e;
  inv_start : start ∈ vis ∨ ∃ e, e ∈ heap fr ∧ epos e = start ∧ eacts e = [];
  inv_closed : ∀ v, v ∈ vis → ∃ n, (unit_h ag gs → at_least gs start n v) ∧
      ∀ a q, a ∈ get_possible_actions gs v → move v a = Some q →
        q ∈ vis
        ∨ ∃ e, e ∈ heap fr ∧ epos e = q ∧ (unit_h ag gs → (length (eacts e) ≤ n + 1)%nat);
  inv_prefix : ∀ e k, e ∈ heap fr → (k < length (eacts e))%nat →
      ∃ p, walk gs start (take k (eacts e)) = Some p ∧ p ∈ vis;
  inv_goal : goal ∉ vis;
}.

(** ** Computations of an agent *)

(** [preserves I m]: running [m] keeps the agent's attributes inside [I],
    however the run ends. *)
Definition preserves {S A} (I : S → Prop) (m : M S A) : Prop :=
  ∀ s w, I s → I (final (m s w)).

(** [hoare P m Q]: from attributes in [P], a run of [m] ends, in whatever
    way, with attributes in [Q]. *)
Definition hoare {S A} (P : S → Prop) (m : M S A) (Q : S → Prop) : Prop :=
  ∀ s w, P s → Q (final (m s w)).

(** [emits P m]: a run of [m] only appends to the log, and every message
    it appends satisfies [P]. *)
Definition emits {S A} (P : LogMsg → Prop) (m : M S A) : Prop :=
  ∀ s w, ∃ l, trace (world (m s w)) = trace w ++ l ∧ Forall P l.

(** The messages a run appended to the log of the world it started in. *)
Definition logged {S A} (w : World) (r : outcome A * S * World) : list LogMsg :=
  drop (length (trace w)) (trace (world r)).

(** The exception of an unbound [a_star_pos]. *)
Definition a_star_pos_unbound : PyError := UnboundLocalError "a_star_pos".

(** [triple I m Φ]: from attributes in [I], a run of [m] keeps the
    attributes in [I]; when it returns, the value satisfies [Φ]; when it
    raises, the exception is not the one of an unbound [a_star_pos]. *)
Definition triple {S A} (I : S → Prop) (m : M S A) (Φ : A → Prop) : Prop :=
  ∀ s w, I s →
    I (final (m s w))
    ∧ match result (m s w) with
      | Ok a => Φ a
      | Raise e => e ≠ a_star_pos_unbound
      | OutOfFuel => True
      end.

(** [quiet_run I m]: the value of [m] is of no interest. *)
Notation quiet_run I m := (triple I m (λ _, True)) (only parsing).

(** ** The policies *)

(** The states an agent object can be in: registered on some board, then
    any number of turns on any boards, with any random source, each run
    ending in any way. *)
Inductive attacker_reachable (fuel : nat) (self : Agent) : AttackAgent.State → Prop :=
  | attacker_registered gs w :
      attacker_reachable fuel self
        (final (AttackAgent.register_initial_state self gs AttackAgent.fresh w))
  | attacker_turn s gs w :
      attacker_reachable fuel self s →
      attacker_reachable fuel self (final (AttackAgent.choose_action fuel self gs s w)).

Inductive defender_reachable (fuel : nat) (self : Agent) : DefendAgent.State → Prop :=
  | defender_registered gs w :
      defender_reachable fuel self
        (final (DefendAgent.register_initial_state self gs DefendAgent.fresh w))
  | defender_turn s gs w :
      defender_reachable fuel self s →
      defender_reachable fuel self (final (DefendAgent.choose_action fuel self gs s w)).

(** [attacker_saw fuel self gs s]: [s] are the attributes of an attacker
    whose latest observation, at its registration or on its latest turn,
    was the board [gs]. *)
Inductive attacker_saw (fuel : nat) (self : Agent)
  : GameState → AttackAgent.State → Prop :=
  | attacker_saw_registration gs w :
      attacker_saw fuel self gs
        (final (AttackAgent.register_initial_state self gs AttackAgent.fresh w))
  | attacker_saw_turn gs0 s gs w :
      attacker_saw fuel self gs0 s →
      attacker_saw fuel self gs (final (AttackAgent.choose_action fuel self gs s w)).

(** The same for a defender, over the histories in which every earlier
    turn returned a move. *)
Inductive defender_saw (fuel : nat) (self : Agent)
  : GameState → DefendAgent.State → Prop :=
  | defender_saw_registration gs w :
      defender_saw fuel self gs
        (final (DefendAgent.register_initial_state self gs DefendAgent.fresh w))
  | defender_saw_turn gs0 s gs w a :
      defender_saw fuel self gs0 s →
      result (DefendAgent.choose_action fuel self gs s w) = Ok a →
      defender_saw fuel self gs (final (DefendAgent.choose_action fuel self gs s w)).

(** One turn's change of a power-up counter [turns] next to the remembered
    capsule count [last], on a board that shows [seen] capsules: equal,
    one less, or set to the duration [D] because fewer capsules are seen
    than remembered, the new count being remembered from then on. *)
Definition counter_step (D seen turns last turns' last' : Z) : Prop :=
  (turns' = turns ∧ last' = last)
  ∨ (turns' = turns - 1 ∧ 0 < turns ∧ last' = last)
  ∨ (turns' = D ∧ seen < last ∧ last' = seen).

(** The queue of opening moves holds cardinal moves only. *)
Definition cardinal_queue (s : AttackAgent.State) : Prop :=
  Forall cardinal (AttackAgent.first_actions s).

(** The two messages that tell the branches of the capsule-effect case
    apart. *)
Definition is_capsule_pursuit (m : LogMsg) : Prop :=
  match m with LogPursuingCapsule _ _ _ => True | _ => False end.

Definition is_patrol_fallback (m : LogMsg) : Prop :=
  match m with LogDoingPatrol _ _ _ => True | _ => False end.

(** The two branches of the capsule-effect case of
    [decide_action_enemy_close_in_our_field], each with its log message:
    pursuit of the enemy, and the fallback to the vertical patrol. *)
Definition pursuit_branch (fuel : nat) (self : Agent) (enemy_position : Pos)
    (distance : Z) (gs : GameState) : M DefendAgent.State Action :=
  s ← get;
  logging_info
    (LogPursuingCapsule enemy_position (DefendAgent.turns_with_capsule_effect s) distance);;
  DefendAgent.pursue fuel self enemy_position gs.

Definition patrol_branch (fuel : nat) (self : Agent) (enemy_position : Pos)
    (distance : Z) (gs : GameState) : M DefendAgent.State Action :=
  s ← get;
  logging_info
    (LogDoingPatrol enemy_position (DefendAgent.turns_with_capsule_effect s) distance);;
  DefendAgent.do_vertical_patrol fuel self gs.

(** What a call site makes of the planner's answer by
    [_, actions = aStarSearch(...)] followed by [actions[0]]: the first
    move of the planned route; [ValueError] when the empty list of a
    failed search is unpacked, [IndexError] when the route is empty. *)
Definition first_planned_move (r : option SearchResult) : outcome Action :=
  match r with
  | Some (Found _ (first :: _)) => Ok first
  | Some (Found _ []) => Raise IndexError
  | Some NoPath => Raise ValueError
  | None => OutOfFuel
  end.

(** What one turn may do to the queue: leave it, take one move from its
    front, or empty it, the last only on a board where the attacker
    stands outside its own field or on its own spawn cell. *)
Definition queue_step (self : Agent) (gs : GameState) (before after : list Action) : Prop :=
  after = before
  ∨ (∃ a, before = a :: after)
  ∨ (after = []
     ∧ ∃ here, get_our_position self gs = Some here
               ∧ (in_our_field self here gs = false
                  ∨ here = get_my_initial_position self gs)).





(** The position a move leads to is at maze distance 2 or more from
    every visible enemy outside our field. *)
Definition keeps_distance (ag : Agent) (gs : GameState) (pos : Pos) (a : Action) : bool :=
  match move pos a with
  | Some q =>
      forallb (λ i, match get_agent_position gs i with
                    | Some enemy_position =>
                        in_our_field ag enemy_position gs
                        || bool_decide (2 ≤ get_maze_distance gs q enemy_position)
                    | None => true
                    end) (get_opponents ag gs)
  | None => false
  end.

(** The cells a grid marks: column and row are counted from 0. *)
Definition food_at (g : Grid) (p : Pos) : Prop :=
  0 ≤ p.1 ∧ 0 ≤ p.2 ∧ grid_get g p.1 p.2 = Some true.

(** A grid of [width] columns that all hold [height] cells. *)
Definition rectangular (width height : nat) (g : Grid) : Prop :=
  length g = width ∧ Forall (λ col, length col = height) g.

(** No marked cell in the last column or in the last row. *)
Definition none_on_last (width height : nat) (g : Grid) : Prop :=
  ∀ p, food_at g p → p.1 ≠ Z.of_nat width - 1 ∧ p.2 ≠ Z.of_nat height - 1.

(** The last column and the last row of a wall grid are walls. *)
Definition last_is_wall (width height : nat) (walls : Grid) : Prop :=
  ∀ x y, 0 ≤ x < Z.of_nat width → 0 ≤ y < Z.of_nat height →
    x = Z.of_nat width - 1 ∨ y = Z.of_nat height - 1 → grid_get walls x y = Some true.

(** The marked cells are open cells. *)
Definition off_walls (g walls : Grid) : Prop :=
  ∀ p, food_at g p → grid_get walls p.1 p.2 = Some false.

(** What the double loop collects, as a fold. *)
Definition scan_fold (g : Grid) (width height : nat) : list Pos :=
  foldl (λ acc j,
           foldl (λ acc i, if default false (grid_get g i j) then acc ++ [(i, j)] else acc)
                 acc (py_range 0 (Z.of_nat width - 1)))
        [] (py_range 0 (Z.of_nat height - 1)).

(** The food part of a listing, against the grid it was read from. *)
Definition scan_law (width height : nat) (g : Grid) (l : list Pos) : Prop :=
  (∀ p, p ∈ l ↔ food_at g p ∧ p.1 < Z.of_nat width - 1 ∧ p.2 < Z.of_nat height - 1)
  ∧ ((∀ p, p ∈ l ↔ food_at g p) ↔ none_on_last width height g)
  ∧ (∀ walls, last_is_wall width height walls → off_walls g walls →
       ∀ p, p ∈ l ↔ food_at g p).

(** ** Boards and states of the examples *)

(** An exhausted random source and an empty log. *)
Definition quiet_world : World := {| tape := []; trace := [] |}.

(** A red defender at (1, 1) of the closed room, patrol points (2, 1) and
    (2, 5), the power-up counter at the given value, an enemy inside the
    red half at the given cell. *)
Definition defender_board (enemy : Pos) : GameState :=
  Layout.board Layout.room [Some (1, 1); Some enemy] [(1, 1); (8, 5)] [0%nat] [1%nat]
    [(2, 2); (3, 4)] [(6, 2)] [] [].

Definition defender_state (turns : Z) : DefendAgent.State :=
  DefendAgent.set_turns_with_capsule_effect turns
    (DefendAgent.set_patrol_points (Some (2, 1)) (Some (2, 5)) DefendAgent.fresh).

(** A red attacker at (6, 3) of the closed room, in the blue half, its
    spawn cell at (1, 1), no enemy in sight, the opening queue still
    holding two moves. *)
Definition attacker_board : GameState :=
  Layout.board Layout.room [Some (6, 3); None] [(1, 1); (8, 5)] [0%nat] [1%nat]
    [(2, 2); (3, 4)] [(8, 2); (7, 4)] [] [].

Definition attacker_in_opening : AttackAgent.State :=
  AttackAgent.set_first_actions [East; East]
    (AttackAgent.set_already_randomized true
       (AttackAgent.set_food_in_last_turn 2 AttackAgent.fresh)).

(** [attacker_board] one observation earlier: a capsule of the blue side
    still lies at (8, 4). *)
Definition capsule_board : GameState :=
  Layout.board Layout.room [Some (6, 3); None] [(1, 1); (8, 5)] [0%nat] [1%nat]
    [(2, 2); (3, 4)] [(8, 2); (7, 4)] [] [(8, 4)].

(** [defender_board] one observation earlier: a capsule of the red side
    still lies at (2, 4). *)
Definition defended_capsule_board (enemy : Pos) : GameState :=
  Layout.board Layout.room [Some (1, 1); Some enemy] [(1, 1); (8, 5)] [0%nat] [1%nat]
    [(2, 2); (3, 4)] [(6, 2)] [(2, 4)] [].

(** A red attacker at (2, 3) of the closed room, inside its own half, the
    opening over, with the given history of flee turns. *)
Definition attacker_home_board : GameState :=
  Layout.board Layout.room [Some (2, 3); None] [(1, 1); (8, 5)] [0%nat] [1%nat]
    [(2, 2); (3, 4)] [(8, 2); (7, 4)] [] [].


(** A red attacker at (6, 3) of the closed room, in the blue half, and a
    visible blue defender diagonally next to it at (7, 4). *)
Definition collision_board : GameState :=
  Layout.board Layout.room [Some (6, 3); Some (7, 4)] [(1, 1); (8, 5)] [0%nat] [1%nat]
    [] [] [] [].

(** A corridor one cell high.  The red attacker stands at its left end
    (1, 1), where East is its only cardinal move; a visible blue enemy
    stands at (3, 1), outside the red field and one step from (2, 1). *)
Definition corridor_maze : list string :=
  ["%%%%%%";
   "%    %";
   "%%%%%%"].

Definition dead_end_board : GameState :=
  Layout.board corridor_maze [Some (1, 1); Some (3, 1)] [(1, 1); (4, 1)] [0%nat] [1%nat]
    [] [] [] [].

(** A maze with a sealed pocket in its left column: the red defender
    stands in the pocket at (1, 1), its team's only food pellet lies
    outside at (3, 2). *)
Definition pocket_maze : list string :=
  ["%%%%%%%%%%";
   "% %      %";
   "% %      %";
   "% %      %";
   "%%%%%%%%%%"].

Definition pocket_board : GameState :=
  Layout.board pocket_maze [Some (1, 1); None] [(1, 1); (8, 3)] [0%nat] [1%nat]
    [(3, 2)] [(7, 2)] [] [].

(** The defender of [pocket_board] with its patrol points set outside
    the pocket. *)
Definition defender_on_patrol : DefendAgent.State :=
  DefendAgent.set_food_positions_in_last_turn (Some {[ (3, 2) ]})
    (DefendAgent.set_initial_goal (Some (3, 2))
       (DefendAgent.set_patrol_points (Some (3, 1)) (Some (3, 3)) DefendAgent.fresh)).

(** ** Vocabulary of the further properties *)

(** The column of our field that touches the border between the fields. *)
Definition border_column (ag : Agent) (gs : GameState) : Z :=
  if red ag then half_width gs - 1 else half_width gs.

(** The open cells of column [col] in the rows 1 to [height - 1], from the
    lowest to the highest. *)
Definition column_cells (gs : GameState) (col : Z) : list Pos :=
  (λ y, (col, y))
    <$> filter (λ y, grid_get (layout_walls gs) col y = Some false)
          (py_range 1 (layout_height gs)).

(** Ordered by a key, smallest first. *)
Definition ascending {A} (key : A → Z) : list A → Prop :=
  StronglySorted (λ a b, key a ≤ key b).

(** The body of the loop of [get_closest_point_in_our_field] over the rows
    of column [c], for an agent standing at [here]. *)
Definition closest_step (gs : GameState) (c : Z) (here : Pos)
    (acc : Z * option Pos) (y : Z) : Z * option Pos :=
  let '(min_distance, min_point) := acc in
  if default true (grid_get (layout_walls gs) c y) then (min_distance, min_point)
  else if decide (get_maze_distance gs here (c, y) < min_distance)
       then (get_maze_distance gs here (c, y), Some (c, y))
       else (min_distance, min_point).

(** The position distances are measured from: the agent's own position,
    or the one [initial_position_function] returns. *)
Definition measures_from (ag : Agent) (gs : GameState)
    (initial_position_function : option (Agent → GameState → Eff Pos)) (from : Pos) : Prop :=
  match initial_position_function with
  | None => get_agent_position gs (index ag) = Some from
  | Some f => ∀ w, f ag gs () w = (Ok from, (), w)
  end.

(** [food_positions_function] returns the list [foods]. *)
Definition lists_food (ag : Agent) (gs : GameState)
    (food_positions_function : Agent → GameState → Eff (list Pos)) (foods : list Pos) : Prop :=
  ∀ w, food_positions_function ag gs () w = (Ok foods, (), w).

(** The route planned from the agent's own position to [target], unpacked. *)
Definition route_to (fuel : nat) (ag : Agent) (gs : GameState) (target : Pos)
  : Eff (Pos * list Action) :=
  r ← search fuel ag (get_agent_position gs (index ag)) (Some target) gs;
  unpack_pair r.

(** A visible opponent outside our field at a maze distance below
    [radius] from [pos]. *)
Definition threatened (ag : Agent) (gs : GameState) (radius : Z) (pos : Pos) : Prop :=
  ∃ i enemy_position,
    i ∈ get_opponents ag gs
    ∧ get_agent_position gs i = Some enemy_position
    ∧ in_our_field ag enemy_position gs = false
    ∧ get_maze_distance gs pos enemy_position < radius.

(** The attacker is seen inside its own field. *)
Definition at_home (self : Agent) (gs : GameState) : Prop :=
  ∃ here, get_our_position self gs = Some here ∧ in_our_field self here gs = true.

(** One turn's change of the attacker's count of eaten food [eaten] next
    to the remembered number of food positions [last]: the remembered
    number stays and the count stays or is reset at home, or the
    remembered number drops and the count (reset first when at home) goes
    up by one. *)
Definition food_step (self : Agent) (gs : GameState) (eaten last eaten' last' : Z) : Prop :=
  (last' = last ∧ (eaten' = eaten ∨ (eaten' = 0 ∧ at_home self gs)))
  ∨ (0 ≤ last' < last ∧ (eaten' = eaten + 1 ∨ (eaten' = 1 ∧ at_home self gs))).

(** One turn's change of the window of the mini-retreat. *)
Definition window_step (turns turns' : Z) : Prop :=
  turns' = 0
  ∨ turns' = AttackAgent.TURNS_HAS_TO_FLEE
  ∨ (turns' = turns - 1 ∧ 0 < turns)
  ∨ (turns' = turns ∧ turns ≤ 0).

(** A defender in its opening: the goal is set, two moves are queued, and
    the food remembered from the turn before holds one position more than
    the board of [defender_board] shows. *)
Definition defender_in_opening : DefendAgent.State :=
  DefendAgent.set_initial_actions [East; North]
    (DefendAgent.set_initial_goal (Some (2, 2))
       (DefendAgent.set_food_positions_in_last_turn (Some {[ (2, 2); (3, 4); (3, 3) ]})
          DefendAgent.fresh)).

(** The exception of an unbound [goal] in [do_vertical_patrol]. *)
Definition goal_unbound : PyError := UnboundLocalError "goal".

(** [guards bad P m Q]: from attributes in [P], a run of [m] ends, in
    whatever way, with attributes in [Q], and it does not raise [bad]. *)
Definition guards {S A} (bad : PyError) (P : S → Prop) (m : M S A) (Q : S → Prop) : Prop :=
  ∀ s w, P s → Q (final (m s w)) ∧ result (m s w) ≠ Raise bad.

(** What the defender's attributes keep: before the opening goal is set
    there are no patrol points and no patrolled point; a patrolled point
    is one of the two patrol points. *)
Definition patrol_inv (s : DefendAgent.State) : Prop :=
  (DefendAgent.initial_goal s = None →
     DefendAgent.patrol_point_1 s = None ∧ DefendAgent.patrol_point_2 s = None
     ∧ DefendAgent.last_patrolled_point s = None)
  ∧ (∀ p, DefendAgent.last_patrolled_point s = Some p →
       DefendAgent.patrol_point_1 s = Some p ∨ DefendAgent.patrol_point_2 s = Some p).

(** The end of [do_vertical_patrol]: log the goal, plan a route to it and
    return its first move. *)
Definition patrol_route (fuel : nat) (self : Agent) (gs : GameState) (goal : Pos)
  : M DefendAgent.State Action :=
  logging_info (LogPatrolling goal);;
  r ← lift (search fuel self (get_our_position self gs) (Some goal) gs);
  '(_, actions) ← unpack_pair r;
  or_raise IndexError (py_index actions 0).

(** A red defender on patrol in the closed room: the opening goal set,
    the patrol points (2, 1) and (2, 5), no point patrolled yet. *)
Definition defender_patrolling : DefendAgent.State :=
  DefendAgent.set_initial_goal (Some (2, 2)) (defender_state 0).

(** No visible opponent, inside or outside our field, is at a maze
    distance below [radius] from [pos]. *)
Definition nobody_near (ag : Agent) (gs : GameState) (radius : Z) (pos : Pos) : Prop :=
  ∀ i enemy_position,
    i ∈ get_opponents ag gs → get_agent_position gs i = Some enemy_position →
    radius ≤ get_maze_distance gs pos enemy_position.

(** A red attacker at (7, 3) of the closed room, in the blue half, with
    an enemy food pellet in the cell above it and no enemy in sight. *)
Definition detour_board : GameState :=
  Layout.board Layout.room [Some (7, 3); None] [(1, 1); (8, 5)] [0%nat] [1%nat]
    [(2, 2); (3, 4)] [(8, 2); (7, 4)] [] [].

(** * Properties of the planner *)

Lemma walk_app gs p acts1 acts2 :
  walk gs p (acts1 ++ acts2) = q ← walk gs p acts1; walk gs q acts2.
Proof.
  revert p. induction acts1 as [|a t IH]; intros p; simpl; [done|].
  case_decide; [|done].
  destruct (move p a) as [q|]; simpl; [apply IH|done].
Qed.

Lemma walk_snoc gs p acts a q r :
  walk gs p acts = Some q → a ∈ get_possible_actions gs q → move q a = Some r →
  walk gs p (acts ++ [a]) = Some r.
Proof.
  intros Hw Ha Hm. rewrite walk_app, Hw. simpl.
  rewrite decide_True by done. by rewrite Hm.
Qed.

Lemma walk_snoc_inv gs p acts a r :
  walk gs p (acts ++ [a]) = Some r →
  ∃ q, walk gs p acts = Some q ∧ a ∈ get_possible_actions gs q ∧ move q a = Some r.
Proof.
  rewrite walk_app. destruct (walk gs p acts) as [q|]; simpl; [|done].
  case_decide; [|done]. destruct (move q a) as [r'|] eqn:Hm; simpl; [|done].
  intros [= <-]. eauto.
Qed.

(** ** The frontier *)

Lemma extract_min_perm l m r : extract_min l = Some (m, r) → l ≡ₚ m :: r.
Proof.
  revert m r. induction l as [|e t IH]; intros m r; simpl; [done|].
  destruct (extract_min t) as [[m' r']|] eqn:Ht.
  - destruct (entry_le e m'); intros [= <- <-]; [done|].
    rewrite (IH _ _ eq_refl). apply perm_swap.
  - intros [= <- <-]. destruct t; [done|]. simpl in Ht.
    destruct (extract_min t) as [[??]|]; [destruct (entry_le _ _)|]; done.
Qed.

Lemma extract_min_least l m r e :
  extract_min l = Some (m, r) → e ∈ l → priority m ≤ priority e.
Proof.
  revert m r. induction l as [|x t IH]; intros m r; simpl; [done|].
  destruct (extract_min t) as [[m' r']|] eqn:Ht.
  - destruct (entry_le x m') eqn:Hle.
    + intros [= <- <-]. rewrite elem_of_cons. intros [->|Hin]; [lia|].
      specialize (IH _ _ eq_refl Hin). unfold entry_le in Hle.
      apply orb_true_iff in Hle as [Hle|Hle].
      * apply bool_decide_eq_true in Hle. lia.
      * apply andb_true_iff in Hle as [Hle _]. apply bool_decide_eq_true in Hle. lia.
    + intros [= <- <-]. rewrite elem_of_cons. intros [->|Hin]; [|by eapply IH].
      unfold entry_le in Hle. apply orb_false_iff in Hle as [Hle _].
      apply bool_decide_eq_false in Hle. lia.
  - intros [= <- <-]. destruct t as [|y t].
    + rewrite elem_of_cons. intros [->|Hin]; [lia|]. by apply elem_of_nil in Hin.
    + simpl in Ht. destruct (extract_min t) as [[??]|]; [destruct (entry_le _ _)|]; done.
Qed.

Lemma extract_min_None l : extract_min l = None → l = [].
Proof.
  destruct l as [|e t]; simpl; [done|].
  destruct (extract_min t) as [[??]|]; [destruct (entry_le _ _)|]; done.
Qed.

Lemma update_heap_Some it prio l h :
  update_heap it prio l = Some h →
  (∀ e, e ∈ h → e ∈ l ∨ (item e = it ∧ priority e = prio))
  ∧ (∀ e, e ∈ l → ∃ e', e' ∈ h ∧ item e' = item e)
  ∧ (∃ e', e' ∈ h ∧ item e' = it).
Proof.
  revert h. induction l as [|x t IH]; intros h; simpl; [done|].
  case_decide as Hit.
  - case_decide.
    + intros [= <-]. split_and!; [by left| eauto |].
      exists x. split; [left|done].
    + intros [= <-]. split_and!.
      * intros e [Hin|Hin]%elem_of_app; [left; by right|].
        apply list_elem_of_singleton in Hin as ->. by right.
      * intros e [->|Hin]%elem_of_cons.
        -- eexists. split; [apply elem_of_app; right; apply list_elem_of_singleton; done|].
           done.
        -- exists e. split; [apply elem_of_app; by left|done].
      * eexists. split; [apply elem_of_app; right; apply list_elem_of_singleton; done|done].
  - destruct (update_heap it prio t) as [h'|]; simpl; [|done].
    intros [= <-]. destruct (IH _ eq_refl) as (H1 & H2 & e' & H3 & H4). split_and!.
    + intros e [->|Hin]%elem_of_cons; [left; left|].
      destruct (H1 _ Hin) as [?|?]; [left; by right|by right].
    + intros e [->|Hin]%elem_of_cons; [exists x; split; [left|done]|].
      destruct (H2 _ Hin) as (e2 & ? & ?). exists e2. split; [by right|done].
    + exists e'. split; [by right|done].
Qed.

Lemma update_spec it prio q :
  (∀ e, e ∈ heap (update it prio q) → e ∈ heap q ∨ (item e = it ∧ priority e = prio))
  ∧ (∀ e, e ∈ heap q → ∃ e', e' ∈ heap (update it prio q) ∧ item e' = item e)
  ∧ (∃ e', e' ∈ heap (update it prio q) ∧ item e' = it).
Proof.
  unfold update. destruct (update_heap it prio (heap q)) as [h|] eqn:Hu; simpl.
  - by apply update_heap_Some.
  - split_and!.
    + intros e [Hin|Hin]%elem_of_app; [by left|].
      apply list_elem_of_singleton in Hin as ->. by right.
    + intros e Hin. exists e. split; [apply elem_of_app; by left|done].
    + eexists. split; [apply elem_of_app; right; apply list_elem_of_singleton; done|done].
Qed.

Lemma expand_spec ag gs actions cost succs q :
  let child (t : Pos * Action * Z) : Item :=
    (t.1.1, actions ++ [t.1.2], cost + t.2 + heuristic ag t.1.1 gs) in
  (∀ e, e ∈ heap (expand ag gs actions cost succs q) →
        e ∈ heap q ∨ ∃ t, t ∈ succs ∧ item e = child t ∧ priority e = (child t).2)
  ∧ (∀ e, e ∈ heap q → ∃ e', e' ∈ heap (expand ag gs actions cost succs q) ∧ item e' = item e)
  ∧ (∀ t, t ∈ succs → ∃ e', e' ∈ heap (expand ag gs actions cost succs q) ∧ item e' = child t).
Proof.
  intros child. revert q. induction succs as [|[[s a] c] succs IH]; intros q.
  - split_and!; [by left|eauto|]. intros t Ht. by apply elem_of_nil in Ht.
  - unfold expand. simpl. fold (expand ag gs actions cost succs).
    set (it := (s, actions ++ [a], cost + c + heuristic ag s gs)).
    destruct (update_spec it it.2 q) as (U1 & U2 & U3).
    destruct (IH (update it it.2 q)) as (E1 & E2 & E3).
    split_and!.
    + intros e He. destruct (E1 _ He) as [Hin|(t & ? & ? & ?)].
      * destruct (U1 _ Hin) as [?|[? ?]]; [by left|].
        right. exists (s, a, c). split; [left|done].
      * right. exists t. split; [by right|done].
    + intros e He. destruct (U2 _ He) as (e1 & H1 & <-). by apply E2.
    + intros t [->|Ht]%elem_of_cons; [|by apply E3].
      destruct U3 as (e1 & H1 & H2). destruct (E2 _ H1) as (e2 & ? & He2).
      exists e2. split; [done|]. by rewrite He2, H2.
Qed.

Lemma elem_of_successor_states pos legal s a c :
  (s, a, c) ∈ successor_states pos legal ↔ a ∈ legal ∧ move pos a = Some s ∧ c = 1.
Proof.
  unfold successor_states. rewrite list_elem_of_omap. split.
  - intros (a' & Hin & Heq). destruct (move pos a') as [p|] eqn:Hm; simpl in Heq; [|done].
    injection Heq as <- <- <-. done.
  - intros (Hin & Hm & ->). exists a. split; [done|]. by rewrite Hm.
Qed.

(** ** The search loop *)

Lemma astar_loop_fuel_mono ag gs goal fuel fuel' fr vis r :
  astar_loop ag gs goal fuel fr vis = Some r → (fuel ≤ fuel')%nat →
  astar_loop ag gs goal fuel' fr vis = Some r.
Proof.
  revert fuel' fr vis. induction fuel as [|fuel IH]; intros fuel' fr vis; simpl; [done|].
  intros Hr Hle. destruct fuel' as [|fuel']; [lia|]. simpl.
  destruct (pop fr) as [[[[pos acts] cost] fr']|]; [|done].
  repeat case_decide; try done; apply IH; (done || lia).
Qed.

Section AStar.

Variables (ag : Agent) (gs : GameState) (start goal : Pos).

(** The positions that legal routes from [start] can reach lie in a
    finite set. *)
Variable cells : gset Pos.
Hypothesis cells_closed : ∀ p, reachable gs start p → p ∈ cells.
Hypothesis goal_reachable : reachable gs start goal.

Lemma search_inv_init : search_inv ag gs start goal (push (start, [], 0) 0 empty_queue) ∅.
Proof.
  split; simpl.
  - intros e He. apply list_elem_of_singleton in He as ->. done.
  - intros _ e He. apply list_elem_of_singleton in He as ->. done.
  - right. eexists. split; [apply list_elem_of_singleton; done|done].
  - intros v Hv. set_solver.
  - intros e k He. apply list_elem_of_singleton in He as ->. simpl. lia.
  - set_solver.
Qed.

(** Every route to an unvisited position is at least as long as some
    queued sequence. *)
Lemma frontier_covers fr vis :
  search_inv ag gs start goal fr vis → unit_h ag gs →
  ∀ acts p, walk gs start acts = Some p → p ∉ vis →
    ∃ e, e ∈ heap fr ∧ (length (eacts e) ≤ length acts)%nat.
Proof.
  intros Hinv HU acts. induction acts as [|a acts IH] using rev_ind; intros p Hw Hp.
  - simpl in Hw. injection Hw as <-.
    destruct (inv_start _ _ _ _ _ _ Hinv) as [?|(e & He & _ & Hnil)]; [done|].
    exists e. split; [done|]. rewrite Hnil. simpl. lia.
  - apply walk_snoc_inv in Hw as (q & Hq & Ha & Hm).
    destruct (decide (q ∈ vis)) as [Hqv|Hqv].
    + destruct (inv_closed _ _ _ _ _ _ Hinv q Hqv) as (n & Hn & Hsucc).
      destruct (Hsucc a p Ha Hm) as [?|(e & He & _ & Hlen)]; [done|].
      exists e. split; [done|]. specialize (Hn HU _ Hq). specialize (Hlen HU).
      rewrite length_app. simpl. lia.
    + destruct (IH q Hq Hqv) as (e & He & Hlen).
      exists e. split; [done|]. rewrite length_app. lia.
Qed.

(** The sequence popped for an unvisited position is a shortest route. *)
Lemma popped_shortest fr vis m r :
  search_inv ag gs start goal fr vis → unit_h ag gs → extract_min (heap fr) = Some (m, r) →
  epos m ∉ vis → at_least gs start (length (eacts m)) (epos m).
Proof.
  intros Hinv HU Hpop Hm acts Hw.
  destruct (frontier_covers _ _ Hinv HU _ _ Hw Hm) as (e & He & Hlen).
  pose proof (extract_min_least _ _ _ _ Hpop He) as Hle.
  assert (m ∈ heap fr) as Hmin.
  { rewrite (extract_min_perm _ _ _ Hpop). left. }
  destruct (inv_prio _ _ _ _ _ _ Hinv HU _ He) as [Hpe _].
  destruct (inv_prio _ _ _ _ _ _ Hinv HU _ Hmin) as [Hpm _]. lia.
Qed.

Lemma search_inv_skip fr vis m r :
  search_inv ag gs start goal fr vis → extract_min (heap fr) = Some (m, r) → epos m ∈ vis →
  search_inv ag gs start goal {| heap := r; count := count fr |} vis.
Proof.
  intros Hinv Hpop Hm. pose proof (extract_min_perm _ _ _ Hpop) as Hperm.
  assert (∀ e, e ∈ r → e ∈ heap fr) as Hsub.
  { intros e He. rewrite Hperm. by right. }
  assert (∀ e, e ∈ heap fr → e = m ∨ e ∈ r) as Hcases.
  { intros e He. rewrite Hperm in He. by apply elem_of_cons in He. }
  split; simpl.
  - intros e He. apply (inv_sound _ _ _ _ _ _ Hinv), Hsub, He.
  - intros HU e He. apply (inv_prio _ _ _ _ _ _ Hinv HU), Hsub, He.
  - destruct (inv_start _ _ _ _ _ _ Hinv) as [?|(e & He & Hs & Hnil)]; [by left|].
    destruct (Hcases _ He) as [->|Her]; [left; by rewrite <- Hs|].
    right. by exists e.
  - intros v Hv. destruct (inv_closed _ _ _ _ _ _ Hinv v Hv) as (n & Hn & Hsucc).
    exists n. split; [done|]. intros a q Ha Hq.
    destruct (Hsucc a q Ha Hq) as [?|(e & He & Hs & Hlen)]; [by left|].
    destruct (Hcases _ He) as [->|Her]; [left; by rewrite <- Hs|].
    right. by exists e.
  - intros e k He. apply (inv_prefix _ _ _ _ _ _ Hinv), Hsub, He.
  - apply (inv_goal _ _ _ _ _ _ Hinv).
Qed.

Lemma search_inv_expand fr vis m r :
  search_inv ag gs start goal fr vis → extract_min (heap fr) = Some (m, r) →
  epos m ∉ vis → epos m ≠ goal →
  search_inv ag gs start goal
    (expand ag gs (eacts m) (ecost m)
       (successor_states (epos m) (get_legal_actions_own ag gs (epos m)))
       {| heap := r; count := count fr |})
    ({[epos m]} ∪ vis).
Proof.
  intros Hinv Hpop Hm Hgoal. pose proof (extract_min_perm _ _ _ Hpop) as Hperm.
  assert (m ∈ heap fr) as Hmin by (rewrite Hperm; left).
  assert (∀ e, e ∈ r → e ∈ heap fr) as Hsub.
  { intros e He. rewrite Hperm. by right. }
  assert (∀ e, e ∈ heap fr → e = m ∨ e ∈ r) as Hcases.
  { intros e He. rewrite Hperm in He. by apply elem_of_cons in He. }
  set (succs := successor_states _ _).
  set (fr0 := {| heap := r; count := count fr |}).
  destruct (expand_spec ag gs (eacts m) (ecost m) succs fr0) as (E1 & E2 & E3).
  pose proof (inv_sound _ _ _ _ _ _ Hinv _ Hmin) as Hwm.
  split.
  - intros e He. destruct (E1 _ He) as [Hin|([[s a] c] & Ht & Hit & _)].
    + apply (inv_sound _ _ _ _ _ _ Hinv), Hsub, Hin.
    + apply elem_of_successor_states in Ht as (Ha & Hmv & ->).
      unfold eacts, epos. rewrite Hit. simpl. by eapply walk_snoc.
  - intros HU e He. destruct (E1 _ He) as [Hin|([[s a] c] & Ht & Hit & Hp)].
    + apply (inv_prio _ _ _ _ _ _ Hinv HU), Hsub, Hin.
    + apply elem_of_successor_states in Ht as (Ha & Hmv & ->).
      destruct (inv_prio _ _ _ _ _ _ Hinv HU _ Hmin) as [Hpm Hcm].
      unfold eacts, ecost. rewrite Hit, Hp. simpl. rewrite (HU s), length_app. simpl.
      fold (eacts m). lia.
  - destruct (inv_start _ _ _ _ _ _ Hinv) as [?|(e & He & Hs & Hnil)]; [left; set_solver|].
    destruct (Hcases _ He) as [->|Her]; [left; set_solver|].
    destruct (E2 e Her) as (e' & He' & Hit). right. exists e'.
    unfold epos, eacts in *. by rewrite Hit.
  - intros v [Hv|Hv]%elem_of_union.
    + apply elem_of_singleton in Hv as ->. exists (length (eacts m)). split.
      { intros HU. by eapply popped_shortest. }
      intros a q Ha Hq. right.
      destruct (E3 (q, a, 1)) as (e' & He' & Hit).
      { apply elem_of_successor_states. done. }
      exists e'. split; [done|]. unfold epos, eacts in *. rewrite Hit. simpl.
      split; [done|]. intros _. rewrite length_app. simpl. lia.
    + destruct (inv_closed _ _ _ _ _ _ Hinv v Hv) as (n & Hn & Hsucc).
      exists n. split; [done|]. intros a q Ha Hq.
      destruct (Hsucc a q Ha Hq) as [?|(e & He & Hs & Hlen)]; [left; set_solver|].
      destruct (Hcases _ He) as [->|Her]; [left; set_solver|].
      destruct (E2 e Her) as (e' & He' & Hit). right. exists e'.
      unfold epos, eacts in *. by rewrite Hit.
  - intros e k He Hk. destruct (E1 _ He) as [Hin|([[s a] c] & Ht & Hit & _)].
    + destruct (inv_prefix _ _ _ _ _ _ Hinv e k (Hsub _ Hin) Hk) as (p & Hp & Hpv).
      exists p. split; [done|set_solver].
    + unfold eacts in Hk |- *. rewrite Hit in Hk |- *. simpl in Hk |- *.
      fold (eacts m) in Hk |- *. rewrite length_app in Hk. simpl in Hk.
      destruct (decide (k < length (eacts m))%nat) as [Hlt|Hge].
      * rewrite take_app_le by lia.
        destruct (inv_prefix _ _ _ _ _ _ Hinv m k Hmin Hlt) as (p & Hp & Hpv).
        exists p. split; [done|set_solver].
      * rewrite take_app_le by lia. rewrite take_ge by lia.
        exists (epos m). split; [done|set_solver].
  - pose proof (inv_goal _ _ _ _ _ _ Hinv). set_solver.
Qed.

(** With the goal reachable the frontier cannot run empty. *)
Lemma frontier_nonempty fr vis : search_inv ag gs start goal fr vis → heap fr ≠ [].
Proof.
  intros Hinv Hnil.
  assert (∀ acts p, walk gs start acts = Some p → p ∈ vis) as Hall.
  { intros acts. induction acts as [|a acts IH] using rev_ind; intros p Hw.
    - simpl in Hw. injection Hw as <-.
      destruct (inv_start _ _ _ _ _ _ Hinv) as [?|(e & He & _)]; [done|].
      rewrite Hnil in He. by apply elem_of_nil in He.
    - apply walk_snoc_inv in Hw as (q & Hq & Ha & Hmv).
      destruct (inv_closed _ _ _ _ _ _ Hinv q (IH _ Hq)) as (n & _ & Hsucc).
      destruct (Hsucc a p Ha Hmv) as [?|(e & He & _)]; [done|].
      rewrite Hnil in He. by apply elem_of_nil in He. }
  destruct goal_reachable as (acts & Hw).
  apply (inv_goal _ _ _ _ _ _ Hinv), (Hall _ _ Hw).
Qed.

(** From a state that satisfies the invariant the loop returns, with
    enough fuel, a legal route to the goal, a shortest one under a unit
    heuristic. *)
Lemma astar_loop_correct :
  ∀ n k fr vis,
    search_inv ag gs start goal fr vis → size (cells ∖ vis) = n → length (heap fr) = k →
    ∃ fuel acts,
      astar_loop ag gs (Some goal) fuel fr vis = Some (Found goal acts)
      ∧ walk gs start acts = Some goal
      ∧ (∀ k, (k < length acts)%nat → walk gs start (take k acts) ≠ Some goal)
      ∧ (unit_h ag gs → at_least gs start (length acts) goal).
Proof.
  induction n as [n IHn] using lt_wf_ind.
  induction k as [k IHk] using lt_wf_ind.
  intros fr vis Hinv Hn Hk.
  destruct (extract_min (heap fr)) as [[m r]|] eqn:Hpop; cycle 1.
  { apply extract_min_None in Hpop. by apply frontier_nonempty in Hinv. }
  pose proof (extract_min_perm _ _ _ Hpop) as Hperm.
  assert (m ∈ heap fr) as Hmin by (rewrite Hperm; left).
  pose proof (inv_sound _ _ _ _ _ _ Hinv _ Hmin) as Hwm.
  destruct (decide (epos m ∈ vis)) as [Hv|Hv].
  - destruct (IHk (length r)) with (fr := {| heap := r; count := count fr |}) (vis := vis)
      as (fuel & acts & Hrun & Hres); [|by eapply search_inv_skip|done|done|].
    { rewrite <- Hk, Hperm. simpl. lia. }
    exists (S fuel), acts. split; [|done]. simpl. unfold pop. rewrite Hpop.
    destruct m as [pm sm [[pos acts'] cost]]. simpl in *.
    unfold epos in Hv. simpl in Hv. by rewrite decide_True.
  - destruct (decide (Some (epos m) = Some goal)) as [Hg|Hg].
    + exists 1%nat, (eacts m). split_and!.
      * simpl. unfold pop. rewrite Hpop.
        destruct m as [pm sm [[pos acts'] cost]]. unfold epos, eacts in *. simpl in *.
        rewrite decide_False by done. rewrite decide_True by done.
        by injection Hg as ->.
      * injection Hg as Hg'. by rewrite <- Hg'.
      * intros j Hj Hw. destruct (inv_prefix _ _ _ _ _ _ Hinv m j Hmin Hj) as (p & Hp & Hpv).
        rewrite Hp in Hw. injection Hw as ->. by apply (inv_goal _ _ _ _ _ _ Hinv).
      * intros HU. injection Hg as Hg'. rewrite <- Hg'. by eapply popped_shortest.
    + assert (epos m ≠ goal) as Hg' by congruence.
      pose proof (search_inv_expand _ _ _ _ Hinv Hpop Hv Hg') as Hinv'.
      edestruct (IHn (size (cells ∖ ({[epos m]} ∪ vis)))) as (fuel & acts & Hrun & Hres);
        [|exact Hinv'|done|done|].
      { rewrite <- Hn. apply subset_size.
        assert (epos m ∈ cells) by (apply cells_closed; by eexists).
        set_solver. }
      exists (S fuel), acts. split; [|done]. simpl. unfold pop. rewrite Hpop.
      destruct m as [pm sm [[pos acts'] cost]]. unfold epos, eacts, ecost in *. simpl in *.
      rewrite decide_False by done. by rewrite decide_False by done.
Qed.

End AStar.

(** ** Soundness and termination without a reachable goal *)

Lemma walk_cardinal gs p acts q : walk gs p acts = Some q → Forall cardinal acts.
Proof.
  revert p. induction acts as [|a t IH]; intros p; simpl; [constructor|].
  case_decide; [|done]. destruct (move p a) as [r|] eqn:Hm; simpl; [|done].
  intros Hw. constructor; [|by eapply IH].
  intros ->. by destruct p.
Qed.

Lemma routes_from_pop gs start fr m r :
  routes_from gs start fr → extract_min (heap fr) = Some (m, r) →
  walk gs start (eacts m) = Some (epos m)
  ∧ routes_from gs start {| heap := r; count := count fr |}.
Proof.
  intros Hfr Hpop. pose proof (extract_min_perm _ _ _ Hpop) as Hperm. split.
  - apply Hfr. rewrite Hperm. left.
  - intros e He. apply Hfr. rewrite Hperm. by right.
Qed.

Lemma routes_from_expand ag gs start fr m :
  routes_from gs start fr → walk gs start (eacts m) = Some (epos m) →
  routes_from gs start
    (expand ag gs (eacts m) (ecost m)
       (successor_states (epos m) (get_legal_actions_own ag gs (epos m))) fr).
Proof.
  intros Hfr Hm e He.
  destruct (expand_spec ag gs (eacts m) (ecost m)
              (successor_states (epos m) (get_legal_actions_own ag gs (epos m))) fr)
    as (E1 & _ & _).
  destruct (E1 _ He) as [Hin|([[s a] c] & Ht & Hit & _)]; [by apply Hfr|].
  apply elem_of_successor_states in Ht as (Ha & Hmv & ->).
  unfold eacts, epos. rewrite Hit. simpl. by eapply walk_snoc.
Qed.

(** Whatever the loop returns as found is a legal route from the start
    to the goal. *)
Lemma astar_loop_sound ag gs start goal fuel fr vis p acts :
  routes_from gs start fr →
  astar_loop ag gs goal fuel fr vis = Some (Found p acts) →
  walk gs start acts = Some p ∧ goal = Some p.
Proof.
  revert fr vis. induction fuel as [|fuel IH]; intros fr vis Hfr; simpl; [done|].
  unfold pop. destruct (extract_min (heap fr)) as [[m r]|] eqn:Hpop; [|done].
  destruct (routes_from_pop _ _ _ _ _ Hfr Hpop) as [Hm Hr].
  destruct m as [pm sm [[pos acts'] cost]]. unfold epos, eacts in Hm. simpl in *.
  repeat case_decide.
  - by apply IH.
  - intros [= <- <-]. done.
  - apply IH. by apply (routes_from_expand ag gs start _
                          {| priority := pm; stamp := sm; item := (pos, acts', cost) |}).
Qed.

(** On a maze whose reachable part is finite the loop ends. *)
Lemma astar_loop_terminates (ag : Agent) (gs : GameState) (start : Pos) (goal : option Pos) (cells : gset Pos) :
  (∀ p, reachable gs start p → p ∈ cells) →
  ∀ n k fr vis,
    routes_from gs start fr → size (cells ∖ vis) = n → length (heap fr) = k →
    ∃ fuel r, astar_loop ag gs goal fuel fr vis = Some r.
Proof.
  intros Hcells.
  induction n as [n IHn] using lt_wf_ind.
  induction k as [k IHk] using lt_wf_ind.
  intros fr vis Hfr Hn Hk.
  destruct (extract_min (heap fr)) as [[m r]|] eqn:Hpop; cycle 1.
  { exists 1%nat, NoPath. simpl. unfold pop. by rewrite Hpop. }
  destruct (routes_from_pop _ _ _ _ _ Hfr Hpop) as [Hm Hr].
  pose proof (extract_min_perm _ _ _ Hpop) as Hperm.
  destruct (decide (epos m ∈ vis)) as [Hv|Hv].
  - destruct (IHk (length r)) with (fr := {| heap := r; count := count fr |}) (vis := vis)
      as (fuel & res & Hrun); [|done|done|done|].
    { rewrite <- Hk, Hperm. simpl. lia. }
    exists (S fuel), res. simpl. unfold pop. rewrite Hpop.
    destruct m as [pm sm [[pos acts'] cost]]. unfold epos in Hv. simpl in *.
    by rewrite decide_True.
  - destruct (decide (Some (epos m) = goal)) as [Hg|Hg].
    + exists 1%nat, (Found (epos m) (eacts m)). simpl. unfold pop. rewrite Hpop.
      destruct m as [pm sm [[pos acts'] cost]]. unfold epos, eacts in *. simpl in *.
      rewrite decide_False by done. by rewrite decide_True.
    + pose proof (routes_from_expand ag gs start _ m Hr Hm) as Hfr'.
      edestruct (IHn (size (cells ∖ ({[epos m]} ∪ vis)))) as (fuel & res & Hrun);
        [|exact Hfr'|done|done|].
      { rewrite <- Hn. apply subset_size.
        assert (epos m ∈ cells) by (apply Hcells; by eexists).
        set_solver. }
      exists (S fuel), res. simpl. unfold pop. rewrite Hpop.
      destruct m as [pm sm [[pos acts'] cost]]. unfold epos, eacts, ecost in *. simpl in *.
      rewrite decide_False by done. by rewrite decide_False by done.
Qed.

Lemma routes_from_init gs start : routes_from gs start (push (start, [], 0) 0 empty_queue).
Proof. intros e He. apply list_elem_of_singleton in He as ->. done. Qed.

(** Every move of a returned sequence is one of the four cardinal moves. *)
Lemma aStarSearch_cardinal fuel ag start goal gs p acts :
  aStarSearch fuel ag start goal gs = Some (Found p acts) → Forall cardinal acts.
Proof.
  intros Hrun.
  destruct (astar_loop_sound _ _ _ _ _ _ _ _ _ (routes_from_init gs start) Hrun) as [Hw _].
  by eapply walk_cardinal.
Qed.

(** Without a legal route to the goal the frontier empties and the
    planner returns its empty list. *)
Lemma aStarSearch_no_route (ag : Agent) (gs : GameState) (start : Pos) (goal : option Pos) (cells : gset Pos) :
  (∀ p, reachable gs start p → p ∈ cells) →
  (∀ g, goal = Some g → ¬ reachable gs start g) →
  ∃ bound, ∀ fuel, (bound ≤ fuel)%nat → aStarSearch fuel ag start goal gs = Some NoPath.
Proof.
  intros Hcells Hno.
  destruct (astar_loop_terminates ag gs start goal cells Hcells _ _ _ ∅
              (routes_from_init gs start) eq_refl eq_refl) as (fuel & r & Hrun).
  exists fuel. intros fuel' Hle. unfold aStarSearch.
  eapply astar_loop_fuel_mono; [|exact Hle]. rewrite Hrun. f_equal.
  destruct r as [p acts|]; [|done].
  destruct (astar_loop_sound _ _ _ _ _ _ _ _ _ (routes_from_init gs start) Hrun) as [Hw Hg].
  exfalso. apply (Hno p Hg). by exists acts.
Qed.

Lemma reachable_in_closed gs (cells : list Pos) start :
  bool_decide (start ∈ cells) = true → closed_under_moves gs cells = true →
  ∀ p, reachable gs start p → p ∈ (list_to_set cells : gset Pos).
Proof.
  intros Hstart%bool_decide_eq_true Hclosed p [acts Hw]. apply elem_of_list_to_set.
  revert p Hw. induction acts as [|a acts IH] using rev_ind; intros p Hw.
  - simpl in Hw. by injection Hw as <-.
  - apply walk_snoc_inv in Hw as (q & Hq & Ha & Hm).
    specialize (IH q Hq). unfold closed_under_moves in Hclosed.
    rewrite forallb_forall in Hclosed.
    apply list_elem_of_In in IH. specialize (Hclosed q IH).
    rewrite forallb_forall in Hclosed.
    apply list_elem_of_In in Ha. specialize (Hclosed a Ha).
    rewrite Hm in Hclosed. by apply bool_decide_eq_true in Hclosed.
Qed.

(** C2. Whenever a legal route joins [initial_position] to
    [food_position] in a maze whose reachable part is finite, the planner
    returns (for every iteration budget above some bound) a move sequence
    that, applied one step at a time, is a legal route ending exactly on
    the goal and on no earlier step; this for every heuristic, the
    strictly positive ones included.  When the heuristic is the constant
    1 the sequence is as short as any legal route: its length is the
    shortest-path distance. *)
Theorem aStarSearch_finds_route (ag : Agent) (gs : GameState)
    (initial_position food_position : Pos) (cells : gset Pos) :
  (∀ p, reachable gs initial_position p → p ∈ cells) →
  reachable gs initial_position food_position →
  ∃ actions bound,
    (∀ fuel, (bound ≤ fuel)%nat →
       aStarSearch fuel ag initial_position (Some food_position) gs
       = Some (Found food_position actions))
    ∧ walk gs initial_position actions = Some food_position
    ∧ (∀ k, (k < length actions)%nat →
         walk gs initial_position (take k actions) ≠ Some food_position)
    ∧ ((∀ p, heuristic ag p gs = 1) →
         ∀ other, walk gs initial_position other = Some food_position →
           (length actions ≤ length other)%nat).
Proof.
  intros Hcells Hreach.
  destruct (astar_loop_correct ag gs initial_position food_position cells Hcells Hreach
              _ _ _ _ (search_inv_init ag gs initial_position food_position cells Hcells Hreach)
              eq_refl eq_refl)
    as (fuel & acts & Hrun & Hw & Hpre & Hopt).
  exists acts, fuel. split_and!; [|done|done|].
  - intros fuel' Hle. unfold aStarSearch. by eapply astar_loop_fuel_mono.
  - intros HU other Hother. by apply (Hopt HU).
Qed.

(** C2 on the closed room: from (6, 3) to (8, 5). *)
Lemma aStarSearch_finds_route_witness :
  let gs := attacker_board in
  ∃ actions bound,
    (∀ fuel, (bound ≤ fuel)%nat →
       aStarSearch fuel (AttackAgent.agent 0 true) (6, 3) (Some (8, 5)) gs
       = Some (Found (8, 5) actions))
    ∧ walk gs (6, 3) actions = Some (8, 5)
    ∧ (∀ k, (k < length actions)%nat → walk gs (6, 3) (take k actions) ≠ Some (8, 5))
    ∧ ((∀ p, heuristic (AttackAgent.agent 0 true) p gs = 1) →
         ∀ other, walk gs (6, 3) other = Some (8, 5) →
           (length actions ≤ length other)%nat).
Proof.
  apply (aStarSearch_finds_route (AttackAgent.agent 0 true) _ (6, 3) (8, 5)
           (list_to_set (Layout.open_cells (Layout.wall_grid Layout.room)))).
  - apply reachable_in_closed; vm_compute; reflexivity.
  - exists [East; East; North; North]. vm_compute. reflexivity.
Defined.

(** * Reasoning about agent computations *)

Section Frame.

Context {S : Type} (I : S → Prop).

Lemma preserves_ret {A} (a : A) : preserves I (mret a : M S A).
Proof. by intros s w. Qed.

Lemma preserves_raise {A} e : preserves I (raise e : M S A).
Proof. by intros s w. Qed.

Lemma preserves_get : preserves I (get : M S S).
Proof. by intros s w. Qed.

Lemma preserves_log m : preserves I (logging_info m : M S unit).
Proof. by intros s w. Qed.

Lemma preserves_or_raise {A} e (o : option A) : preserves I (or_raise e o : M S A).
Proof. intros s w. by destruct o. Qed.

Lemma preserves_as_pos o : preserves I (as_pos o : M S Pos).
Proof. apply preserves_or_raise. Qed.

Lemma preserves_unpack_pair r : preserves I (unpack_pair r : M S _).
Proof. intros s w. by destruct r. Qed.

Lemma preserves_lift {A} (m : Eff A) : preserves I (lift m : M S A).
Proof. intros s w. unfold lift, final. by destruct (m tt w) as [[o []] w']. Qed.

Lemma preserves_modify (f : S → S) : (∀ s, I s → I (f s)) → preserves I (modify f).
Proof. intros Hf s w. apply Hf. Qed.

Lemma preserves_bind {A B} (m : M S A) (k : A → M S B) :
  preserves I m → (∀ a, preserves I (k a)) → preserves I (m ≫= k).
Proof.
  intros Hm Hk s w Hs. specialize (Hm s w Hs).
  unfold mbind, M_bind, bind, final in *.
  destruct (m s w) as [[[a|e|] s'] w']; simpl in *; [|done..].
  by apply Hk.
Qed.

Lemma preserves_bind_as_pos {B} p (k : Pos → M S B) :
  preserves I (k p) → preserves I (as_pos (Some p) ≫= k).
Proof. intros Hk s w Hs. by apply Hk. Qed.

Lemma preserves_bind_as_pos_None {B} (k : Pos → M S B) :
  preserves I (as_pos None ≫= k).
Proof. by intros s w Hs. Qed.

Lemma preserves_for_each {A B} (f : B → A → M S B) b l :
  (∀ b a, preserves I (f b a)) → preserves I (for_each f b l).
Proof.
  intros Hf. revert b. induction l as [|x t IH]; intros b; simpl.
  - apply preserves_ret.
  - apply preserves_bind; [apply Hf|apply IH].
Qed.

End Frame.

Lemma hoare_bind_frame {S A B} (P Q : S → Prop) (m : M S A) (k : A → M S B) :
  preserves P m → (∀ a, hoare P (k a) Q) → (∀ s, P s → Q s) → hoare P (m ≫= k) Q.
Proof.
  intros Hm Hk HPQ s w Hs. specialize (Hm s w Hs).
  unfold mbind, M_bind, bind, final in *.
  destruct (m s w) as [[[a|e|] s'] w']; simpl in *; [by apply Hk|by apply HPQ..].
Qed.

Lemma hoare_frame {S A} (P Q : S → Prop) (m : M S A) :
  preserves P m → (∀ s, P s → Q s) → hoare P m Q.
Proof. intros Hm HPQ s w Hs. by apply HPQ, Hm. Qed.

(** Running the primitive steps. *)
Lemma run_bind {S A B} (m : M S A) (k : A → M S B) s w :
  (m ≫= k) s w
  = match m s w with
    | (Ok a, s', w') => k a s' w'
    | (Raise e, s', w') => (Raise e, s', w')
    | (OutOfFuel, s', w') => (OutOfFuel, s', w')
    end.
Proof. done. Qed.

Lemma final_lift {S A} (m : Eff A) (s : S) w : final (lift m s w) = s.
Proof. unfold lift, final. by destruct (m tt w) as [[o []] w']. Qed.

Section Run.

Context {S : Type}.

Lemma run_ret_bind {A B} (a : A) (k : A → M S B) s w : (mret a ≫= k) s w = k a s w.
Proof. done. Qed.

Lemma run_ret_bind' {A B} (a : A) (k : A → M S B) s w : (ret a ≫= k) s w = k a s w.
Proof. done. Qed.

Lemma run_or_raise_bind {A B} e (a : A) (k : A → M S B) s w :
  (or_raise e (Some a) ≫= k) s w = k a s w.
Proof. done. Qed.

Lemma run_get_bind {B} (k : S → M S B) s w : (get ≫= k) s w = k s s w.
Proof. done. Qed.

Lemma run_modify_bind {B} (f : S → S) (k : unit → M S B) s w :
  (modify f ≫= k) s w = k tt (f s) w.
Proof. done. Qed.

Lemma run_log_bind {B} m (k : unit → M S B) s w :
  (logging_info m ≫= k) s w = k tt s {| tape := tape w; trace := trace w ++ [m] |}.
Proof. done. Qed.

Lemma run_raise_bind {A B} e (k : A → M S B) s w :
  ((raise e : M S A) ≫= k) s w = (Raise e, s, w).
Proof. done. Qed.

Lemma run_as_pos_bind {B} p (k : Pos → M S B) s w : (as_pos (Some p) ≫= k) s w = k p s w.
Proof. done. Qed.

Lemma run_bind_assoc {A B C} (m : M S A) (k1 : A → M S B) (k2 : B → M S C) s w :
  ((m ≫= k1) ≫= k2) s w = (m ≫= λ a, k1 a ≫= k2) s w.
Proof.
  unfold mbind, M_bind, bind. by destruct (m s w) as [[[a|e|] s'] w'].
Qed.

Lemma run_lift_bind {A B} (m : Eff A) (k : A → M S B) s w :
  (lift m ≫= k) s w
  = match m tt w with
    | (Ok a, _, w') => k a s w'
    | (Raise e, _, w') => (Raise e, s, w')
    | (OutOfFuel, _, w') => (OutOfFuel, s, w')
    end.
Proof.
  unfold mbind, M_bind, bind, lift. by destruct (m tt w) as [[[a|e|] []] w'].
Qed.

Lemma run_modify (f : S → S) s w : modify f s w = (Ok tt, f s, w).
Proof. done. Qed.

Lemma run_ret {A} (a : A) (s : S) w : (mret a : M S A) s w = (Ok a, s, w).
Proof. done. Qed.

Lemma preserves_run {A} (I : S → Prop) (m : M S A) s w :
  preserves I m → I s → I (final (m s w)).
Proof. intros Hm. apply Hm. Qed.

End Run.

Global Hint Rewrite @run_ret_bind @run_ret_bind' @run_or_raise_bind @run_get_bind @run_modify_bind @run_log_bind
  @run_raise_bind @run_as_pos_bind @run_bind_assoc @run_modify @run_ret : run.

Create HintDb frame discriminated.

(** One step of a frame proof: follow the shape of the computation. *)
Ltac frame_step :=
  lazymatch goal with
  | |- preserves _ (mbind _ (as_pos (Some _))) => apply preserves_bind_as_pos
  | |- preserves _ (mbind _ (as_pos None)) => apply preserves_bind_as_pos_None
  | |- preserves _ (mbind _ _) => apply preserves_bind; [|intros ?]
  | |- preserves _ (mret _) => apply preserves_ret
  | |- preserves _ (raise _) => apply preserves_raise
  | |- preserves _ get => apply preserves_get
  | |- preserves _ (logging_info _) => apply preserves_log
  | |- preserves _ (or_raise _ _) => apply preserves_or_raise
  | |- preserves _ (as_pos _) => apply preserves_as_pos
  | |- preserves _ (unpack_pair _) => apply preserves_unpack_pair
  | |- preserves _ (lift _) => apply preserves_lift
  | |- preserves _ (for_each _ _ _) => apply preserves_for_each; intros ? ?
  | |- preserves _ (modify _) =>
      apply preserves_modify;
      first [ solve [eauto] | intros [] ?; simpl in *; solve [intuition (subst; auto)] ]
  | |- preserves _ (if ?c then _ else _) => destruct c eqn:?
  | |- preserves _ (match ?x with _ => _ end) => destruct x eqn:?
  | |- preserves _ _ => solve [eauto with frame]
  end.

Ltac frame := repeat frame_step.

(** * Which attributes each attacker method writes *)

Section AttackerFrame.

Import AttackAgent.

Variables (fuel : nat) (self : Agent).
Variable I : State → Prop.

Lemma get_fleeing_point_frame gs : preserves I (get_fleeing_point fuel self gs).
Proof. unfold get_fleeing_point. frame. Qed.

Lemma decide_action_return_frame gs : preserves I (decide_action_return fuel self gs).
Proof. unfold decide_action_return. frame. Qed.

Hypothesis I_last_fled_turn_checked : ∀ v s, I s → I (set_last_fled_turn_checked v s).

Lemma has_been_fleeing_too_much_frame gs :
  preserves I (has_been_fleeing_too_much self gs).
Proof. unfold has_been_fleeing_too_much. frame. Qed.

Hypothesis I_fleeing_point : ∀ v s, I s → I (set_fleeing_point v s).
Hypothesis I_turns_has_to_flee : ∀ v s, I s → I (set_turns_has_to_flee v s).

Lemma first_move_towards_frame goal gs : preserves I (first_move_towards fuel self goal gs).
Proof. unfold first_move_towards. frame. Qed.

Lemma attack_closest_food_frame gs : preserves I (attack_closest_food fuel self gs).
Proof. unfold attack_closest_food. frame. Qed.

Lemma mini_retreat_frame gs : preserves I (mini_retreat fuel self gs).
Proof.
  pose proof get_fleeing_point_frame. pose proof first_move_towards_frame.
  unfold mini_retreat. frame.
Qed.

Hypothesis I_has_fled : ∀ v s, I s → I (set_has_fled v s).

Lemma flee_frame gs d : preserves I (flee fuel self gs d).
Proof. unfold flee. frame. Qed.

Hypothesis I_already_randomized : ∀ v s, I s → I (set_already_randomized v s).
Hypothesis I_first_actions : ∀ v s, I s → I (set_first_actions v s).

Lemma decide_action_attack_frame gs : preserves I (decide_action_attack fuel self gs).
Proof.
  pose proof get_fleeing_point_frame. pose proof has_been_fleeing_too_much_frame.
  pose proof mini_retreat_frame. pose proof first_move_towards_frame.
  pose proof attack_closest_food_frame.
  unfold decide_action_attack. frame.
Qed.

Lemma decide_action_in_enemy_field_frame gs :
  preserves I (decide_action_in_enemy_field fuel self gs).
Proof.
  pose proof flee_frame. pose proof decide_action_attack_frame.
  unfold decide_action_in_enemy_field. frame.
Qed.

End AttackerFrame.

(** * Which attributes each defender method writes *)

Section DefenderFrame.

Import DefendAgent.

Variables (fuel : nat) (self : Agent).
Variable I : State → Prop.

Lemma pursue_frame enemy gs : preserves I (pursue fuel self enemy gs).
Proof. unfold pursue. frame. Qed.

Hypothesis I_last_patrolled_point : ∀ v s, I s → I (set_last_patrolled_point v s).

Lemma do_vertical_patrol_frame gs : preserves I (do_vertical_patrol fuel self gs).
Proof. unfold do_vertical_patrol. frame. Qed.

Lemma decide_action_enemy_close_in_our_field_frame enemy gs :
  preserves I (decide_action_enemy_close_in_our_field fuel self enemy gs).
Proof.
  pose proof pursue_frame. pose proof do_vertical_patrol_frame.
  unfold decide_action_enemy_close_in_our_field. frame.
Qed.

Hypothesis I_initial_goal : ∀ v s, I s → I (set_initial_goal v s).
Hypothesis I_initial_actions : ∀ v s, I s → I (set_initial_actions v s).
Hypothesis I_patrol_points : ∀ v1 v2 s, I s → I (set_patrol_points v1 v2 s).

Lemma calculate_patrol_points_frame gs : preserves I (calculate_patrol_points fuel self gs).
Proof. unfold calculate_patrol_points. frame. Qed.

End DefenderFrame.

(** * The power-up counters *)

Section AttackerCounters.

Import AttackAgent.

Variables (fuel : nat) (self : Agent).

(** What one run of the attacker's [update_counters] does to the power-up
    counter and to the remembered capsule count. *)
Lemma attacker_update_counters_capsule gs s w :
  let s' := final (update_counters self gs s w) in
  let seen := Z.of_nat (length (get_capsules self gs)) in
  (turns_with_capsule_effect s' = turns_with_capsule_effect s
   ∧ ¬ 0 < turns_with_capsule_effect s
   ∧ capsules_in_last_turn s' = capsules_in_last_turn s
   ∧ capsules_in_last_turn s ≤ seen)
  ∨ (turns_with_capsule_effect s' = turns_with_capsule_effect s - 1
     ∧ 0 < turns_with_capsule_effect s
     ∧ capsules_in_last_turn s' = capsules_in_last_turn s
     ∧ capsules_in_last_turn s ≤ seen)
  ∨ (turns_with_capsule_effect s' = CAPSULE_EFFECT_DURATION
     ∧ seen < capsules_in_last_turn s
     ∧ capsules_in_last_turn s' = seen).
Proof.
  intros s' seen. subst s' seen. unfold update_counters.
  set (keep v c := λ x : State, turns_with_capsule_effect x = v ∧ capsules_in_last_turn x = c).
  repeat (autorewrite with run; try case_decide);
    (match goal with
     | |- context [final (?m ?s1 ?w1)] =>
         destruct (preserves_run
                     (keep (turns_with_capsule_effect s1) (capsules_in_last_turn s1)) m s1 w1)
           as [Ht Hc]; [subst keep; frame|done|]
     end);
    rewrite Ht, Hc; destruct s; simpl in *; lia.
Qed.

(** The same over a whole turn: only [update_counters] writes the two
    attributes. *)
Lemma attacker_choose_action_capsule gs s w :
  let s' := final (choose_action fuel self gs s w) in
  let seen := Z.of_nat (length (get_capsules self gs)) in
  (turns_with_capsule_effect s' = turns_with_capsule_effect s
   ∧ ¬ 0 < turns_with_capsule_effect s
   ∧ capsules_in_last_turn s' = capsules_in_last_turn s
   ∧ capsules_in_last_turn s ≤ seen)
  ∨ (turns_with_capsule_effect s' = turns_with_capsule_effect s - 1
     ∧ 0 < turns_with_capsule_effect s
     ∧ capsules_in_last_turn s' = capsules_in_last_turn s
     ∧ capsules_in_last_turn s ≤ seen)
  ∨ (turns_with_capsule_effect s' = CAPSULE_EFFECT_DURATION
     ∧ seen < capsules_in_last_turn s
     ∧ capsules_in_last_turn s' = seen).
Proof.
  intros s' seen. subst s' seen.
  pose proof (attacker_update_counters_capsule gs s w) as Hupd. simpl in Hupd.
  unfold choose_action. rewrite run_bind.
  destruct (update_counters self gs s w) as [[[[]|e|] s1] w1]; [|exact Hupd..].
  unfold final in Hupd. simpl in Hupd.
  set (keep := λ x : State, turns_with_capsule_effect x = turns_with_capsule_effect s1
                            ∧ capsules_in_last_turn x = capsules_in_last_turn s1).
  match goal with
  | |- context [final (?m ?s1 ?w1)] =>
      destruct (preserves_run keep m s1 w1) as [Ht Hc]; [|done|]
  end.
  { pose proof (decide_action_return_frame fuel self keep).
    assert (preserves keep (decide_action_attack fuel self gs)) as Hatt
      by (apply decide_action_attack_frame; intros ? [] ?; done).
    assert (preserves keep (decide_action_in_enemy_field fuel self gs))
      by (apply decide_action_in_enemy_field_frame; intros ? [] ?; done).
    subst keep. frame. }
  rewrite Ht, Hc. exact Hupd.
Qed.

End AttackerCounters.

Section DefenderCounters.

Import DefendAgent.

Variables (fuel : nat) (self : Agent).

Lemma defender_update_counters_capsule gs s w :
  let s' := final (update_counters fuel self gs s w) in
  let seen := Z.of_nat (length (get_capsules_you_are_defending self gs)) in
  (turns_with_capsule_effect s' = turns_with_capsule_effect s
   ∧ capsules_in_last_turn s' = capsules_in_last_turn s)
  ∨ (turns_with_capsule_effect s' = turns_with_capsule_effect s - 1
     ∧ 0 < turns_with_capsule_effect s
     ∧ capsules_in_last_turn s' = capsules_in_last_turn s
     ∧ capsules_in_last_turn s ≤ seen)
  ∨ (turns_with_capsule_effect s' = CAPSULE_EFFECT_DURATION
     ∧ seen < capsules_in_last_turn s
     ∧ capsules_in_last_turn s' = seen).
Proof.
  intros s' seen. subst s' seen. unfold update_counters.
  set (keep := λ x : State, turns_with_capsule_effect x = turns_with_capsule_effect s
                            ∧ capsules_in_last_turn x = capsules_in_last_turn s).
  rewrite run_get_bind, run_bind.
  match goal with
  | |- context [final (match ?m s w with _ => _ end)] =>
      destruct (preserves_run keep m s w) as [Ht Hc]; [|done|];
      [|destruct (m s w) as [[[[]|e|] s1] w1]; unfold final in Ht, Hc; simpl in Ht, Hc;
        [|left; done..]]
  end.
  { destruct (initial_goal s); [apply preserves_ret|].
    apply calculate_patrol_points_frame; intros; destruct s0; done. }
  rewrite run_lift_bind.
  destruct (get_food_positions_ours self gs () w1) as [[[ours|e|] []] w2]; [|left; done..].
  rewrite run_get_bind.
  destruct (food_positions_in_last_turn s1) as [last|]; [|left; done].
  autorewrite with run.
  destruct (elements (last ∖ list_to_set ours)) as [|eaten rest]; autorewrite with run;
    repeat (case_decide; autorewrite with run); unfold final; simpl in *; lia.
Qed.

Lemma defender_choose_action_capsule gs s w :
  let s' := final (choose_action fuel self gs s w) in
  let seen := Z.of_nat (length (get_capsules_you_are_defending self gs)) in
  (turns_with_capsule_effect s' = turns_with_capsule_effect s
   ∧ capsules_in_last_turn s' = capsules_in_last_turn s)
  ∨ (turns_with_capsule_effect s' = turns_with_capsule_effect s - 1
     ∧ 0 < turns_with_capsule_effect s
     ∧ capsules_in_last_turn s' = capsules_in_last_turn s
     ∧ capsules_in_last_turn s ≤ seen)
  ∨ (turns_with_capsule_effect s' = CAPSULE_EFFECT_DURATION
     ∧ seen < capsules_in_last_turn s
     ∧ capsules_in_last_turn s' = seen).
Proof.
  intros s' seen. subst s' seen.
  pose proof (defender_update_counters_capsule gs s w) as Hupd. simpl in Hupd.
  unfold choose_action. rewrite run_bind.
  destruct (update_counters fuel self gs s w) as [[[[]|e|] s1] w1]; [|exact Hupd..].
  unfold final in Hupd. simpl in Hupd.
  set (keep := λ x : State, turns_with_capsule_effect x = turns_with_capsule_effect s1
                            ∧ capsules_in_last_turn x = capsules_in_last_turn s1).
  match goal with
  | |- context [final (?m ?s1 ?w1)] =>
      destruct (preserves_run keep m s1 w1) as [Ht Hc]; [|done|]
  end.
  { assert (∀ gs, preserves keep (do_vertical_patrol fuel self gs))
      by (intros; apply do_vertical_patrol_frame; intros ? [] ?; done).
    assert (∀ e gs, preserves keep (decide_action_enemy_close_in_our_field fuel self e gs))
      by (intros; apply decide_action_enemy_close_in_our_field_frame; intros ? [] ?; done).
    subst keep. frame. }
  rewrite Ht, Hc. exact Hupd.
Qed.

(** A turn whose [update_counters] returns leaves a remembered count
    that is at most the count just seen. *)
Lemma defender_update_counters_remembered gs s w :
  result (update_counters fuel self gs s w) = Ok () →
  capsules_in_last_turn (final (update_counters fuel self gs s w))
  ≤ Z.of_nat (length (get_capsules_you_are_defending self gs)).
Proof.
  unfold update_counters. rewrite run_get_bind, run_bind.
  match goal with
  | |- context [match ?m s w with _ => _ end] =>
      destruct (m s w) as [[[[]|e|] s1] w1]; [|done..]
  end.
  rewrite run_lift_bind.
  destruct (get_food_positions_ours self gs () w1) as [[[ours|e|] []] w2]; [|done..].
  rewrite run_get_bind.
  destruct (food_positions_in_last_turn s1) as [last|]; [|done].
  autorewrite with run.
  destruct (elements (last ∖ list_to_set ours)) as [|eaten rest]; autorewrite with run;
    repeat (case_decide; autorewrite with run); unfold final; simpl in *; lia.
Qed.

Lemma defender_choose_action_remembered gs s w a :
  result (choose_action fuel self gs s w) = Ok a →
  capsules_in_last_turn (final (choose_action fuel self gs s w))
  ≤ Z.of_nat (length (get_capsules_you_are_defending self gs)).
Proof.
  pose proof (defender_update_counters_remembered gs s w) as Hupd.
  unfold choose_action. rewrite run_bind.
  destruct (update_counters fuel self gs s w) as [[[[]|e|] s1] w1]; [|done..].
  intros _. specialize (Hupd eq_refl). unfold final in Hupd. simpl in Hupd.
  set (keep := λ x : State, capsules_in_last_turn x = capsules_in_last_turn s1).
  match goal with
  | |- context [final (?m ?s1 ?w1)] =>
      rewrite (preserves_run keep m s1 w1); [done| |done]
  end.
  assert (∀ gs, preserves keep (do_vertical_patrol fuel self gs))
    by (intros; apply do_vertical_patrol_frame; intros ? [] ?; done).
  assert (∀ e gs, preserves keep (decide_action_enemy_close_in_our_field fuel self e gs))
    by (intros; apply decide_action_enemy_close_in_our_field_frame; intros ? [] ?; done).
  subst keep. frame.
Qed.

End DefenderCounters.

Lemma attacker_counter_range fuel self s :
  attacker_reachable fuel self s →
  0 ≤ AttackAgent.turns_with_capsule_effect s ≤ AttackAgent.CAPSULE_EFFECT_DURATION.
Proof.
  induction 1 as [gs w|s gs w _ IH].
  - unfold AttackAgent.register_initial_state. rewrite run_lift_bind.
    destruct (get_food_positions_enemy self gs () w) as [[[foods|e|] []] w'];
      autorewrite with run; unfold final; simpl; unfold AttackAgent.CAPSULE_EFFECT_DURATION; lia.
  - pose proof (attacker_choose_action_capsule fuel self gs s w) as Hstep. simpl in Hstep.
    unfold AttackAgent.CAPSULE_EFFECT_DURATION in *. lia.
Qed.

Lemma defender_counter_range fuel self s :
  defender_reachable fuel self s →
  0 ≤ DefendAgent.turns_with_capsule_effect s ≤ DefendAgent.CAPSULE_EFFECT_DURATION.
Proof.
  induction 1 as [gs w|s gs w _ IH].
  - unfold DefendAgent.register_initial_state. rewrite run_lift_bind.
    destruct (get_food_positions_ours self gs () w) as [[[foods|e|] []] w'];
      autorewrite with run; unfold final; simpl; unfold DefendAgent.CAPSULE_EFFECT_DURATION; lia.
  - pose proof (defender_choose_action_capsule fuel self gs s w) as Hstep. simpl in Hstep.
    unfold DefendAgent.CAPSULE_EFFECT_DURATION in *. lia.
Qed.

(** Registration remembers the capsules it sees and starts the counter
    at 0; a registration cut short by an exception leaves the class
    defaults, a remembered count of 0. *)
Lemma attacker_registration_capsule self gs w :
  let r := AttackAgent.register_initial_state self gs AttackAgent.fresh w in
  let seen := Z.of_nat (length (get_capsules self gs)) in
  AttackAgent.turns_with_capsule_effect (final r) = 0
  ∧ AttackAgent.capsules_in_last_turn (final r) ≤ seen
  ∧ (result r = Ok () → AttackAgent.capsules_in_last_turn (final r) = seen).
Proof.
  intros r seen. subst r seen. unfold AttackAgent.register_initial_state.
  rewrite run_lift_bind.
  destruct (get_food_positions_enemy self gs () w) as [[[foods|e|] []] w'];
    autorewrite with run; unfold final, result; simpl; split_and!; try done; lia.
Qed.

Lemma defender_registration_capsule self gs w :
  let r := DefendAgent.register_initial_state self gs DefendAgent.fresh w in
  let seen := Z.of_nat (length (get_capsules_you_are_defending self gs)) in
  DefendAgent.turns_with_capsule_effect (final r) = 0
  ∧ DefendAgent.capsules_in_last_turn (final r) ≤ seen
  ∧ (result r = Ok () → DefendAgent.capsules_in_last_turn (final r) = seen).
Proof.
  intros r seen. subst r seen. unfold DefendAgent.register_initial_state.
  rewrite run_lift_bind.
  destruct (get_food_positions_ours self gs () w) as [[[foods|e|] []] w'];
    autorewrite with run; unfold final, result; simpl; split_and!; try done; lia.
Qed.

(** The remembered count never exceeds the count of the latest
    observation. *)
Lemma attacker_saw_remembered fuel self gs0 s :
  attacker_saw fuel self gs0 s →
  AttackAgent.capsules_in_last_turn s ≤ Z.of_nat (length (get_capsules self gs0)).
Proof.
  destruct 1 as [gs w|gs0 s gs w _].
  - apply attacker_registration_capsule.
  - pose proof (attacker_choose_action_capsule fuel self gs s w) as Hstep. simpl in Hstep.
    lia.
Qed.

Lemma defender_saw_remembered fuel self gs0 s :
  defender_saw fuel self gs0 s →
  DefendAgent.capsules_in_last_turn s
  ≤ Z.of_nat (length (get_capsules_you_are_defending self gs0)).
Proof.
  destruct 1 as [gs w|gs0 s gs w a _ Hret].
  - apply defender_registration_capsule.
  - by eapply defender_choose_action_remembered.
Qed.

(** C8. For both policies: in every reachable state the power-up counter
    lies between 0 and the role's duration constant (35 for the attacker,
    40 for the defender), so it is never negative; over one turn, from any
    state and however the turn ends, the counter stays equal, decreases by
    exactly 1, or is set to that constant, and the last happens only when
    the board shows strictly fewer capsules than the count remembered
    from the earlier observations, which is then replaced by the count
    just seen: the same disappearance cannot arm the counter twice.  The
    remembered count is the previous observation or less: registration
    starts the counter at 0 and remembers the count it sees (nothing more
    than that count, even when it is cut short); after a turn of the
    attacker, and after a turn of the defender that returns a move, the
    remembered count is at most the count seen on that turn.  So along a
    history, the first turn after registration included, the counter
    rises, or the remembered count changes, only on a turn whose board
    shows strictly fewer capsules than the board of the observation
    before. *)
Theorem power_up_counter_steps :
  (∀ fuel self s, attacker_reachable fuel self s →
     0 ≤ AttackAgent.turns_with_capsule_effect s ≤ AttackAgent.CAPSULE_EFFECT_DURATION)
  ∧ (∀ fuel self s, defender_reachable fuel self s →
     0 ≤ DefendAgent.turns_with_capsule_effect s ≤ DefendAgent.CAPSULE_EFFECT_DURATION)
  ∧ (∀ fuel self gs s w,
       let s' := final (AttackAgent.choose_action fuel self gs s w) in
       counter_step AttackAgent.CAPSULE_EFFECT_DURATION
         (Z.of_nat (length (get_capsules self gs)))
         (AttackAgent.turns_with_capsule_effect s) (AttackAgent.capsules_in_last_turn s)
         (AttackAgent.turns_with_capsule_effect s') (AttackAgent.capsules_in_last_turn s'))
  ∧ (∀ fuel self gs s w,
       let s' := final (DefendAgent.choose_action fuel self gs s w) in
       counter_step DefendAgent.CAPSULE_EFFECT_DURATION
         (Z.of_nat (length (get_capsules_you_are_defending self gs)))
         (DefendAgent.turns_with_capsule_effect s) (DefendAgent.capsules_in_last_turn s)
         (DefendAgent.turns_with_capsule_effect s') (DefendAgent.capsules_in_last_turn s'))
  ∧ (∀ fuel self gs s w,
       AttackAgent.capsules_in_last_turn
         (final (AttackAgent.choose_action fuel self gs s w))
       ≤ Z.of_nat (length (get_capsules self gs)))
  ∧ (∀ fuel self gs s w a,
       result (DefendAgent.choose_action fuel self gs s w) = Ok a →
       DefendAgent.capsules_in_last_turn
         (final (DefendAgent.choose_action fuel self gs s w))
       ≤ Z.of_nat (length (get_capsules_you_are_defending self gs)))
  ∧ (∀ self gs w,
       let r := AttackAgent.register_initial_state self gs AttackAgent.fresh w in
       let seen := Z.of_nat (length (get_capsules self gs)) in
       AttackAgent.turns_with_capsule_effect (final r) = 0
       ∧ AttackAgent.capsules_in_last_turn (final r) ≤ seen
       ∧ (result r = Ok () → AttackAgent.capsules_in_last_turn (final r) = seen))
  ∧ (∀ self gs w,
       let r := DefendAgent.register_initial_state self gs DefendAgent.fresh w in
       let seen := Z.of_nat (length (get_capsules_you_are_defending self gs)) in
       DefendAgent.turns_with_capsule_effect (final r) = 0
       ∧ DefendAgent.capsules_in_last_turn (final r) ≤ seen
       ∧ (result r = Ok () → DefendAgent.capsules_in_last_turn (final r) = seen))
  ∧ (∀ fuel self gs0 s gs w,
       attacker_saw fuel self gs0 s →
       let s' := final (AttackAgent.choose_action fuel self gs s w) in
       AttackAgent.turns_with_capsule_effect s < AttackAgent.turns_with_capsule_effect s'
       ∨ AttackAgent.capsules_in_last_turn s' ≠ AttackAgent.capsules_in_last_turn s →
       AttackAgent.turns_with_capsule_effect s' = AttackAgent.CAPSULE_EFFECT_DURATION
       ∧ AttackAgent.capsules_in_last_turn s' = Z.of_nat (length (get_capsules self gs))
       ∧ Z.of_nat (length (get_capsules self gs))
         < Z.of_nat (length (get_capsules self gs0)))
  ∧ (∀ fuel self gs0 s gs w,
       defender_saw fuel self gs0 s →
       let s' := final (DefendAgent.choose_action fuel self gs s w) in
       DefendAgent.turns_with_capsule_effect s < DefendAgent.turns_with_capsule_effect s'
       ∨ DefendAgent.capsules_in_last_turn s' ≠ DefendAgent.capsules_in_last_turn s →
       DefendAgent.turns_with_capsule_effect s' = DefendAgent.CAPSULE_EFFECT_DURATION
       ∧ DefendAgent.capsules_in_last_turn s'
         = Z.of_nat (length (get_capsules_you_are_defending self gs))
       ∧ Z.of_nat (length (get_capsules_you_are_defending self gs))
         < Z.of_nat (length (get_capsules_you_are_defending self gs0))).
Proof.
  split_and!.
  - apply attacker_counter_range.
  - apply defender_counter_range.
  - intros fuel self gs s w s'. subst s'.
    pose proof (attacker_choose_action_capsule fuel self gs s w) as Hstep. simpl in Hstep.
    unfold counter_step. intuition.
  - intros fuel self gs s w s'. subst s'.
    pose proof (defender_choose_action_capsule fuel self gs s w) as Hstep. simpl in Hstep.
    unfold counter_step. intuition.
  - intros fuel self gs s w.
    pose proof (attacker_choose_action_capsule fuel self gs s w) as Hstep. simpl in Hstep.
    lia.
  - intros fuel self gs s w a. apply defender_choose_action_remembered.
  - intros self gs w. apply attacker_registration_capsule.
  - intros self gs w. apply defender_registration_capsule.
  - intros fuel self gs0 s gs w Hsaw s' Hjump. subst s'.
    pose proof (attacker_saw_remembered fuel self gs0 s Hsaw) as Hlast.
    pose proof (attacker_choose_action_capsule fuel self gs s w) as Hstep. simpl in Hstep.
    lia.
  - intros fuel self gs0 s gs w Hsaw s' Hjump. subst s'.
    pose proof (defender_saw_remembered fuel self gs0 s Hsaw) as Hlast.
    pose proof (defender_choose_action_capsule fuel self gs s w) as Hstep. simpl in Hstep.
    lia.
Qed.

(** C8 along a history of each agent.  The attacker is registered on
    [capsule_board], which shows one capsule: it remembers 1 with the
    counter at 0.  Its first turn is on [attacker_board], where the
    capsule is gone: the counter is armed to 35 and 0 is remembered.  On
    a second turn on the same board nothing has disappeared: the counter
    steps down to 34.  The defender likewise: registered with one capsule
    to defend, it sees none on its first turn and arms its counter to 40,
    then steps down to 39. *)
Lemma power_up_counter_steps_witness :
  let self := AttackAgent.agent 0 true in
  let s0 := final (AttackAgent.register_initial_state self capsule_board
                     AttackAgent.fresh quiet_world) in
  let s1 := final (AttackAgent.choose_action 400 self attacker_board s0 quiet_world) in
  let s2 := final (AttackAgent.choose_action 400 self attacker_board s1 quiet_world) in
  let guard := DefendAgent.agent 0 true in
  let d0 := final (DefendAgent.register_initial_state guard (defended_capsule_board (4, 3))
                     DefendAgent.fresh quiet_world) in
  let d1 := final (DefendAgent.choose_action 400 guard (defender_board (4, 3)) d0
                     quiet_world) in
  let d2 := final (DefendAgent.choose_action 400 guard (defender_board (4, 3)) d1
                     quiet_world) in
  (AttackAgent.turns_with_capsule_effect s0 = 0 ∧ AttackAgent.capsules_in_last_turn s0 = 1)
  ∧ (AttackAgent.turns_with_capsule_effect s1 = 35 ∧ AttackAgent.capsules_in_last_turn s1 = 0)
  ∧ (AttackAgent.turns_with_capsule_effect s2 = 34 ∧ AttackAgent.capsules_in_last_turn s2 = 0)
  ∧ (AttackAgent.turns_with_capsule_effect s1 = AttackAgent.CAPSULE_EFFECT_DURATION
     ∧ AttackAgent.capsules_in_last_turn s1
       = Z.of_nat (length (get_capsules self attacker_board))
     ∧ Z.of_nat (length (get_capsules self attacker_board))
       < Z.of_nat (length (get_capsules self capsule_board)))
  ∧ 0 ≤ AttackAgent.turns_with_capsule_effect s2 ≤ AttackAgent.CAPSULE_EFFECT_DURATION
  ∧ (DefendAgent.turns_with_capsule_effect d0 = 0 ∧ DefendAgent.capsules_in_last_turn d0 = 1)
  ∧ (DefendAgent.turns_with_capsule_effect d1 = 40 ∧ DefendAgent.capsules_in_last_turn d1 = 0)
  ∧ (DefendAgent.turns_with_capsule_effect d2 = 39 ∧ DefendAgent.capsules_in_last_turn d2 = 0)
  ∧ (DefendAgent.turns_with_capsule_effect d1 = DefendAgent.CAPSULE_EFFECT_DURATION
     ∧ DefendAgent.capsules_in_last_turn d1
       = Z.of_nat (length (get_capsules_you_are_defending guard (defender_board (4, 3))))
     ∧ Z.of_nat (length (get_capsules_you_are_defending guard (defender_board (4, 3))))
       < Z.of_nat (length (get_capsules_you_are_defending guard
                             (defended_capsule_board (4, 3))))).
Proof.
  destruct power_up_counter_steps
    as (Hrange & _ & _ & _ & _ & _ & _ & _ & Hrise & Hrise_defender).
  split; [split; vm_compute; reflexivity|].
  split; [split; vm_compute; reflexivity|].
  split; [split; vm_compute; reflexivity|].
  split.
  { apply (Hrise 400%nat (AttackAgent.agent 0 true) capsule_board _ attacker_board quiet_world).
    - apply attacker_saw_registration.
    - left. vm_compute. reflexivity. }
  split.
  { apply (Hrange 400%nat (AttackAgent.agent 0 true)).
    apply attacker_turn, attacker_turn, attacker_registered. }
  split; [split; vm_compute; reflexivity|].
  split; [split; vm_compute; reflexivity|].
  split; [split; vm_compute; reflexivity|].
  apply (Hrise_defender 400%nat (DefendAgent.agent 0 true) (defended_capsule_board (4, 3)) _
           (defender_board (4, 3)) quiet_world).
  - apply defender_saw_registration.
  - left. vm_compute. reflexivity.
Defined.

(** * What a computation logs *)

Section Emits.

Context {S : Type} (P : LogMsg → Prop).

Lemma emits_silent {A} (m : M S A) :
  (∀ s w, world (m s w) = w) → emits P m.
Proof. intros Hm s w. exists []. rewrite Hm, app_nil_r. by split. Qed.

Lemma emits_ret {A} (a : A) : emits P (mret a : M S A).
Proof. by apply emits_silent. Qed.

Lemma emits_raise {A} e : emits P (raise e : M S A).
Proof. by apply emits_silent. Qed.

Lemma emits_get : emits P (get : M S S).
Proof. by apply emits_silent. Qed.

Lemma emits_modify f : emits P (modify f : M S unit).
Proof. by apply emits_silent. Qed.

Lemma emits_or_raise {A} e (o : option A) : emits P (or_raise e o : M S A).
Proof. apply emits_silent. intros s w. by destruct o. Qed.

Lemma emits_as_pos o : emits P (as_pos o : M S Pos).
Proof. apply emits_or_raise. Qed.

Lemma emits_or_out_of_fuel {A} (o : option A) : emits P (or_out_of_fuel o : M S A).
Proof. apply emits_silent. intros s w. by destruct o. Qed.

Lemma emits_unpack_pair r : emits P (unpack_pair r : M S _).
Proof. apply emits_silent. intros s w. by destruct r. Qed.

Lemma emits_random_choice {A} (l : list A) : emits P (random_choice l : M S A).
Proof.
  intros s w. exists []. rewrite app_nil_r. split; [|done].
  unfold random_choice, world. by destruct (l !! _).
Qed.

Lemma emits_log m : P m → emits P (logging_info m : M S unit).
Proof. intros Hm s w. exists [m]. split; [done|]. by constructor. Qed.

Lemma emits_bind {A B} (m : M S A) (k : A → M S B) :
  emits P m → (∀ a, emits P (k a)) → emits P (m ≫= k).
Proof.
  intros Hm Hk s w. destruct (Hm s w) as (l1 & H1 & HP1).
  unfold mbind, M_bind, bind, world in *.
  destruct (m s w) as [[[a|e|] s'] w']; simpl in *; [|by exists l1..].
  destruct (Hk a s' w') as (l2 & H2 & HP2). exists (l1 ++ l2). split.
  - unfold world in H2. rewrite H2, H1. by rewrite app_assoc.
  - by apply Forall_app.
Qed.

Lemma emits_for_each {A B} (f : B → A → M S B) b l :
  (∀ b a, emits P (f b a)) → emits P (for_each f b l).
Proof.
  intros Hf. revert b. induction l as [|x t IH]; intros b; simpl.
  - apply emits_ret.
  - apply emits_bind; [apply Hf|apply IH].
Qed.

End Emits.

Lemma emits_lift {S A} (P : LogMsg → Prop) (m : Eff A) :
  emits P m → emits P (lift m : M S A).
Proof.
  intros Hm s w. destruct (Hm tt w) as (l & Hl & HP). exists l. split; [|done].
  unfold lift, world in *. by destruct (m tt w) as [[o []] w'].
Qed.

Lemma logged_emits {S A} (P : LogMsg → Prop) (m : M S A) s w :
  emits P m → Forall P (logged w (m s w)).
Proof.
  intros Hm. destruct (Hm s w) as (l & Hl & HP). unfold logged.
  by rewrite Hl, drop_app_length.
Qed.

(** One step of a proof about the log: follow the shape of the computation. *)
Ltac emits_step :=
  lazymatch goal with
  | |- emits _ (mbind _ _) => apply emits_bind; [|intros ?]
  | |- emits _ (mret _) => apply emits_ret
  | |- emits _ (raise _) => apply emits_raise
  | |- emits _ get => apply emits_get
  | |- emits _ (modify _) => apply emits_modify
  | |- emits _ (logging_info _) => apply emits_log; try solve [simpl; auto]
  | |- emits _ (or_raise _ _) => apply emits_or_raise
  | |- emits _ (or_out_of_fuel _) => apply emits_or_out_of_fuel
  | |- emits _ (as_pos _) => apply emits_as_pos
  | |- emits _ (unpack_pair _) => apply emits_unpack_pair
  | |- emits _ (random_choice _) => apply emits_random_choice
  | |- emits _ (lift _) => apply emits_lift
  | |- emits _ (for_each _ _ _) => apply emits_for_each; intros ? ?
  | |- emits _ (if ?c then _ else _) => destruct c eqn:?
  | |- emits _ (match ?x with _ => _ end) => destruct x eqn:?
  | |- emits _ _ => solve [eauto]
  end.

Ltac emits_all := repeat emits_step.

Lemma search_emits P fuel ag start goal gs : emits P (search fuel ag start goal gs).
Proof. unfold search. emits_all. Qed.

Lemma logged_after_log {S A} (P : LogMsg → Prop) msg (k : unit → M S A) s w :
  emits P (k tt) →
  ∃ l, logged w ((logging_info msg ≫= k) s w) = msg :: l ∧ Forall P l.
Proof.
  intros Hk. rewrite run_log_bind.
  destruct (Hk s {| tape := tape w; trace := trace w ++ [msg] |}) as (l & Hl & HP).
  exists l. split; [|done]. unfold logged. rewrite Hl. simpl.
  by rewrite <- app_assoc, drop_app_length.
Qed.

(** * The defender facing an enemy in its own field *)

Section DefenderPursuit.

Import DefendAgent.

Variables (fuel : nat) (self : Agent).

Let quiet (m : LogMsg) : Prop := ¬ is_capsule_pursuit m ∧ ¬ is_patrol_fallback m.

Lemma pursue_quiet enemy gs : emits quiet (pursue fuel self enemy gs).
Proof. pose proof (search_emits quiet). unfold pursue. emits_all. Qed.

Lemma do_vertical_patrol_quiet gs : emits quiet (do_vertical_patrol fuel self gs).
Proof.
  pose proof (search_emits quiet). unfold do_vertical_patrol. emits_all.
  all: split; simpl; tauto.
Qed.

(** With the capsule effect running, the comparison of the remaining
    duration with the distance picks the branch. *)
Lemma defender_capsule_branch enemy gs s w here :
  turns_with_capsule_effect s ≠ 0 → get_our_position self gs = Some here →
  decide_action_enemy_close_in_our_field fuel self enemy gs s w
  = if decide (turns_with_capsule_effect s < get_maze_distance gs here enemy)
    then pursuit_branch fuel self enemy (get_maze_distance gs here enemy) gs s w
    else patrol_branch fuel self enemy (get_maze_distance gs here enemy) gs s w.
Proof.
  intros Ht Hhere. unfold decide_action_enemy_close_in_our_field, pursuit_branch, patrol_branch.
  rewrite !run_get_bind. rewrite decide_False by done. rewrite Hhere.
  rewrite run_as_pos_bind. by case_decide.
Qed.

Lemma pursuit_branch_logged enemy d gs s w :
  ∃ l, logged w (pursuit_branch fuel self enemy d gs s w)
       = LogPursuingCapsule enemy (turns_with_capsule_effect s) d :: l
       ∧ Forall quiet l.
Proof.
  unfold pursuit_branch. rewrite run_get_bind.
  apply logged_after_log, pursue_quiet.
Qed.

Lemma patrol_branch_logged enemy d gs s w :
  ∃ l, logged w (patrol_branch fuel self enemy d gs s w)
       = LogDoingPatrol enemy (turns_with_capsule_effect s) d :: l
       ∧ Forall quiet l.
Proof.
  unfold patrol_branch. rewrite run_get_bind.
  apply logged_after_log, do_vertical_patrol_quiet.
Qed.

Lemma quiet_no_pursuit l : Forall quiet l → ¬ Exists is_capsule_pursuit l.
Proof.
  intros Hq Hex. apply Exists_exists in Hex as (m & Hin & Hm).
  rewrite Forall_forall in Hq. by destruct (Hq m Hin).
Qed.

Lemma quiet_no_fallback l : Forall quiet l → ¬ Exists is_patrol_fallback l.
Proof.
  intros Hq Hex. apply Exists_exists in Hex as (m & Hin & Hm).
  rewrite Forall_forall in Hq. by destruct (Hq m Hin).
Qed.

End DefenderPursuit.

(** ** The two scenarios of the specification *)

(** C6 as the specification states it fails on the code.  With remaining
    duration 2 and the enemy at maze distance 5 the defender logs the
    pursuit and returns the first move of the route to the enemy; with
    remaining duration 6 and the enemy at distance 2 it logs the fallback
    and patrols towards (2, 1). *)
Lemma defender_scenarios_are_swapped :
  let near := DefendAgent.decide_action_enemy_close_in_our_field 200
                (DefendAgent.agent 0 true) (4, 3) (defender_board (4, 3))
                (defender_state 2) quiet_world in
  let far := DefendAgent.decide_action_enemy_close_in_our_field 200
               (DefendAgent.agent 0 true) (2, 2) (defender_board (2, 2))
               (defender_state 6) quiet_world in
  get_maze_distance (defender_board (4, 3)) (1, 1) (4, 3) = 5
  ∧ result near = Ok East
  ∧ logged quiet_world near = [LogPursuingCapsule (4, 3) 2 5]
  ∧ get_maze_distance (defender_board (2, 2)) (1, 1) (2, 2) = 2
  ∧ result far = Ok East
  ∧ logged quiet_world far = [LogDoingPatrol (2, 2) 6 2; LogPatrolling (2, 1)].
Proof. vm_compute. done. Qed.

(** C6, amended.  With the power-up effect active, remaining duration 2
    and the enemy at maze distance 5, the defender pursues and does not
    fall back to the patrol; with remaining duration 6 and the enemy at
    distance 2 it falls back to the vertical patrol and does not pursue. *)
Theorem defender_scenarios (fuel : nat) (self : Agent) (enemy_position here : Pos)
    (gs : GameState) (s : DefendAgent.State) (w : World) :
  get_our_position self gs = Some here →
  let duration := DefendAgent.turns_with_capsule_effect s in
  let distance := get_maze_distance gs here enemy_position in
  let r := DefendAgent.decide_action_enemy_close_in_our_field fuel self enemy_position gs s w in
  (duration = 2 → distance = 5 →
     r = pursuit_branch fuel self enemy_position 5 gs s w
     ∧ Exists is_capsule_pursuit (logged w r) ∧ ¬ Exists is_patrol_fallback (logged w r))
  ∧ (duration = 6 → distance = 2 →
     r = patrol_branch fuel self enemy_position 2 gs s w
     ∧ Exists is_patrol_fallback (logged w r) ∧ ¬ Exists is_capsule_pursuit (logged w r)).
Proof.
  intros Hhere duration distance r. subst duration distance r. split.
  - intros Hd Hdist.
    rewrite (defender_capsule_branch fuel self enemy_position gs s w here) by (done || lia).
    rewrite Hd, Hdist. rewrite decide_True by lia.
    destruct (pursuit_branch_logged fuel self enemy_position 5 gs s w) as (l & -> & Hq).
    split_and!; [done|by left|].
    intros [[]|Hex]%Exists_cons. by apply quiet_no_fallback in Hq.
  - intros Hd Hdist.
    rewrite (defender_capsule_branch fuel self enemy_position gs s w here) by (done || lia).
    rewrite Hd, Hdist. rewrite decide_False by lia.
    destruct (patrol_branch_logged fuel self enemy_position 2 gs s w) as (l & -> & Hq).
    split_and!; [done|by left|].
    intros [[]|Hex]%Exists_cons. by apply quiet_no_pursuit in Hq.
Qed.

Lemma defender_scenarios_witness :
  let r := DefendAgent.decide_action_enemy_close_in_our_field 200 (DefendAgent.agent 0 true)
             (4, 3) (defender_board (4, 3)) (defender_state 2) quiet_world in
  r = pursuit_branch 200 (DefendAgent.agent 0 true) (4, 3) 5
        (defender_board (4, 3)) (defender_state 2) quiet_world
  ∧ Exists is_capsule_pursuit (logged quiet_world r)
  ∧ ¬ Exists is_patrol_fallback (logged quiet_world r).
Proof.
  apply (proj1 (defender_scenarios 200 (DefendAgent.agent 0 true) (4, 3) (1, 1)
                  (defender_board (4, 3)) (defender_state 2) quiet_world eq_refl));
    reflexivity.
Defined.

(** * The attacker's queue of opening moves *)

Section AttackerQueue.

Import AttackAgent.

Variables (fuel : nat) (self : Agent).

(** [update_counters] leaves the queue or empties it. *)
Lemma attacker_update_counters_queue gs s w :
  already_randomized s = true →
  let s1 := final (update_counters self gs s w) in
  already_randomized s1 = true
  ∧ (first_actions s1 = first_actions s
     ∨ (first_actions s1 = []
        ∧ ∃ here, get_our_position self gs = Some here
                  ∧ (in_our_field self here gs = false
                     ∨ here = get_my_initial_position self gs))).
Proof.
  intros Har s1. subst s1.
  set (keep := λ x : State,
         already_randomized x = true
         ∧ (first_actions x = first_actions s
            ∨ (first_actions x = []
               ∧ ∃ here, get_our_position self gs = Some here
                         ∧ (in_our_field self here gs = false
                            ∨ here = get_my_initial_position self gs)))).
  apply (preserves_run keep); [|by split; [|left]].
  subst keep. unfold update_counters.
  destruct (get_our_position self gs) as [here|] eqn:Hhere; frame.
  - apply preserves_modify. intros [] [? ?]; simpl in *. split; [done|].
    right. split; [done|]. exists here. split; [done|by left].
  - apply preserves_modify. intros [] [? ?]; simpl in *. split; [done|].
    right. split; [done|]. exists here. split; [done|right].
    match goal with
    | H : _ && _ = true |- _ => apply andb_true_iff in H as [_ H];
        apply bool_decide_eq_true in H; by injection H
    end.
Qed.

(** Once the opening has been planned, [decide_action_attack] leaves the
    queue or takes its first move. *)
Lemma decide_action_attack_queue gs s w :
  already_randomized s = true →
  let s' := final (decide_action_attack fuel self gs s w) in
  already_randomized s' = true
  ∧ (first_actions s' = first_actions s ∨ ∃ a, first_actions s = a :: first_actions s').
Proof.
  intros Har s'. subst s'. unfold decide_action_attack.
  rewrite run_get_bind, Har, andb_false_r. autorewrite with run.
  destruct (first_actions s) as [|next rest] eqn:Hfa.
  - set (keep := λ x : State, first_actions x = [] ∧ already_randomized x = true).
    match goal with
    | |- context [final (?m s w)] => destruct (preserves_run keep m s w) as [H1 H2]
    end; [|done|by auto].
    assert (preserves keep (get_fleeing_point fuel self gs))
      by apply get_fleeing_point_frame.
    assert (preserves keep (has_been_fleeing_too_much self gs))
      by (apply has_been_fleeing_too_much_frame; intros ? [] ?; done).
    assert (preserves keep (mini_retreat fuel self gs))
      by (apply mini_retreat_frame; intros ? [] ?; done).
    pose proof (first_move_towards_frame fuel self keep).
    pose proof (attack_closest_food_frame fuel self keep).
    subst keep. frame.
  - autorewrite with run. rewrite final_lift. simpl. split; [done|]. right. by exists next.
Qed.

(** The same for the rest of a turn, after [update_counters]. *)
Lemma attacker_decision_queue gs s w :
  already_randomized s = true →
  let s' :=
    final ((s ← get;
            return_now ←
              (if decide (FOOD_EATEN_TO_RETURN < food_eaten s) then mret true
               else foods ← lift (get_food_positions_enemy self gs);
                    mret (bool_decide (length foods = 0%nat)));
            if return_now : bool then decide_action_return fuel self gs
            else
              here ← as_pos (get_our_position self gs);
              if in_our_field self here gs then decide_action_attack fuel self gs
              else decide_action_in_enemy_field fuel self gs) s w) in
  already_randomized s' = true
  ∧ (first_actions s' = first_actions s ∨ ∃ a, first_actions s = a :: first_actions s').
Proof.
  intros Har.
  set (P := λ x : State, first_actions x = first_actions s ∧ already_randomized x = true).
  set (Q := λ x : State, already_randomized x = true
            ∧ (first_actions x = first_actions s ∨ ∃ a, first_actions s = a :: first_actions x)).
  assert (∀ x, P x → Q x) as HPQ by (intros x [Hx ?]; unfold Q; rewrite Hx; auto).
  assert (hoare P (decide_action_attack fuel self gs) Q) as Hatt.
  { intros x w' [Hx1 Hx2]. unfold Q. rewrite <- Hx1.
    by apply decide_action_attack_queue. }
  assert (∀ d, preserves P (flee fuel self gs d)) as Hflee
    by (intros; apply flee_frame; intros ? [] ?; done).
  assert (preserves P (decide_action_return fuel self gs)) as Hret
    by apply decide_action_return_frame.
  simpl.
  match goal with
  | |- context [final (?m s w)] =>
      cut (hoare P m Q); [intros Hm; by apply (Hm s w)|]
  end.
  apply hoare_bind_frame; [subst P; frame| |done]. intros x.
  apply hoare_bind_frame; [subst P; frame| |done]. intros [|].
  { by apply hoare_frame. }
  apply hoare_bind_frame; [subst P; frame| |done]. intros here.
  destruct (in_our_field self here gs); [done|].
  unfold decide_action_in_enemy_field.
  apply hoare_bind_frame; [subst P; frame| |done]. intros x'.
  apply hoare_bind_frame; [subst P; frame| |done]. intros [d|]; [|done].
  by apply hoare_frame.
Qed.

End AttackerQueue.

(** C4 as the specification states it fails on the code: the queue is
    emptied on a turn on which the attacker is not on its spawn cell. *)
Lemma opening_queue_cleared_away_from_spawn :
  let s' := final (AttackAgent.choose_action 400 (AttackAgent.agent 0 true)
                     attacker_board attacker_in_opening quiet_world) in
  AttackAgent.already_randomized attacker_in_opening = true
  ∧ AttackAgent.first_actions attacker_in_opening = [East; East]
  ∧ AttackAgent.first_actions s' = []
  ∧ get_our_position (AttackAgent.agent 0 true) attacker_board = Some (6, 3)
  ∧ get_my_initial_position (AttackAgent.agent 0 true) attacker_board = (1, 1)
  ∧ in_our_field (AttackAgent.agent 0 true) (6, 3) attacker_board = false.
Proof. vm_compute. done. Qed.

(** C4, amended.  Once the opening has been planned, a turn leaves the
    queue unchanged, removes exactly one move from its front, or empties
    it; it is emptied other than by draining only on a turn on which the
    attacker is seen outside its own field or on its own spawn cell; it
    is never extended, and the flag that guards the planning stays set,
    so the opening is not planned again. *)
Theorem opening_queue_only_drained (fuel : nat) (self : Agent) (gs : GameState)
    (s : AttackAgent.State) (w : World) :
  AttackAgent.already_randomized s = true →
  let s' := final (AttackAgent.choose_action fuel self gs s w) in
  AttackAgent.already_randomized s' = true
  ∧ queue_step self gs (AttackAgent.first_actions s) (AttackAgent.first_actions s').
Proof.
  intros Har s'. subst s'.
  destruct (attacker_update_counters_queue self gs s w Har) as [Har1 Hq1].
  unfold AttackAgent.choose_action. rewrite run_bind.
  destruct (AttackAgent.update_counters self gs s w) as [[[[]|e|] s1] w1];
    unfold final in Har1, Hq1; simpl in Har1, Hq1.
  - destruct (attacker_decision_queue fuel self gs s1 w1 Har1) as [Har2 Hq2].
    split; [exact Har2|]. unfold queue_step.
    destruct Hq1 as [Heq|[Hnil Hc]], Hq2 as [Hsame|[a Hpop]].
    + left. congruence.
    + right; left. exists a. congruence.
    + right; right. split; [congruence|done].
    + congruence.
  - split; [done|]. unfold queue_step, final. simpl. tauto.
  - split; [done|]. unfold queue_step, final. simpl. tauto.
Qed.

Lemma opening_queue_only_drained_witness :
  let s' := final (AttackAgent.choose_action 400 (AttackAgent.agent 0 true)
                     attacker_board attacker_in_opening quiet_world) in
  AttackAgent.already_randomized s' = true
  ∧ queue_step (AttackAgent.agent 0 true) attacker_board
      (AttackAgent.first_actions attacker_in_opening) (AttackAgent.first_actions s').
Proof.
  apply (opening_queue_only_drained 400 (AttackAgent.agent 0 true) attacker_board
           attacker_in_opening quiet_world).
  reflexivity.
Defined.

(** * The scripted mini-retreat *)


Section MiniRetreat.

Import AttackAgent.

Variables (fuel : nat) (self : Agent).








End MiniRetreat.




(** * The collision filter on a concrete board *)

(** What does hold of the filter: a legal proposal whose cell keeps the
    distance is handed back unchanged. *)

Lemma move_inj p a a' q : move p a = Some q → move p a' = Some q → a = a'.
Proof.
  destruct p as [x y], a, a'; simpl; intros H1 H2; try done;
    rewrite <- H1 in H2; injection H2; intros; lia.
Qed.

Lemma py_remove_other {A} `{EqDecision A} (x y : A) l :
  y ∈ l → y ≠ x → y ∈ py_remove x l.
Proof.
  induction l as [|z l IH]; simpl; [done|].
  intros [->|Hin]%elem_of_cons Hne; case_decide; subst; try done.
  - left.
  - right. by apply IH.
Qed.

Lemma py_remove_subseteq {A} `{EqDecision A} (x y : A) l : y ∈ py_remove x l → y ∈ l.
Proof.
  induction l as [|z l IH]; simpl; [done|].
  case_decide; [by right|]. intros [->|Hin]%elem_of_cons; [left|right; by apply IH].
Qed.

Lemma remove_colliding_keeps gs enemy n i l y :
  y ∈ l → 2 ≤ get_maze_distance gs y.2 enemy → y ∈ remove_colliding gs enemy n i l.
Proof.
  revert i l. induction n as [|n IH]; intros i l Hin Hfar; simpl; [done|].
  destruct (l !! i) as [[a p]|]; [|done]. case_decide; [|by apply IH].
  apply IH; [|done]. apply py_remove_other; [done|].
  intros ->. simpl in Hfar. lia.
Qed.

Lemma remove_colliding_subseteq gs enemy n i l y :
  y ∈ remove_colliding gs enemy n i l → y ∈ l.
Proof.
  revert i l. induction n as [|n IH]; intros i l; simpl; [done|].
  destruct (l !! i) as [[a p]|]; [|done]. case_decide; [|by apply IH].
  intros Hin. by eapply py_remove_subseteq, IH.
Qed.

Lemma surviving_moves_keeps ag here gs y :
  y ∈ possible_actions_and_positions here (get_legal_actions gs (index ag)) →
  (∀ i enemy, i ∈ get_opponents ag gs → get_agent_position gs i = Some enemy →
     in_our_field ag enemy gs = false → 2 ≤ get_maze_distance gs y.2 enemy) →
  y ∈ surviving_moves ag here gs.
Proof.
  unfold surviving_moves.
  generalize (possible_actions_and_positions here (get_legal_actions gs (index ag))).
  induction (get_opponents ag gs) as [|i ops IH]; intros l Hin Hfar; simpl; [done|].
  apply IH; [|intros j enemy Hj; apply Hfar; by right].
  destruct (get_agent_position gs i) as [enemy|] eqn:Hpos; [|done].
  destruct (in_our_field ag enemy gs) eqn:Hfield; [done|]. simpl.
  apply remove_colliding_keeps; [done|]. eapply Hfar; [left|done..].
Qed.

Lemma surviving_moves_subseteq ag here gs y :
  y ∈ surviving_moves ag here gs →
  y ∈ possible_actions_and_positions here (get_legal_actions gs (index ag)).
Proof.
  unfold surviving_moves.
  generalize (possible_actions_and_positions here (get_legal_actions gs (index ag))).
  induction (get_opponents ag gs) as [|i ops IH]; intros l; simpl; [done|].
  intros Hin%IH.
  destruct (get_agent_position gs i) as [enemy|]; [|done].
  destruct (negb _); [|done]. by eapply remove_colliding_subseteq.
Qed.

Lemma avoid_enemy_collision_keeps_safe_proposal ag here a gs w :
  a ∈ get_legal_actions gs (index ag) → keeps_distance ag gs here a = true →
  avoid_enemy_collision ag (Some here) a gs () w = (Ok a, (), w).
Proof.
  intros Hlegal Hsafe. unfold keeps_distance in Hsafe.
  destruct (move here a) as [q|] eqn:Hmove; [|done].
  rewrite forallb_forall in Hsafe.
  assert ((a, q) ∈ surviving_moves ag here gs) as Hin.
  { apply surviving_moves_keeps.
    - unfold possible_actions_and_positions. apply list_elem_of_omap.
      exists a. by rewrite Hmove.
    - intros i enemy Hi Hpos Hfield. apply list_elem_of_In in Hi.
      specialize (Hsafe i Hi). rewrite Hpos, Hfield in Hsafe. simpl in Hsafe.
      by apply bool_decide_eq_true in Hsafe. }
  unfold avoid_enemy_collision. rewrite run_as_pos_bind, Hmove.
  rewrite decide_True by (destruct (surviving_moves ag here gs); [by apply elem_of_nil in Hin|simpl; lia]).
  rewrite run_or_raise_bind.
  destruct (list_find _ _) as [[i [a' p']]|] eqn:Hfind.
  - apply list_find_Some in Hfind as (Hi & Hp & _). subst p'.
    apply list_elem_of_lookup_2, surviving_moves_subseteq in Hi.
    unfold possible_actions_and_positions in Hi.
    apply list_elem_of_omap in Hi as (a'' & _ & Ha'').
    destruct (move here a'') as [q''|] eqn:Hmove''; simpl in Ha''; [|done].
    injection Ha'' as -> ->. by rewrite (move_inj here a a' q).
  - apply list_find_None in Hfind. rewrite Forall_forall in Hfind.
    apply list_elem_of_In in Hin. by destruct (Hfind _ Hin).
Qed.

(** C1 fails on the code.  On [collision_board] the moves West and South
    are legal and lead to cells at distance 3 from the enemy, East and
    North lead to cells at distance 1.  The loop that discards colliding
    moves removes East from the list it is iterating over, which makes
    the iteration skip North; North stays among the candidates.  Proposed
    North is returned as it is, and with East proposed the random pick
    may fall on North as well. *)
Theorem avoid_enemy_collision_returns_colliding_move :
  let self := AttackAgent.agent 0 true in
  get_legal_actions collision_board 0 = [West; Stop; East; North; South]
  ∧ keeps_distance self collision_board (6, 3) West = true
  ∧ keeps_distance self collision_board (6, 3) South = true
  ∧ keeps_distance self collision_board (6, 3) North = false
  ∧ surviving_moves self (6, 3) collision_board
    = [(West, (5, 3)); (North, (6, 4)); (South, (6, 2))]
  ∧ avoid_enemy_collision self (Some (6, 3)) North collision_board () quiet_world
    = (Ok North, (), quiet_world)
  ∧ result (avoid_enemy_collision self (Some (6, 3)) East collision_board ()
              {| tape := [1%nat]; trace := [] |})
    = Ok North.
Proof. vm_compute. done. Qed.

(** * The empty search result at the call sites *)

(** C3 fails on the code.  The planner does return its empty list when
    the frontier empties, but the call sites bind its result with a
    two-target assignment: on [pocket_board] the vertical patrol, the
    pursuit of an enemy, the attacker's return to its field, and the
    defender's whole first turn after registration all end with
    [ValueError] where the claim has a ['Stop'] move. *)
Theorem empty_search_result_is_unpacked :
  let defender := DefendAgent.agent 0 true in
  let attacker := AttackAgent.agent 0 true in
  let registered :=
    final (DefendAgent.register_initial_state defender pocket_board DefendAgent.fresh
             quiet_world) in
  aStarSearch 200 defender (1, 1) (Some (3, 2)) pocket_board = Some NoPath
  ∧ result (DefendAgent.do_vertical_patrol 200 defender pocket_board defender_on_patrol
              quiet_world) = Raise ValueError
  ∧ result (DefendAgent.pursue 200 defender (3, 3) pocket_board defender_on_patrol
              quiet_world) = Raise ValueError
  ∧ result (DefendAgent.choose_action 200 defender pocket_board registered quiet_world)
    = Raise ValueError
  ∧ get_closest_point_in_our_field attacker pocket_board () quiet_world
    = (Ok None, (), quiet_world)
  ∧ result (AttackAgent.decide_action_return 200 attacker pocket_board AttackAgent.fresh
              quiet_world) = Raise ValueError.
Proof. vm_compute. done. Qed.

(** * The food listing *)

Lemma for_each_pure {S A B} (f : B → A → M S B) (g : B → A → B) l :
  (∀ b a s w, a ∈ l → f b a s w = (Ok (g b a), s, w)) →
  ∀ b s w, for_each f b l s w = (Ok (foldl g b l), s, w).
Proof.
  induction l as [|x t IH]; intros Hf b s w; simpl; [done|].
  rewrite run_bind, Hf by left. apply IH. intros b' a s' w' Ha. apply Hf. by right.
Qed.

Lemma py_index_nonneg {A} (l : list A) i : 0 ≤ i → py_index l i = l !! Z.to_nat i.
Proof. intros Hi. unfold py_index. by rewrite decide_True. Qed.

Lemma grid_get_in_range width height g x y :
  rectangular width height g → 0 ≤ x < Z.of_nat width → 0 ≤ y < Z.of_nat height →
  ∃ b, grid_get g x y = Some b.
Proof.
  intros [Hw Hh] Hx Hy. unfold grid_get. rewrite py_index_nonneg by lia.
  destruct (lookup_lt_is_Some_2 g (Z.to_nat x)) as [col Hcol]; [lia|].
  rewrite Hcol. simpl. rewrite py_index_nonneg by lia.
  rewrite Forall_forall in Hh.
  assert (length col = height) as Hlen.
  { apply Hh. rewrite <- list_elem_of_In. by eapply list_elem_of_lookup_2. }
  destruct (lookup_lt_is_Some_2 col (Z.to_nat y)) as [b Hb]; [lia|]. eauto.
Qed.

Lemma food_at_in_range width height g p :
  rectangular width height g → food_at g p → p.1 < Z.of_nat width ∧ p.2 < Z.of_nat height.
Proof.
  intros [Hw Hh] (Hx & Hy & Hget). unfold grid_get in Hget.
  rewrite py_index_nonneg in Hget by done.
  destruct (g !! Z.to_nat p.1) as [col|] eqn:Hcol; simpl in Hget; [|done].
  rewrite py_index_nonneg in Hget by done.
  pose proof (lookup_lt_Some _ _ _ Hcol). pose proof (lookup_lt_Some _ _ _ Hget).
  rewrite Forall_forall in Hh.
  assert (length col = height) as Hlen.
  { apply Hh. rewrite <- list_elem_of_In. by eapply list_elem_of_lookup_2. }
  lia.
Qed.

Lemma scan_food_rectangular width height g w :
  rectangular width height g → (0 < width)%nat →
  scan_food g () w = (Ok (scan_fold g width height), (), w).
Proof.
  intros Hrect Hpos. pose proof Hrect as [Hw Hh]. unfold scan_food.
  rewrite py_index_nonneg by done.
  destruct (lookup_lt_is_Some_2 g (Z.to_nat 0)) as [col0 Hcol0]; [simpl; lia|].
  rewrite Hcol0. autorewrite with run.
  assert (length col0 = height) as ->.
  { rewrite Forall_forall in Hh. apply Hh. rewrite <- list_elem_of_In.
    by eapply list_elem_of_lookup_2. }
  rewrite Hw. unfold scan_fold. apply for_each_pure.
  intros acc j s' w' Hj. apply for_each_pure.
  intros acc' i s'' w'' Hi.
  apply elem_of_seqZ in Hj. apply elem_of_seqZ in Hi.
  destruct (grid_get_in_range width height g i j Hrect) as [b Hb]; [lia..|].
  rewrite Hb. autorewrite with run. by destruct b.
Qed.

Lemma elem_of_scan_row g j cols acc p :
  p ∈ foldl (λ acc i, if default false (grid_get g i j) then acc ++ [(i, j)] else acc) acc cols
  ↔ p ∈ acc ∨ (p.1 ∈ cols ∧ p.2 = j ∧ grid_get g p.1 p.2 = Some true).
Proof.
  revert acc. induction cols as [|i cols IH]; intros acc; simpl.
  - rewrite elem_of_nil. tauto.
  - rewrite IH, elem_of_cons. destruct p as [x y]. simpl.
    destruct (grid_get g i j) as [[|]|] eqn:Hget; simpl.
    + rewrite elem_of_app, list_elem_of_singleton. split.
      * intros [[?|[= -> ->]]|?]; [tauto|tauto|tauto].
      * intros [?|([->|?] & -> & ?)]; [tauto| |tauto]. left; right. done.
    + split; [tauto|]. intros [?|([->|?] & -> & ?)]; [tauto|congruence|tauto].
    + split; [tauto|]. intros [?|([->|?] & -> & ?)]; [tauto|congruence|tauto].
Qed.

Lemma elem_of_scan_rows g cols rows acc p :
  p ∈ foldl (λ acc j,
       foldl (λ acc i, if default false (grid_get g i j) then acc ++ [(i, j)] else acc)
             acc cols)
       acc rows
  ↔ p ∈ acc ∨ (p.1 ∈ cols ∧ p.2 ∈ rows ∧ grid_get g p.1 p.2 = Some true).
Proof.
  revert acc. induction rows as [|j rows IH]; intros acc; simpl.
  - rewrite elem_of_nil. tauto.
  - rewrite IH, elem_of_scan_row, elem_of_cons. tauto.
Qed.

Lemma elem_of_scan_fold width height g p :
  rectangular width height g →
  p ∈ scan_fold g width height
  ↔ food_at g p ∧ p.1 < Z.of_nat width - 1 ∧ p.2 < Z.of_nat height - 1.
Proof.
  intros Hrect. unfold scan_fold, py_range, food_at.
  rewrite elem_of_scan_rows, !elem_of_seqZ. split.
  - intros [Hnil|(? & ? & ?)]; [by apply elem_of_nil in Hnil|]. split_and!; (done || lia).
  - intros ((? & ? & ?) & ? & ?). right. split_and!; (done || lia).
Qed.

Lemma scan_fold_law width height g :
  rectangular width height g → scan_law width height g (scan_fold g width height).
Proof.
  intros Hrect.
  assert (none_on_last width height g → ∀ p, p ∈ scan_fold g width height ↔ food_at g p)
    as Hexact.
  { intros Hnone p. rewrite elem_of_scan_fold by done. split; [by intros [? _]|].
    intros Hfood. destruct (Hnone p Hfood).
    destruct (food_at_in_range width height g p Hrect Hfood). split; [done|lia]. }
  split_and!.
  - intros p. by apply elem_of_scan_fold.
  - split; [|exact Hexact]. intros Hall p Hfood.
    apply Hall, elem_of_scan_fold in Hfood as (_ & ? & ?); [lia|done].
  - intros walls Hlast Hoff. apply Hexact. intros p Hfood.
    destruct (food_at_in_range width height g p Hrect Hfood).
    pose proof Hfood as (? & ? & _). specialize (Hoff p Hfood).
    split; intros Heq;
      rewrite (Hlast p.1 p.2) in Hoff by (lia || auto); done.
Qed.

(** C10. On rectangular food grids of [width] columns and [height] rows,
    [get_food_positions_enemy] and [get_food_positions_ours] return the
    cells collected by a scan of the columns 0 to [width - 2] and the
    rows 0 to [height - 2], followed by the capsule positions.  The
    collected cells are exactly the food cells outside the last column
    and the last row; they are exactly all food cells if and only if no
    food lies in the last row or the last column, and that is the case
    when the last row and column of the maze are walls and food lies on
    open cells only. *)
Theorem food_positions_skip_last_row_and_column
    (ag : Agent) (gs : GameState) (width height : nat) :
  rectangular width height (get_food ag gs) →
  rectangular width height (get_food_you_are_defending ag gs) →
  (0 < width)%nat →
  ∃ enemy ours,
    (∀ w, get_food_positions_enemy ag gs () w = (Ok (enemy ++ get_capsules ag gs), (), w))
    ∧ (∀ w, get_food_positions_ours ag gs () w
            = (Ok (ours ++ get_capsules_you_are_defending ag gs), (), w))
    ∧ scan_law width height (get_food ag gs) enemy
    ∧ scan_law width height (get_food_you_are_defending ag gs) ours.
Proof.
  intros Henemy Hours Hpos.
  exists (scan_fold (get_food ag gs) width height),
         (scan_fold (get_food_you_are_defending ag gs) width height).
  split_and!.
  - intros w. unfold get_food_positions_enemy.
    by rewrite run_bind, (scan_food_rectangular width height).
  - intros w. unfold get_food_positions_ours.
    by rewrite run_bind, (scan_food_rectangular width height).
  - by apply scan_fold_law.
  - by apply scan_fold_law.
Qed.

Lemma food_positions_skip_last_row_and_column_witness :
  let ag := AttackAgent.agent 0 true in
  ∃ enemy ours,
    (∀ w, get_food_positions_enemy ag attacker_board () w
          = (Ok (enemy ++ get_capsules ag attacker_board), (), w))
    ∧ (∀ w, get_food_positions_ours ag attacker_board () w
            = (Ok (ours ++ get_capsules_you_are_defending ag attacker_board), (), w))
    ∧ scan_law 10 7 (get_food ag attacker_board) enemy
    ∧ scan_law 10 7 (get_food_you_are_defending ag attacker_board) ours.
Proof.
  apply (food_positions_skip_last_row_and_column (AttackAgent.agent 0 true)
           attacker_board 10 7).
  - split; [reflexivity|]. vm_compute. repeat constructor.
  - split; [reflexivity|]. vm_compute. repeat constructor.
  - lia.
Defined.

(** * The precondition of the collision filter *)

Section Triple.

Context {S : Type} (I : S → Prop).

Lemma triple_weaken {A} (m : M S A) (Φ Ψ : A → Prop) :
  triple I m Φ → (∀ a, Φ a → Ψ a) → triple I m Ψ.
Proof.
  intros Hm HΦ s w Hs. destruct (Hm s w Hs) as [H1 H2]. split; [done|].
  destruct (result (m s w)); auto.
Qed.

Lemma triple_ret {A} (a : A) : triple I (mret a : M S A) (λ x, x = a).
Proof. by intros s w Hs. Qed.

Lemma triple_raise {A} e (Φ : A → Prop) :
  e ≠ a_star_pos_unbound → triple I (raise e : M S A) Φ.
Proof. by intros He s w Hs. Qed.

Lemma triple_get : triple I (get : M S S) I.
Proof. by intros s w Hs. Qed.

Lemma triple_modify f : (∀ s, I s → I (f s)) → triple I (modify f) (λ _, True).
Proof. intros Hf s w Hs. split; [by apply Hf|done]. Qed.

Lemma triple_log m : triple I (logging_info m : M S unit) (λ _, True).
Proof. by intros s w Hs. Qed.

Lemma triple_or_raise {A} e (o : option A) :
  e ≠ a_star_pos_unbound → triple I (or_raise e o : M S A) (λ a, o = Some a).
Proof. intros He s w Hs. by destruct o. Qed.

Lemma triple_as_pos o : triple I (as_pos o : M S Pos) (λ a, o = Some a).
Proof. apply triple_or_raise. done. Qed.

Lemma triple_or_out_of_fuel {A} (o : option A) :
  triple I (or_out_of_fuel o : M S A) (λ a, o = Some a).
Proof. intros s w Hs. by destruct o. Qed.

Lemma triple_unpack_pair r :
  triple I (unpack_pair r : M S _) (λ pa, r = Found pa.1 pa.2).
Proof. intros s w Hs. by destruct r. Qed.

Lemma triple_random_choice {A} (l : list A) :
  triple I (random_choice l : M S A) (λ a, a ∈ l).
Proof.
  intros s w Hs. unfold random_choice, final, result.
  destruct (l !! _) eqn:Hl; simpl; [|done]. split; [done|].
  by eapply list_elem_of_lookup_2.
Qed.

Lemma triple_bind {A B} (m : M S A) (k : A → M S B) (Φ : A → Prop) (Ψ : B → Prop) :
  triple I m Φ → (∀ a, Φ a → triple I (k a) Ψ) → triple I (m ≫= k) Ψ.
Proof.
  intros Hm Hk s w Hs. destruct (Hm s w Hs) as [H1 H2].
  unfold mbind, M_bind, bind, final, result in *.
  destruct (m s w) as [[[a|e|] s'] w']; simpl in *; [|done..].
  by apply Hk.
Qed.

Lemma triple_for_each {A B} (f : B → A → M S B) (Ψ : B → Prop) b l :
  (∀ b a, Ψ b → triple I (f b a) Ψ) → Ψ b → triple I (for_each f b l) Ψ.
Proof.
  intros Hf. revert b. induction l as [|x t IH]; intros b Hb; simpl.
  - eapply triple_weaken; [apply triple_ret|]. by intros ? ->.
  - eapply triple_bind; [by apply Hf|]. intros b' Hb'. by apply IH.
Qed.

End Triple.

Lemma triple_lift {S A} (I : S → Prop) (m : Eff A) (Φ : A → Prop) :
  triple (λ _, True) m Φ → triple I (lift m : M S A) Φ.
Proof.
  intros Hm s w Hs. destruct (Hm tt w Logic.I) as [_ H2].
  unfold lift, final, result in *. by destruct (m tt w) as [[o []] w'].
Qed.

(** One step of a proof that a computation runs without the exception. *)
Ltac triple_step :=
  lazymatch goal with
  | |- triple _ (mbind _ get) _ => eapply triple_bind; [apply triple_get|intros ? ?]
  | |- triple _ (mbind _ (or_raise _ _)) _ =>
      eapply triple_bind; [apply triple_or_raise; discriminate|intros ? ?]
  | |- triple _ (mbind _ (as_pos _)) _ =>
      eapply triple_bind; [apply triple_as_pos|intros ? ?]
  | |- triple _ (mbind _ (unpack_pair _)) _ =>
      eapply triple_bind; [apply triple_unpack_pair|intros [? ?] ?]
  | |- triple _ (mbind _ (random_choice _)) _ =>
      eapply triple_bind; [apply triple_random_choice|intros ? ?]
  | |- triple _ (mbind _ _) _ =>
      first [ eapply triple_bind; [solve [eauto]|intros ? ?]
            | apply (triple_bind _ _ _ (λ _, True)); [|intros ? _] ]
  | |- triple _ (mret _) _ =>
      eapply triple_weaken; [apply triple_ret|by intros ? ->]
  | |- triple _ (raise _) _ => apply triple_raise; discriminate
  | |- triple _ get _ => eapply triple_weaken; [apply triple_get|done]
  | |- triple _ (logging_info _) _ => apply triple_log
  | |- triple _ (or_raise _ _) _ =>
      eapply triple_weaken; [apply triple_or_raise; discriminate|done]
  | |- triple _ (as_pos _) _ => eapply triple_weaken; [apply triple_as_pos|done]
  | |- triple _ (or_out_of_fuel _) _ =>
      eapply triple_weaken; [apply triple_or_out_of_fuel|done]
  | |- triple _ (unpack_pair _) _ => eapply triple_weaken; [apply triple_unpack_pair|done]
  | |- triple _ (random_choice _) _ =>
      eapply triple_weaken; [apply triple_random_choice|done]
  | |- triple _ (for_each _ _ _) _ =>
      apply (triple_for_each _ _ (λ _, True)); [intros ? ? _|done]
  | |- triple _ (modify _) _ =>
      eapply triple_weaken;
      [apply triple_modify; first [solve [eauto] | intros ? Hs; exact Hs]|done]
  | |- triple _ (lift _) _ => first [solve [eauto] | apply triple_lift]
  | |- triple _ (if ?c then _ else _) _ => destruct c eqn:?
  | |- triple _ (match ?x with _ => _ end) _ => destruct x eqn:?
  | |- triple _ ((match ?x with _ => _ end) _) _ => destruct x eqn:?
  | |- triple _ _ _ => solve [eauto]
  end.

Ltac triple_all := repeat triple_step.

Section SharedSafe.

Variables (ag : Agent) (gs : GameState).

Let T : unit → Prop := λ _, True.

Lemma scan_food_safe g : quiet_run T (scan_food g).
Proof. unfold scan_food. triple_all. Qed.

Lemma get_food_positions_enemy_safe : quiet_run T (get_food_positions_enemy ag gs).
Proof. pose proof scan_food_safe. unfold get_food_positions_enemy. triple_all. Qed.

Lemma get_food_positions_ours_safe : quiet_run T (get_food_positions_ours ag gs).
Proof. pose proof scan_food_safe. unfold get_food_positions_ours. triple_all. Qed.

Lemma get_initial_enemy_position_safe : quiet_run T (get_initial_enemy_position ag gs).
Proof. unfold get_initial_enemy_position. triple_all. Qed.

Lemma get_closest_point_in_our_field_safe :
  quiet_run T (get_closest_point_in_our_field ag gs).
Proof. unfold get_closest_point_in_our_field. triple_all. Qed.

Lemma get_column_slice_safe col offset : quiet_run T (get_column_slice col gs offset).
Proof. unfold get_column_slice. triple_all. Qed.

End SharedSafe.

Lemma cardinal_head (acts : list Action) a :
  Forall cardinal acts → py_index acts 0 = Some a → cardinal a.
Proof.
  intros Hall Ha. rewrite py_index_nonneg in Ha by done.
  rewrite Forall_forall in Hall. apply Hall.
  rewrite <- list_elem_of_In. by eapply list_elem_of_lookup_2.
Qed.

Section PlannerSafe.

Variables (fuel : nat) (ag : Agent) (gs : GameState).

Let T : unit → Prop := λ _, True.

Lemma search_cardinal start goal :
  triple T (search fuel ag start goal gs)
    (λ r, ∀ p acts, r = Found p acts → Forall cardinal acts).
Proof.
  unfold search. eapply triple_bind; [apply triple_as_pos|]. intros st _.
  eapply triple_weaken; [apply triple_or_out_of_fuel|].
  intros r Hr p acts ->. by eapply aStarSearch_cardinal.
Qed.

Lemma a_star_to_food_position_cardinal food_positions_function randomize
    initial_position_function :
  quiet_run T (food_positions_function ag gs) →
  (∀ f, initial_position_function = Some f → quiet_run T (f ag gs)) →
  triple T (a_star_to_food_position fuel ag gs food_positions_function randomize
              initial_position_function)
    (λ pa, Forall cardinal pa.2).
Proof.
  intros Hfood Hinit. unfold a_star_to_food_position.
  apply (triple_bind _ _ _ (λ _, True)).
  { destruct initial_position_function as [f|]; [|triple_all].
    specialize (Hinit f eq_refl). triple_all. }
  intros initial_position _.
  apply (triple_bind _ _ _ (λ _, True)); [done|]. intros foods _.
  apply (triple_bind _ _ _ (λ _, True)); [triple_all|]. intros distances_array _.
  apply (triple_bind _ _ _ (λ _, True)); [triple_all|]. intros [d min_food_position] _.
  eapply triple_bind; [apply search_cardinal|]. intros r Hr.
  eapply triple_weaken; [apply triple_unpack_pair|].
  intros [p acts] Hpa. simpl in *. by eapply Hr.
Qed.

(** With a cardinal proposal the filter never reads an unbound name. *)
Lemma avoid_enemy_collision_safe current_pos next_action :
  cardinal next_action →
  quiet_run T (avoid_enemy_collision ag current_pos next_action gs).
Proof.
  intros Hcard. unfold avoid_enemy_collision.
  eapply triple_bind; [apply triple_as_pos|]. intros here _.
  destruct (move here next_action) as [q|] eqn:Hmove.
  - case_decide; [|triple_all]. simpl.
    eapply triple_bind; [apply triple_ret|]. intros q' ->. triple_all.
  - destruct here, next_action; done.
Qed.

End PlannerSafe.

Lemma avoid_enemy_collision_total ag here a gs w :
  cardinal a →
  ∃ a' w', avoid_enemy_collision ag (Some here) a gs () w = (Ok a', (), w').
Proof.
  intros Hcard. unfold avoid_enemy_collision. rewrite run_as_pos_bind.
  destruct (move here a) as [q|] eqn:Hmove; [|by destruct here, a].
  case_decide as Hlen; [|by eexists _, _].
  rewrite run_or_raise_bind.
  destruct (list_find _ _) as [[i [a' p']]|]; [by eexists _, _|].
  rewrite run_bind. unfold random_choice.
  set (r := match tape w with [] => 0%nat | n :: _ => n end).
  destruct (lookup_lt_is_Some_2 (surviving_moves ag here gs)
              (r mod length (surviving_moves ag here gs))) as [[a' p'] Hpick].
  { apply Nat.mod_upper_bound. lia. }
  rewrite Hpick. autorewrite with run. by eexists _, _.
Qed.

Lemma avoid_enemy_collision_stop ag here gs w :
  avoid_enemy_collision ag (Some here) Stop gs () w
  = if decide (surviving_moves ag here gs = [])
    then (Ok Stop, (), w) else (Raise a_star_pos_unbound, (), w).
Proof.
  unfold avoid_enemy_collision. rewrite run_as_pos_bind.
  assert (move here Stop = None) as -> by (by destruct here).
  destruct (surviving_moves ag here gs) as [|x l]; [done|].
  rewrite decide_True by (simpl; lia). by rewrite decide_False.
Qed.

Section AttackerSafe.

Import AttackAgent.

Variables (fuel : nat) (self : Agent).

Let T : unit → Prop := λ _, True.

Lemma search_lift_cardinal gs start goal :
  triple cardinal_queue (lift (search fuel self start goal gs))
    (λ r, ∀ p acts, r = Found p acts → Forall cardinal acts).
Proof. apply triple_lift, search_cardinal. Qed.

Lemma food_search_lift_cardinal gs randomize :
  triple cardinal_queue
    (lift (a_star_to_food_position fuel self gs get_food_positions_enemy randomize None))
    (λ pa, Forall cardinal pa.2).
Proof.
  apply triple_lift, a_star_to_food_position_cardinal; [|done].
  apply get_food_positions_enemy_safe.
Qed.

Lemma avoid_lift_safe gs pos acts a :
  Forall cardinal acts → py_index acts 0 = Some a →
  quiet_run cardinal_queue (lift (avoid_enemy_collision self pos a gs)).
Proof.
  intros Hall Ha. apply triple_lift, avoid_enemy_collision_safe.
  by eapply cardinal_head.
Qed.

Lemma get_fleeing_point_safe gs : quiet_run cardinal_queue (get_fleeing_point fuel self gs).
Proof.
  unfold get_fleeing_point.
  apply (triple_bind _ _ _ (λ _, True)).
  { eapply triple_weaken; [|done].
    apply triple_lift, a_star_to_food_position_cardinal.
    - apply get_food_positions_ours_safe.
    - intros f [= <-]. apply get_initial_enemy_position_safe. }
  intros [[x y] acts] _.
  pose proof (get_column_slice_safe gs). triple_all.
Qed.

Lemma first_move_towards_safe goal gs :
  quiet_run cardinal_queue (first_move_towards fuel self goal gs).
Proof. pose proof search_lift_cardinal. unfold first_move_towards. triple_all. Qed.

Lemma has_been_fleeing_too_much_safe gs :
  quiet_run cardinal_queue (has_been_fleeing_too_much self gs).
Proof. unfold has_been_fleeing_too_much. triple_all. Qed.

Lemma mini_retreat_safe gs : quiet_run cardinal_queue (mini_retreat fuel self gs).
Proof.
  pose proof get_fleeing_point_safe. pose proof first_move_towards_safe.
  pose proof (get_food_positions_ours_safe self gs).
  unfold mini_retreat. triple_all.
Qed.

Lemma attack_closest_food_safe gs :
  quiet_run cardinal_queue (attack_closest_food fuel self gs).
Proof.
  unfold attack_closest_food.
  eapply triple_bind; [apply food_search_lift_cardinal|]. intros [dest acts] Hacts.
  apply (triple_bind _ _ _ (λ _, True)); [apply triple_log|]. intros _ _.
  eapply triple_bind; [apply triple_or_raise; discriminate|]. intros a Ha.
  by eapply avoid_lift_safe.
Qed.

Lemma flee_safe gs d : quiet_run cardinal_queue (flee fuel self gs d).
Proof.
  unfold flee.
  apply (triple_bind _ _ _ (λ _, True)).
  { apply triple_lift, get_closest_point_in_our_field_safe. }
  intros flee_point _.
  apply (triple_bind _ _ _ (λ _, True)); [apply triple_log|]. intros _ _.
  apply (triple_bind _ _ _ (λ _, True)).
  { apply triple_modify. intros s Hs. exact Hs. }
  intros _ _.
  eapply triple_bind; [apply search_lift_cardinal|]. intros r Hr.
  eapply triple_bind; [apply triple_unpack_pair|]. intros [p acts] Hpa.
  eapply triple_bind; [apply triple_or_raise; discriminate|]. intros a Ha.
  eapply avoid_lift_safe; [|exact Ha]. by eapply Hr.
Qed.

Lemma decide_action_return_safe gs :
  quiet_run cardinal_queue (decide_action_return fuel self gs).
Proof.
  unfold decide_action_return.
  apply (triple_bind _ _ _ (λ _, True)).
  { apply triple_lift, get_closest_point_in_our_field_safe. }
  intros closest _.
  eapply triple_bind; [apply search_lift_cardinal|]. intros r Hr.
  eapply triple_bind; [apply triple_unpack_pair|]. intros [p acts] Hpa.
  apply (triple_bind _ _ _ (λ _, True)); [triple_all|]. intros has_to_flee _.
  apply (triple_bind _ _ _ (λ _, True)).
  { pose proof (get_food_positions_enemy_safe self gs). triple_all. }
  intros [next_action|] _; [triple_all|].
  apply (triple_bind _ _ _ (λ _, True)); [apply triple_log|]. intros _ _.
  case_decide; [triple_all|].
  eapply triple_bind; [apply triple_or_raise; discriminate|]. intros a Ha.
  eapply avoid_lift_safe; [|exact Ha]. by eapply Hr.
Qed.

Lemma decide_action_attack_safe gs :
  quiet_run cardinal_queue (decide_action_attack fuel self gs).
Proof.
  unfold decide_action_attack.
  eapply triple_bind; [apply triple_get|]. intros s0 Hs0.
  apply (triple_bind _ _ _ (λ _, True)).
  { destruct (_ && _); [|triple_all].
    apply (triple_bind _ _ _ (λ _, True)).
    { apply triple_modify. intros s Hs. exact Hs. }
    intros _ _.
    eapply triple_bind; [apply food_search_lift_cardinal|]. intros [dest acts] Hacts.
    apply (triple_bind _ _ _ (λ _, True)); [|intros; triple_all].
    apply triple_modify. intros s Hs. exact Hacts. }
  intros _ _.
  eapply triple_bind; [apply triple_get|]. intros s1 Hs1.
  destruct (first_actions s1) as [|next rest] eqn:Hfa.
  - pose proof get_fleeing_point_safe. pose proof first_move_towards_safe.
    pose proof has_been_fleeing_too_much_safe. pose proof mini_retreat_safe.
    pose proof attack_closest_food_safe.
    triple_all.
  - unfold cardinal_queue in Hs1. rewrite Hfa in Hs1.
    inversion Hs1 as [|? ? Hnext Hrest]; subst.
    apply (triple_bind _ _ _ (λ _, True)).
    { apply triple_modify. intros s Hs. exact Hrest. }
    intros _ _. by apply triple_lift, avoid_enemy_collision_safe.
Qed.

Lemma decide_action_in_enemy_field_safe gs :
  quiet_run cardinal_queue (decide_action_in_enemy_field fuel self gs).
Proof.
  pose proof flee_safe. pose proof decide_action_attack_safe.
  unfold decide_action_in_enemy_field. triple_all.
Qed.

Lemma update_counters_safe gs : quiet_run cardinal_queue (update_counters self gs).
Proof.
  pose proof (get_food_positions_enemy_safe self gs).
  unfold update_counters. triple_all.
  all: eapply triple_weaken; [apply triple_modify|done]; intros; constructor.
Qed.

Lemma choose_action_safe gs : quiet_run cardinal_queue (choose_action fuel self gs).
Proof.
  pose proof update_counters_safe. pose proof decide_action_return_safe.
  pose proof decide_action_attack_safe. pose proof decide_action_in_enemy_field_safe.
  pose proof (get_food_positions_enemy_safe self gs).
  unfold choose_action. triple_all.
Qed.

Lemma register_initial_state_safe gs :
  quiet_run cardinal_queue (register_initial_state self gs).
Proof.
  pose proof (get_food_positions_enemy_safe self gs).
  unfold register_initial_state. triple_all.
Qed.

Lemma attacker_reachable_cardinal_queue s :
  attacker_reachable fuel self s → cardinal_queue s.
Proof.
  induction 1 as [gs w|s gs w _ IH].
  - apply register_initial_state_safe. constructor.
  - by apply choose_action_safe.
Qed.

End AttackerSafe.

(** A legal move that keeps the distance survives the filter. *)
Lemma safe_move_survives ag here a gs :
  a ∈ get_legal_actions gs (index ag) → keeps_distance ag gs here a = true →
  ∃ q, move here a = Some q ∧ (a, q) ∈ surviving_moves ag here gs.
Proof.
  intros Hlegal Hsafe. unfold keeps_distance in Hsafe.
  destruct (move here a) as [q|] eqn:Hmove; [|done].
  rewrite forallb_forall in Hsafe. exists q. split; [done|].
  apply surviving_moves_keeps.
  - unfold possible_actions_and_positions. apply list_elem_of_omap.
    exists a. by rewrite Hmove.
  - intros i enemy Hi Hpos Hfield. apply list_elem_of_In in Hi.
    specialize (Hsafe i Hi). rewrite Hpos, Hfield in Hsafe. simpl in Hsafe.
    by apply bool_decide_eq_true in Hsafe.
Qed.

(** C9 as the specification states it fails on the code: a ['Stop']
    proposal does not always reach the error.  At the dead end of
    [dead_end_board] the only cardinal move, East, leads next to the
    enemy and is discarded; with no candidate left the filter takes its
    last line, [return next_action], before the unbound name is read, and
    hands ['Stop'] back. *)
Lemma stop_proposal_returned_at_dead_end :
  let self := AttackAgent.agent 0 true in
  get_legal_actions dead_end_board 0 = [Stop; East]
  ∧ get_maze_distance dead_end_board (2, 1) (3, 1) = 1
  ∧ in_our_field self (3, 1) dead_end_board = false
  ∧ surviving_moves self (1, 1) dead_end_board = []
  ∧ avoid_enemy_collision self (Some (1, 1)) Stop dead_end_board () quiet_world
    = (Ok Stop, (), quiet_world).
Proof. vm_compute. done. Qed.

(** C9, amended.  [avoid_enemy_collision] returns a move whenever the
    proposed move is one of North, South, East, West.  With ['Stop']
    proposed the name [a_star_pos] is never bound: the call raises
    [UnboundLocalError] exactly when a candidate move survives the filter,
    and with none left it hands ['Stop'] back without reading the name.
    A candidate survives, and the call raises, whenever some legal move
    leads to a cell at maze distance 2 or more from every visible enemy
    outside our field.  The planner only emits cardinal moves, so the
    head of a planned sequence is cardinal; in every reachable state of
    the attacker (the only caller of the filter) the queued opening moves
    are cardinal and no turn ends with that exception. *)
Theorem avoid_enemy_collision_precondition :
  (∀ ag here a gs w, cardinal a →
     ∃ a' w', avoid_enemy_collision ag (Some here) a gs () w = (Ok a', (), w'))
  ∧ (∀ ag here gs w,
       avoid_enemy_collision ag (Some here) Stop gs () w
       = if decide (surviving_moves ag here gs = [])
         then (Ok Stop, (), w) else (Raise a_star_pos_unbound, (), w))
  ∧ (∀ ag here a gs w,
       a ∈ get_legal_actions gs (index ag) → keeps_distance ag gs here a = true →
       avoid_enemy_collision ag (Some here) Stop gs () w
       = (Raise a_star_pos_unbound, (), w))
  ∧ (∀ fuel ag start goal gs p acts,
       aStarSearch fuel ag start goal gs = Some (Found p acts) →
       Forall cardinal acts ∧ ∀ a, py_index acts 0 = Some a → cardinal a)
  ∧ (∀ fuel self s, attacker_reachable fuel self s →
       cardinal_queue s
       ∧ ∀ gs w, result (AttackAgent.choose_action fuel self gs s w)
                 ≠ Raise a_star_pos_unbound).
Proof.
  split_and!.
  - intros. by apply avoid_enemy_collision_total.
  - intros. apply avoid_enemy_collision_stop.
  - intros ag here a gs w Hlegal Hsafe. rewrite avoid_enemy_collision_stop.
    destruct (safe_move_survives ag here a gs Hlegal Hsafe) as (q & _ & Hin).
    rewrite decide_False; [done|]. intros Hnil. rewrite Hnil in Hin.
    by apply elem_of_nil in Hin.
  - intros fuel ag start goal gs p acts Hrun.
    pose proof (aStarSearch_cardinal _ _ _ _ _ _ _ Hrun) as Hall.
    split; [done|]. intros a. by apply cardinal_head.
  - intros fuel self s Hreach.
    pose proof (attacker_reachable_cardinal_queue fuel self s Hreach) as Hq.
    split; [done|]. intros gs w.
    destruct (choose_action_safe fuel self gs s w Hq) as [_ Hres].
    destruct (result _); congruence.
Qed.

(** C9 on [collision_board]: with North proposed the filter returns a
    move; with ['Stop'] proposed it raises, West being a legal move that
    keeps the distance. *)
Lemma avoid_enemy_collision_precondition_witness :
  let self := AttackAgent.agent 0 true in
  (∃ a' w',
     avoid_enemy_collision self (Some (6, 3)) North collision_board () quiet_world
     = (Ok a', (), w'))
  ∧ West ∈ get_legal_actions collision_board (index self)
  ∧ keeps_distance self collision_board (6, 3) West = true
  ∧ avoid_enemy_collision self (Some (6, 3)) Stop collision_board () quiet_world
    = (Raise a_star_pos_unbound, (), quiet_world).
Proof.
  assert (West ∈ get_legal_actions collision_board (index (AttackAgent.agent 0 true)))
    as Hlegal by (vm_compute; left).
  assert (keeps_distance (AttackAgent.agent 0 true) collision_board (6, 3) West = true)
    as Hsafe by (vm_compute; reflexivity).
  destruct avoid_enemy_collision_precondition as (Htotal & _ & Hstop & _ & _).
  split_and!; [apply Htotal; done|exact Hlegal|exact Hsafe|].
  exact (Hstop (AttackAgent.agent 0 true) (6, 3) West collision_board quiet_world
           Hlegal Hsafe).
Defined.

(** * Further properties *)

(** * Sorting by a key *)

Lemma insert_by_key_perm {A} (key : A → Z) x l : insert_by_key key x l ≡ₚ x :: l.
Proof.
  induction l as [|y t IH]; simpl; [done|].
  case_decide; [done|]. rewrite IH. apply perm_swap.
Qed.

Lemma sorted_by_key_perm {A} (key : A → Z) l : sorted_by_key key l ≡ₚ l.
Proof.
  induction l as [|x t IH]; simpl; [done|].
  fold (sorted_by_key key t). by rewrite insert_by_key_perm, IH.
Qed.

Lemma insert_by_key_ascending {A} (key : A → Z) x l :
  ascending key l → ascending key (insert_by_key key x l).
Proof.
  unfold ascending. induction l as [|y t IH]; simpl; intros Hl.
  - repeat constructor.
  - apply StronglySorted_inv in Hl as [Ht Hy]. case_decide.
    + constructor; [by constructor|]. constructor; [done|].
      eapply Forall_impl; [|exact Hy]. simpl. intros; lia.
    + constructor; [by apply IH|].
      rewrite insert_by_key_perm. constructor; [lia|done].
Qed.

Lemma sorted_by_key_ascending {A} (key : A → Z) l : ascending key (sorted_by_key key l).
Proof.
  induction l as [|x t IH]; simpl; [constructor|].
  by apply insert_by_key_ascending.
Qed.

(** Sorting a list that is in order already returns it. *)
Lemma sorted_by_key_id {A} (key : A → Z) l : ascending key l → sorted_by_key key l = l.
Proof.
  unfold ascending. induction l as [|x t IH]; simpl; intros Hl; [done|].
  apply StronglySorted_inv in Hl as [Ht Hx]. fold (sorted_by_key key t). rewrite IH by done.
  destruct t as [|y t]; simpl; [done|].
  apply Forall_inv in Hx. by rewrite decide_True.
Qed.

(** The sort is stable, so its first element is the first of the least
    elements of the list. *)
Lemma sorted_by_key_head {A} (key : A → Z) l h :
  head (sorted_by_key key l) = Some h →
  ∃ l1 l2, l = l1 ++ h :: l2
           ∧ Forall (λ y, key h < key y) l1 ∧ Forall (λ y, key h ≤ key y) l2.
Proof.
  revert h. induction l as [|x t IH]; intros h; simpl; [done|].
  fold (sorted_by_key key t).
  destruct (sorted_by_key key t) as [|h' s] eqn:Hs; simpl.
  - intros [= <-]. exists [], t.
    assert (t = []) as ->.
    { apply Permutation_nil. by rewrite <- Hs, sorted_by_key_perm. }
    by repeat constructor.
  - destruct (IH h' eq_refl) as (l1 & l2 & -> & H1 & H2).
    case_decide as Hle; simpl; intros [= <-].
    + exists [], (l1 ++ h' :: l2). split; [done|]. split; [constructor|].
      apply Forall_app. split.
      * eapply Forall_impl; [|exact H1]. simpl. intros; lia.
      * constructor; [done|]. eapply Forall_impl; [|exact H2]. simpl. intros; lia.
    + exists (x :: l1), l2. split; [done|]. split; [|done].
      constructor; [lia|done].
Qed.

(** * The two halves of the board *)

(** As long as the width has at most 53 bits its half is exact and [int]
    rounds it down. *)
Lemma half_width_exact gs :
  0 ≤ layout_width gs < 2 ^ 53 → half_width gs = layout_width gs / 2.
Proof.
  intros [H0 Hw]. unfold half_width, int_half. rewrite decide_True by done.
  rewrite decide_True; [done|].
  destruct (decide (layout_width gs = 0)) as [->|Hne]; [done|].
  assert (Z.log2 (layout_width gs) < 53); [|lia].
  apply Z.log2_lt_pow2; lia.
Qed.

(** X1. [in_our_field] depends on the team and on the column only: team
    mates share one field, and for opponents every cell lies in exactly one
    of the two fields.  On a board of width [0 ≤ w < 2 ^ 53] the red field
    is the columns [x] with [2 (x + 1) ≤ w], the blue field the columns
    with [w ≤ 2 x + 1]: with an odd width the middle column is blue.  The
    bound on the width is needed, the half being computed in floating
    point: at width [2 ^ 53 + 3] it is rounded up to [2 ^ 52 + 2], and the
    column [2 ^ 52 + 1] is red although [2 (x + 1) ≤ w] fails there. *)
Theorem in_our_field_splits_the_board (a b : Agent) (gs : GameState) (x y y' : Z) :
  in_our_field a (x, y) gs
  = (if bool_decide (red a = red b)
     then in_our_field b (x, y') gs else negb (in_our_field b (x, y') gs))
  ∧ (0 ≤ layout_width gs < 2 ^ 53 →
     in_our_field a (x, y) gs
     = if red a then bool_decide (2 * (x + 1) ≤ layout_width gs)
       else bool_decide (layout_width gs ≤ 2 * x + 1))
  ∧ (layout_width gs = 2 ^ 53 + 3 →
     in_our_field a (2 ^ 52 + 1, y) gs = red a).
Proof.
  split_and!.
  - unfold in_our_field. destruct (red a), (red b); simpl; try done;
      repeat case_bool_decide; simpl; try done; lia.
  - intros Hw. unfold in_our_field. rewrite (half_width_exact gs Hw).
    pose proof (Z.div_mod (layout_width gs) 2 ltac:(lia)) as Hq.
    pose proof (Z.mod_pos_bound (layout_width gs) 2 ltac:(lia)) as Hr.
    destruct (red a); repeat case_bool_decide; try done; lia.
  - intros Hw. unfold in_our_field, half_width. rewrite Hw.
    by destruct (red a).
Qed.

(** X1 on the closed room, 10 columns wide: the columns 0 to 4 are red,
    the columns 5 to 9 blue. *)
Lemma in_our_field_splits_the_board_witness :
  let red_agent := AttackAgent.agent 0 true in
  let blue_agent := DefendAgent.agent 1 false in
  in_our_field red_agent (4, 3) attacker_board
  = (if bool_decide (red red_agent = red blue_agent)
     then in_our_field blue_agent (4, 1) attacker_board
     else negb (in_our_field blue_agent (4, 1) attacker_board))
  ∧ in_our_field red_agent (4, 3) attacker_board
    = (if red red_agent then bool_decide (2 * (4 + 1) ≤ layout_width attacker_board)
       else bool_decide (layout_width attacker_board ≤ 2 * 4 + 1))
  ∧ in_our_field red_agent (4, 3) attacker_board = true
  ∧ in_our_field red_agent (5, 3) attacker_board = false.
Proof.
  destruct (in_our_field_splits_the_board (AttackAgent.agent 0 true)
              (DefendAgent.agent 1 false) attacker_board 4 3 1) as (Hteam & Hcols & _).
  split_and!; [exact Hteam|apply Hcols; vm_compute; split; [discriminate|reflexivity]
              |reflexivity|reflexivity].
Defined.

Lemma border_column_in_our_field ag gs y :
  in_our_field ag (border_column ag gs, y) gs = true.
Proof.
  unfold in_our_field, border_column.
  destruct (red ag); apply bool_decide_eq_true; lia.
Qed.

(** * The cells of a column *)

Lemma py_range_nat a b : py_range a b = seqZ a (Z.of_nat (Z.to_nat (b - a))).
Proof. unfold py_range, seqZ. by rewrite Nat2Z.id. Qed.

Lemma elem_of_column_cells gs col p :
  p ∈ column_cells gs col
  ↔ p.1 = col ∧ 1 ≤ p.2 < layout_height gs
    ∧ grid_get (layout_walls gs) p.1 p.2 = Some false.
Proof.
  unfold column_cells, py_range. rewrite list_elem_of_fmap. split.
  - intros (y & -> & Hy). apply list_elem_of_filter in Hy as [Hopen Hy].
    apply elem_of_seqZ in Hy. simpl. split_and!; (done || lia).
  - destruct p as [x y]. simpl. intros (-> & Hy & Hopen). exists y. split; [done|].
    apply list_elem_of_filter. split; [done|]. apply elem_of_seqZ. lia.
Qed.

Lemma StronglySorted_fmap_list {A B} (f : A → B) (R1 : relation A) (R2 : relation B) l :
  (∀ x y, R1 x y → R2 (f x) (f y)) → StronglySorted R1 l → StronglySorted R2 (f <$> l).
Proof.
  intros Hf. induction 1 as [|x l Hl IH Hx]; simpl; [constructor|].
  constructor; [done|]. apply Forall_fmap. eapply Forall_impl; [|exact Hx].
  simpl. auto.
Qed.

Lemma StronglySorted_snoc {A} (R : relation A) l x :
  StronglySorted R l → Forall (λ y, R y x) l → StronglySorted R (l ++ [x]).
Proof.
  induction 1 as [|y l Hl IH Hy]; simpl; intros Hall; [repeat constructor|].
  pose proof (Forall_inv Hall) as Hyx. apply Forall_inv_tail in Hall. constructor; [by apply IH|].
  apply Forall_app. split; [done|]. by repeat constructor.
Qed.

Lemma StronglySorted_filter_list {A} (R : relation A) (P : A → Prop)
    `{∀ x, Decision (P x)} l :
  StronglySorted R l → StronglySorted R (filter P l).
Proof.
  induction 1 as [|x l Hl IH Hx]; [constructor|]. rewrite filter_cons.
  case_decide; [|done]. constructor; [done|].
  rewrite Forall_forall in Hx. apply Forall_forall. intros y Hy.
  apply Hx. rewrite <- list_elem_of_In in Hy. rewrite <- list_elem_of_In.
  by apply list_elem_of_filter in Hy as [_ ?].
Qed.

Lemma column_cells_ascending gs col : ascending snd (column_cells gs col).
Proof.
  unfold ascending, column_cells.
  apply (StronglySorted_fmap_list _ Z.lt); [simpl; intros; lia|].
  apply StronglySorted_filter_list.
  unfold py_range. rewrite (py_range_nat 1 (layout_height gs) : seqZ 1 (layout_height gs - 1) = _).
  induction (Z.to_nat (layout_height gs - 1)) as [|n IH]; [constructor|].
  rewrite seqZ_S. apply StronglySorted_snoc; [done|].
  apply Forall_seqZ. intros; lia.
Qed.

Lemma column_fold gs c (l : list Z) (acc : list Pos) :
  foldl (λ (acc : list Pos) (y : Z),
           if default true (grid_get (layout_walls gs) c y) then acc else acc ++ [(c, y)])
        acc l
  = acc ++ ((λ y, (c, y)) <$> filter (λ y, grid_get (layout_walls gs) c y = Some false) l).
Proof.
  revert acc. induction l as [|y t IH]; intros acc; simpl; [by rewrite app_nil_r|].
  rewrite IH.
  destruct (grid_get (layout_walls gs) c y) as [[|]|] eqn:Hg; simpl.
  - by rewrite filter_cons_False by (by rewrite Hg).
  - rewrite filter_cons_True by done. simpl. by rewrite <- app_assoc.
  - by rewrite filter_cons_False by (by rewrite Hg).
Qed.

Lemma get_column_slice_run gs col offset :
  let c := match offset with Some o => col + o | None => col end in
  (∀ y, 1 ≤ y < layout_height gs → is_Some (grid_get (layout_walls gs) c y)) →
  ∀ w, get_column_slice col gs offset () w = (Ok (column_cells gs c), (), w).
Proof.
  intros c Hgrid w. unfold get_column_slice. fold c.
  rewrite (for_each_pure _
             (λ (acc : list Pos) (y : Z),
                if default true (grid_get (layout_walls gs) c y) then acc
                else acc ++ [(c, y)])).
  - by rewrite column_fold.
  - intros acc y s' w' Hy. apply elem_of_seqZ in Hy.
    destruct (Hgrid y) as [b Hb]; [lia|]. rewrite Hb. autorewrite with run.
    by destruct b.
Qed.

Lemma py_index_head {A} (l : list A) : py_index l 0 = head l.
Proof. unfold py_index. rewrite decide_True by done. by destruct l. Qed.

Lemma py_index_last_snoc {A} (l : list A) x : py_index (l ++ [x]) (-1) = Some x.
Proof.
  unfold py_index. rewrite decide_False by lia.
  rewrite length_app. simpl. rewrite decide_True by lia.
  rewrite lookup_app_r by lia.
  replace (Z.to_nat (Z.of_nat (length l + 1) + -1) - length l)%nat with 0%nat by lia. done.
Qed.

Lemma py_index_last_nil {A} : py_index (@nil A) (-1) = None.
Proof. done. Qed.

Lemma ascending_bounds {A} (key : A → Z) l low high x :
  ascending key l → py_index l 0 = Some low → py_index l (-1) = Some high → x ∈ l →
  key low ≤ key x ≤ key high.
Proof.
  unfold ascending. rewrite py_index_head. intros Hl Hlow Hhigh Hx. split.
  - destruct l as [|a t]; [done|]. injection Hlow as ->.
    apply StronglySorted_inv in Hl as [_ Hall].
    apply elem_of_cons in Hx as [->|Hx]; [lia|].
    rewrite Forall_forall in Hall. apply Hall. by apply list_elem_of_In.
  - destruct l as [|a t _] using rev_ind; [done|]. rewrite py_index_last_snoc in Hhigh.
    injection Hhigh as ->.
    apply elem_of_app in Hx as [Hx|Hx%list_elem_of_singleton]; [|subst; lia].
    clear Hlow. induction t as [|b t IH]; [by apply elem_of_nil in Hx|].
    simpl in Hl. apply StronglySorted_inv in Hl as [Ht Hb].
    apply elem_of_cons in Hx as [->|Hx]; [|by apply IH].
    apply Forall_app in Hb as [_ Hb]. by apply Forall_inv in Hb.
Qed.

(** X3. On a rectangular wall grid, in a column inside the grid,
    [get_column_slice] returns the open cells of that column (shifted by
    [offset] when one is given) in the rows 1 to [height - 1], and nothing
    else, lowest row first: sorting the result by row leaves it as it is,
    and its first and last elements bound the rows of all the others. *)
Theorem get_column_slice_lists_open_cells (gs : GameState) (col : Z) (offset : option Z)
    (width height : nat) :
  let c := match offset with Some o => col + o | None => col end in
  rectangular width height (layout_walls gs) →
  0 ≤ c < Z.of_nat width →
  layout_height gs ≤ Z.of_nat height →
  ∃ cells,
    (∀ w, get_column_slice col gs offset () w = (Ok cells, (), w))
    ∧ (∀ p, p ∈ cells
            ↔ p.1 = c ∧ 1 ≤ p.2 < layout_height gs
              ∧ grid_get (layout_walls gs) p.1 p.2 = Some false)
    ∧ sorted_by_key snd cells = cells
    ∧ (∀ low high p, py_index cells 0 = Some low → py_index cells (-1) = Some high →
         p ∈ cells → low.2 ≤ p.2 ≤ high.2).
Proof.
  intros c Hrect Hc Hh. exists (column_cells gs c). split_and!.
  - apply get_column_slice_run. intros y Hy.
    destruct (grid_get_in_range width height (layout_walls gs) c y Hrect) as [b Hb];
      [lia..|]. by exists b.
  - apply elem_of_column_cells.
  - apply sorted_by_key_id, column_cells_ascending.
  - intros low high p Hlow Hhigh Hp.
    by eapply (ascending_bounds snd), Hp; [apply column_cells_ascending|..].
Qed.

(** * The closest point of our field *)

Lemma closest_fold gs c here n :
  let r := foldl (closest_step gs c here) (999999, None) (seqZ 1 (Z.of_nat n)) in
  match r.2 with
  | Some p =>
      r.1 = get_maze_distance gs here p ∧ r.1 < 999999
      ∧ p.1 = c ∧ 1 ≤ p.2 < 1 + Z.of_nat n
      ∧ grid_get (layout_walls gs) p.1 p.2 = Some false
      ∧ ∀ y, 1 ≤ y < 1 + Z.of_nat n → grid_get (layout_walls gs) c y = Some false →
          r.1 ≤ get_maze_distance gs here (c, y)
          ∧ (get_maze_distance gs here (c, y) = r.1 → p.2 ≤ y)
  | None =>
      r.1 = 999999
      ∧ ∀ y, 1 ≤ y < 1 + Z.of_nat n → grid_get (layout_walls gs) c y = Some false →
          999999 ≤ get_maze_distance gs here (c, y)
  end.
Proof.
  induction n as [|n IH]; simpl.
  { split; [done|]. intros; lia. }
  rewrite seqZ_S, foldl_snoc.
  destruct (foldl (closest_step gs c here) (999999, None) (seqZ 1 (Z.of_nat n)))
    as [m mp]. simpl in IH. unfold closest_step.
  destruct (grid_get (layout_walls gs) c (1 + Z.of_nat n)) as [[|]|] eqn:Hg; simpl.
  - destruct mp as [p|].
    + destruct IH as (? & ? & ? & ? & ? & Hmin). split_and!; try (done || lia).
      intros y Hy Hopen. destruct (decide (y = 1 + Z.of_nat n)) as [->|]; [congruence|].
      apply Hmin; [lia|done].
    + destruct IH as (? & Hmin). split; [done|].
      intros y Hy Hopen. destruct (decide (y = 1 + Z.of_nat n)) as [->|]; [congruence|].
      apply Hmin; [lia|done].
  - case_decide as Hlt; simpl.
    + split_and!; try (done || lia).
      * destruct mp as [p|]; [destruct IH as (? & ? & _)|destruct IH as (? & _)]; lia.
      * intros y Hy Hopen. destruct (decide (y = 1 + Z.of_nat n)) as [->|]; [lia|].
        destruct mp as [p|].
        -- destruct IH as (? & ? & ? & ? & ? & Hmin).
           destruct (Hmin y) as [? ?]; [lia|done|]. lia.
        -- destruct IH as (? & Hmin). specialize (Hmin y ltac:(lia) Hopen). lia.
    + destruct mp as [p|].
      * destruct IH as (? & ? & ? & ? & ? & Hmin). split_and!; try (done || lia).
        intros y Hy Hopen. destruct (decide (y = 1 + Z.of_nat n)) as [->|]; [lia|].
        apply Hmin; [lia|done].
      * destruct IH as (? & Hmin). split; [done|].
        intros y Hy Hopen. destruct (decide (y = 1 + Z.of_nat n)) as [->|]; [lia|].
        apply Hmin; [lia|done].
  - destruct mp as [p|].
    + destruct IH as (? & ? & ? & ? & ? & Hmin). split_and!; try (done || lia).
      intros y Hy Hopen. destruct (decide (y = 1 + Z.of_nat n)) as [->|]; [congruence|].
      apply Hmin; [lia|done].
    + destruct IH as (? & Hmin). split; [done|].
      intros y Hy Hopen. destruct (decide (y = 1 + Z.of_nat n)) as [->|]; [congruence|].
      apply Hmin; [lia|done].
Qed.

Lemma get_closest_point_in_our_field_run ag gs here :
  (∀ y, 1 ≤ y < layout_height gs →
     is_Some (grid_get (layout_walls gs) (border_column ag gs) y)) →
  get_our_position ag gs = Some here →
  ∀ w, get_closest_point_in_our_field ag gs () w
       = (Ok (foldl (closest_step gs (border_column ag gs) here) (999999, None)
                (py_range 1 (layout_height gs))).2, (), w).
Proof.
  intros Hgrid Hhere w. unfold get_closest_point_in_our_field.
  fold (border_column ag gs). rewrite run_bind.
  rewrite (for_each_pure _ (closest_step gs (border_column ag gs) here)).
  - by destruct (foldl _ _ _).
  - intros [m mp] y s' w' Hy. apply elem_of_seqZ in Hy.
    destruct (Hgrid y) as [b Hb]; [lia|]. rewrite Hb. autorewrite with run.
    unfold closest_step. rewrite Hb. destruct b; simpl; [done|].
    unfold get_our_position in Hhere. rewrite Hhere. autorewrite with run.
    by case_decide.
Qed.

(** X2. On a rectangular wall grid, for an agent whose position is known,
    [get_closest_point_in_our_field] returns without touching the log or
    the random source.  A returned point is an open cell of the column of
    our field next to the border, lies in our field, is at a maze
    distance below 999999, and no open cell of that column (rows 1 to
    [height - 1]) is closer; among the closest ones it is the lowest.
    [None] is returned exactly when every open cell of the column is at
    distance 999999 or more. *)
Theorem get_closest_point_in_our_field_is_closest (ag : Agent) (gs : GameState)
    (here : Pos) (width height : nat) :
  rectangular width height (layout_walls gs) →
  0 ≤ border_column ag gs < Z.of_nat width →
  layout_height gs ≤ Z.of_nat height →
  get_our_position ag gs = Some here →
  ∃ r,
    (∀ w, get_closest_point_in_our_field ag gs () w = (Ok r, (), w))
    ∧ match r with
      | Some p =>
          p ∈ column_cells gs (border_column ag gs)
          ∧ in_our_field ag p gs = true
          ∧ get_maze_distance gs here p < 999999
          ∧ ∀ q, q ∈ column_cells gs (border_column ag gs) →
              get_maze_distance gs here p ≤ get_maze_distance gs here q
              ∧ (get_maze_distance gs here q = get_maze_distance gs here p → p.2 ≤ q.2)
      | None =>
          ∀ q, q ∈ column_cells gs (border_column ag gs) →
            999999 ≤ get_maze_distance gs here q
      end.
Proof.
  intros Hrect Hc Hh Hhere. eexists. split.
  { apply get_closest_point_in_our_field_run; [|done]. intros y Hy.
    destruct (grid_get_in_range width height (layout_walls gs) (border_column ag gs) y Hrect)
      as [b Hb]; [lia..|]. by exists b. }
  rewrite py_range_nat.
  pose proof (closest_fold gs (border_column ag gs) here (Z.to_nat (layout_height gs - 1)))
    as Hfold. simpl in Hfold.
  destruct (foldl _ _ _) as [m [p|]]; simpl in *.
  - destruct Hfold as (-> & Hlt & Hcol & Hrow & Hopen & Hmin). split_and!.
    + apply elem_of_column_cells. split_and!; (done || lia).
    + destruct p as [x y]. simpl in Hcol. subst x. apply border_column_in_our_field.
    + done.
    + intros [x y] (Hx & Hy & Hq)%elem_of_column_cells. simpl in *. subst x.
      apply Hmin; [lia|done].
  - destruct Hfold as (_ & Hmin).
    intros [x y] (Hx & Hy & Hq)%elem_of_column_cells. simpl in *. subst x.
    apply Hmin; [lia|done].
Qed.

Lemma measure_fold gs from (foods : list Pos) (acc : list (Z * Pos)) :
  foldl (λ acc food_position,
           acc ++ [(get_maze_distance gs from food_position, food_position)]) acc foods
  = acc ++ ((λ f, (get_maze_distance gs from f, f)) <$> foods).
Proof.
  revert acc. induction foods as [|f t IH]; intros acc; simpl; [by rewrite app_nil_r|].
  rewrite IH. by rewrite <- app_assoc.
Qed.

Lemma measured_head gs from (foods : list Pos) d target :
  head (sorted_by_key fst ((λ f, (get_maze_distance gs from f, f)) <$> foods))
  = Some (d, target) →
  ∃ before after, foods = before ++ target :: after
    ∧ Forall (λ f, get_maze_distance gs from target < get_maze_distance gs from f) before
    ∧ Forall (λ f, get_maze_distance gs from target ≤ get_maze_distance gs from f) after.
Proof.
  intros (l1 & l2 & Heq & H1 & H2)%sorted_by_key_head.
  apply fmap_app_inv in Heq as (before & rest & Hb & Hr & ->).
  symmetry in Hr. apply fmap_cons_inv in Hr as (t & after & Ht & Ha & ->).
  injection Ht as -> ->. exists before, after. split; [done|]. subst l1 l2.
  rewrite Forall_fmap in H1. rewrite Forall_fmap in H2. done.
Qed.

Section FoodTarget.

Variables (fuel : nat) (ag : Agent) (gs : GameState).
Variable food_positions_function : Agent → GameState → Eff (list Pos).
Variable initial_position_function : option (Agent → GameState → Eff Pos).
Variables (from : Pos) (foods : list Pos).

Hypothesis Hfrom : measures_from ag gs initial_position_function from.
Hypothesis Hfoods : lists_food ag gs food_positions_function foods.

Let measured : list (Z * Pos) := (λ f, (get_maze_distance gs from f, f)) <$> foods.

Lemma a_star_to_food_position_run randomize w :
  a_star_to_food_position fuel ag gs food_positions_function randomize
    initial_position_function () w
  = ('(_, min_food_position) ←
       (if randomize then random_choice (take 3 (sorted_by_key fst measured))
        else or_raise IndexError (py_index (sorted_by_key fst measured) 0));
     route_to fuel ag gs min_food_position) () w.
Proof.
  unfold a_star_to_food_position.
  assert (∀ (k : option Pos → Eff (Pos * list Action)),
            ((match initial_position_function with
              | None => mret (get_agent_position gs (index ag))
              | Some f => p ← f ag gs; mret (Some p)
              end) ≫= k) () w = k (Some from) () w) as ->.
  { intros k. unfold measures_from in Hfrom. destruct initial_position_function as [f|].
    - rewrite run_bind_assoc, run_bind, Hfrom. by autorewrite with run.
    - autorewrite with run. by rewrite Hfrom. }
  rewrite run_bind, Hfoods. rewrite run_bind.
  rewrite (for_each_pure _ (λ acc food_position,
             acc ++ [(get_maze_distance gs from food_position, food_position)]))
    by (intros; by autorewrite with run).
  by rewrite measure_fold.
Qed.

End FoodTarget.

Lemma route_to_sound fuel ag gs target dest actions w w' :
  route_to fuel ag gs target () w = (Ok (dest, actions), (), w') →
  dest = target ∧ w' = w
  ∧ ∃ here, get_our_position ag gs = Some here ∧ walk gs here actions = Some dest.
Proof.
  unfold route_to, search, get_our_position.
  destruct (get_agent_position gs (index ag)) as [here|]; [|done].
  rewrite run_bind_assoc, run_as_pos_bind, run_bind.
  destruct (aStarSearch fuel ag here (Some target) gs) as [[p acts|]|] eqn:Hrun; simpl; try done.
  intros [= -> -> ->].
  destruct (astar_loop_sound _ _ _ _ _ _ _ _ _ (routes_from_init gs here) Hrun) as [Hw [= ->]].
  split_and!; [done..|]. by exists here.
Qed.

Lemma filter_none {A} (P : A → Prop) `{∀ x, Decision (P x)} l :
  Forall (λ x, ¬ P x) l → filter P l = [].
Proof.
  induction 1 as [|x l Hx Hl IH]; [done|]. by rewrite filter_cons_False.
Qed.

Lemma ascending_take_few {A} (key : A → Z) (l : list A) x k :
  ascending key l → x ∈ take k l →
  (length (filter (λ y, (key y < key x)%Z) l) < k)%nat.
Proof.
  unfold ascending. intros Hl. revert k. induction Hl as [|a t Ht IH Ha]; intros k.
  - rewrite take_nil. by intros ?%elem_of_nil.
  - destruct k as [|k]; simpl; [by intros ?%elem_of_nil|].
    intros [->|Hx]%elem_of_cons.
    + rewrite filter_cons_False by lia.
      rewrite filter_none; [simpl; lia|].
      eapply Forall_impl; [|exact Ha]. simpl. intros; lia.
    + specialize (IH k Hx). rewrite filter_cons. case_decide; simpl; lia.
Qed.

Lemma length_filter_fmap {A B} (f : A → B) (P : B → Prop) `{∀ x, Decision (P x)} l :
  length (filter P (f <$> l)) = length (filter (λ a, P (f a)) l).
Proof.
  induction l as [|a t IH]; [done|].
  rewrite fmap_cons, !filter_cons. case_decide; cbn [length]; by rewrite IH.
Qed.

(** X4. Without [randomize], [a_star_to_food_position] plans a route from
    the agent's own position to the listed food position that is closest
    to the measuring position (the agent's own, or the one returned by
    [initial_position_function]); among equally close ones it takes the
    first of the list.  It touches neither the log nor the random source,
    and a returned pair is that target with a legal route from the
    agent's position to it. *)
Theorem a_star_to_food_position_targets_closest (fuel : nat) (ag : Agent) (gs : GameState)
    (food_positions_function : Agent → GameState → Eff (list Pos))
    (initial_position_function : option (Agent → GameState → Eff Pos))
    (from : Pos) (foods : list Pos) :
  measures_from ag gs initial_position_function from →
  lists_food ag gs food_positions_function foods →
  foods ≠ [] →
  ∃ target before after,
    foods = before ++ target :: after
    ∧ Forall (λ f, get_maze_distance gs from target < get_maze_distance gs from f) before
    ∧ Forall (λ f, get_maze_distance gs from target ≤ get_maze_distance gs from f) after
    ∧ (∀ w, a_star_to_food_position fuel ag gs food_positions_function false
              initial_position_function () w
            = route_to fuel ag gs target () w)
    ∧ (∀ w dest actions w',
         a_star_to_food_position fuel ag gs food_positions_function false
           initial_position_function () w = (Ok (dest, actions), (), w') →
         dest = target ∧ w' = w
         ∧ ∃ here, get_our_position ag gs = Some here ∧ walk gs here actions = Some dest).
Proof.
  intros Hfrom Hfoods Hne.
  set (measured := (λ f, (get_maze_distance gs from f, f)) <$> foods).
  destruct (sorted_by_key fst measured) as [|[d target] rest] eqn:Hsorted.
  { exfalso. apply Hne. apply (fmap_nil_inv (λ f, (get_maze_distance gs from f, f))).
    apply Permutation_nil. fold measured. by rewrite <- Hsorted, sorted_by_key_perm. }
  destruct (measured_head gs from foods d target) as (before & after & Heq & H1 & H2).
  { fold measured. by rewrite Hsorted. }
  assert (∀ w, a_star_to_food_position fuel ag gs food_positions_function false
                 initial_position_function () w
               = route_to fuel ag gs target () w) as Hrun.
  { intros w. rewrite (a_star_to_food_position_run _ _ _ _ _ from foods) by done.
    fold measured. rewrite Hsorted. rewrite py_index_head. simpl.
    by autorewrite with run. }
  exists target, before, after. split_and!; [done..|].
  intros w dest actions w'. rewrite Hrun. apply route_to_sound.
Qed.

(** X5. With [randomize], [a_star_to_food_position] consumes one random
    number and plans a route to a listed food position that fewer than
    three listed positions are strictly closer than: one of the three
    closest. *)
Theorem a_star_to_food_position_random_top_three (fuel : nat) (ag : Agent) (gs : GameState)
    (food_positions_function : Agent → GameState → Eff (list Pos))
    (initial_position_function : option (Agent → GameState → Eff Pos))
    (from : Pos) (foods : list Pos) :
  measures_from ag gs initial_position_function from →
  lists_food ag gs food_positions_function foods →
  foods ≠ [] →
  ∀ w, ∃ target,
    target ∈ foods
    ∧ (length (filter (λ f, (get_maze_distance gs from f
                                < get_maze_distance gs from target)%Z) foods) < 3)%nat
    ∧ a_star_to_food_position fuel ag gs food_positions_function true
        initial_position_function () w
      = route_to fuel ag gs target () {| tape := tail (tape w); trace := trace w |}.
Proof.
  intros Hfrom Hfoods Hne w.
  set (measured := (λ f, (get_maze_distance gs from f, f)) <$> foods).
  set (top := take 3 (sorted_by_key fst measured)).
  set (r := match tape w with [] => 0%nat | n :: _ => n end).
  assert (length measured ≠ 0%nat) as Hlen.
  { subst measured. rewrite length_fmap. by destruct foods. }
  destruct (lookup_lt_is_Some_2 top (r mod length top)) as [[d target] Hpick].
  { apply Nat.mod_upper_bound. subst top. rewrite length_take.
    rewrite (Permutation_length (sorted_by_key_perm fst measured)). lia. }
  assert ((d, target) ∈ top) as Htop by (by eapply list_elem_of_lookup_2).
  assert ((d, target) ∈ measured) as Hin.
  { rewrite <- (sorted_by_key_perm fst measured). subst top.
    by eapply elem_of_take in Htop as (i & ? & ?); eapply list_elem_of_lookup_2. }
  subst measured. apply list_elem_of_fmap in Hin as (f & [= -> ->] & Hf).
  exists f. split_and!; [done| |].
  - pose proof (ascending_take_few fst _ _ 3 (sorted_by_key_ascending fst _) Htop) as Hfew.
    rewrite (Permutation_length
               (filter_Permutation _ _ _ (sorted_by_key_perm fst _))) in Hfew.
    by rewrite (length_filter_fmap _ (λ pr : Z * Pos, pr.1 < _)) in Hfew.
  - rewrite (a_star_to_food_position_run _ _ _ _ _ from foods) by done.
    rewrite run_bind. unfold random_choice at 1. fold r. fold top. by rewrite Hpick.
Qed.

(** X6. When the food listing is empty, [a_star_to_food_position] raises
    [IndexError], with and without [randomize], and leaves the log and the
    random source as they were. *)
Theorem a_star_to_food_position_without_food (fuel : nat) (ag : Agent) (gs : GameState)
    (food_positions_function : Agent → GameState → Eff (list Pos))
    (initial_position_function : option (Agent → GameState → Eff Pos))
    (randomize : bool) :
  lists_food ag gs food_positions_function [] →
  (∀ f, initial_position_function = Some f → ∃ from, ∀ w, f ag gs () w = (Ok from, (), w)) →
  ∀ w, a_star_to_food_position fuel ag gs food_positions_function randomize
         initial_position_function () w
       = (Raise IndexError, (), w).
Proof.
  intros Hfoods Hinit w. unfold a_star_to_food_position.
  destruct initial_position_function as [f|].
  - destruct (Hinit f eq_refl) as [from Hf].
    rewrite run_bind_assoc, run_bind, Hf. autorewrite with run.
    rewrite run_bind, Hfoods. simpl. autorewrite with run.
    destruct randomize; [|done].
    rewrite run_bind. unfold random_choice. simpl. by destruct (tape w).
  - autorewrite with run. rewrite run_bind, Hfoods. simpl. autorewrite with run.
    destruct randomize; [|done].
    rewrite run_bind. unfold random_choice. simpl. by destruct (tape w).
Qed.

(** * Degenerate routes *)

Lemma aStarSearch_at_goal fuel ag here gs :
  aStarSearch (S fuel) ag here (Some here) gs = Some (Found here []).
Proof.
  unfold aStarSearch. simpl. rewrite decide_False by set_solver.
  by rewrite decide_True.
Qed.

(** X7. A search whose goal is the start position returns that position
    with the empty move sequence at once, whatever the board; the call
    sites that take element 0 of the route ([pursue] of the defender, the
    fleeing branches of the attacker) then raise [IndexError] and leave
    the attributes and the log untouched. *)
Theorem route_to_own_cell_is_empty (fuel : nat) (self : Agent) (gs : GameState) (here : Pos) :
  get_our_position self gs = Some here →
  aStarSearch (S fuel) self here (Some here) gs = Some (Found here [])
  ∧ (∀ s w, DefendAgent.pursue (S fuel) self here gs s w = (Raise IndexError, s, w))
  ∧ (∀ s w, AttackAgent.first_move_towards (S fuel) self (Some here) gs s w
            = (Raise IndexError, s, w)).
Proof.
  intros Hhere. pose proof (aStarSearch_at_goal fuel self here gs) as Hrun.
  split_and!; [done| |].
  - intros s w. unfold DefendAgent.pursue, search. rewrite run_lift_bind.
    rewrite Hhere, run_as_pos_bind, Hrun. done.
  - intros s w. unfold AttackAgent.first_move_towards, search. rewrite run_lift_bind.
    rewrite Hhere, run_as_pos_bind, Hrun. done.
Qed.

(** X8. On a maze whose part reachable from the agent is finite, a
    search for a goal that no legal route reaches (a goal of [None]
    included) returns the empty list for every iteration budget above
    some bound; the call sites unpack it into two names and raise
    [ValueError]. *)
Theorem route_to_unreachable_goal_is_not_unpacked (self : Agent) (gs : GameState)
    (here : Pos) (goal : option Pos) (cells : gset Pos) :
  get_our_position self gs = Some here →
  (∀ p, reachable gs here p → p ∈ cells) →
  (∀ g, goal = Some g → ¬ reachable gs here g) →
  ∃ bound, ∀ fuel, (bound ≤ fuel)%nat →
    aStarSearch fuel self here goal gs = Some NoPath
    ∧ (∀ s w, AttackAgent.first_move_towards fuel self goal gs s w
              = (Raise ValueError, s, w))
    ∧ (∀ g s w, goal = Some g →
         DefendAgent.pursue fuel self g gs s w = (Raise ValueError, s, w)).
Proof.
  intros Hhere Hcells Hno.
  destruct (aStarSearch_no_route self gs here goal cells Hcells Hno) as [bound Hbound].
  exists bound. intros fuel Hle. specialize (Hbound fuel Hle). split_and!; [done| |].
  - intros s w. unfold AttackAgent.first_move_towards, search. rewrite run_lift_bind.
    rewrite Hhere, run_as_pos_bind, Hbound. done.
  - intros g s w ->. unfold DefendAgent.pursue, search. rewrite run_lift_bind.
    rewrite Hhere, run_as_pos_bind, Hbound. done.
Qed.

(** * The collision filter *)

Lemma surviving_moves_legal ag here gs a q :
  (a, q) ∈ surviving_moves ag here gs →
  a ∈ get_legal_actions gs (index ag) ∧ move here a = Some q.
Proof.
  intros Hin%surviving_moves_subseteq. unfold possible_actions_and_positions in Hin.
  apply list_elem_of_omap in Hin as (a' & Ha' & Heq).
  destruct (move here a') as [q'|] eqn:Hmove; simpl in Heq; [|done].
  by injection Heq as -> ->.
Qed.

(** X9. With a cardinal move proposed from a known position,
    [avoid_enemy_collision] returns a move.  If any candidate survives the
    filter, the returned move is a legal cardinal move whose cell is among
    the survivors.  The proposal is returned with the log and the random
    source untouched, or else the proposed cell did not survive, one
    random number was consumed and the alternative move, different from
    the proposal, was logged. *)
Theorem avoid_enemy_collision_returns_legal_move (ag : Agent) (here : Pos)
    (next_action : Action) (gs : GameState) (w : World) :
  cardinal next_action →
  ∃ a w',
    avoid_enemy_collision ag (Some here) next_action gs () w = (Ok a, (), w')
    ∧ (surviving_moves ag here gs ≠ [] →
         a ∈ get_legal_actions gs (index ag) ∧ cardinal a
         ∧ ∃ q, move here a = Some q ∧ (a, q) ∈ surviving_moves ag here gs)
    ∧ ((a = next_action ∧ w' = w)
       ∨ (a ≠ next_action
          ∧ (∀ q, move here next_action = Some q →
               (next_action, q) ∉ surviving_moves ag here gs)
          ∧ w' = {| tape := tail (tape w);
                    trace := trace w ++ [LogAlternativeAction a] |})).
Proof.
  intros Hcard. unfold avoid_enemy_collision. rewrite run_as_pos_bind.
  destruct (move here next_action) as [q|] eqn:Hmove; [|by destruct here, next_action].
  case_decide as Hlen.
  - rewrite run_or_raise_bind.
    destruct (list_find _ _) as [[i [a p]]|] eqn:Hfind.
    + apply list_find_Some in Hfind as (Hi & Hp & _). subst p.
      apply list_elem_of_lookup_2 in Hi.
      destruct (surviving_moves_legal _ _ _ _ _ Hi) as [Hlegal Hmv].
      pose proof (move_inj here next_action a q Hmove Hmv) as ->.
      exists a, w. split_and!; [done| |by left].
      intros _. split_and!; [done..|]. by exists q.
    + apply list_find_None in Hfind.
      rewrite run_bind. unfold random_choice.
      set (r := match tape w with [] => 0%nat | n :: _ => n end).
      destruct (lookup_lt_is_Some_2 (surviving_moves ag here gs)
                  (r mod length (surviving_moves ag here gs))) as [[a p] Hpick].
      { apply Nat.mod_upper_bound. lia. }
      rewrite Hpick. autorewrite with run.
      apply list_elem_of_lookup_2 in Hpick.
      destruct (surviving_moves_legal _ _ _ _ _ Hpick) as [Hlegal Hmv].
      rewrite Forall_forall in Hfind.
      eexists a, _. split_and!; [done| |right].
      * intros _. split_and!; [done| |by exists p].
        intros ->. by destruct here.
      * split_and!; [| |done].
        -- intros ->. rewrite Hmove in Hmv. injection Hmv as ->.
           apply list_elem_of_In in Hpick. by apply (Hfind _ Hpick).
        -- intros q' [= <-] Hin. apply list_elem_of_In in Hin. by apply (Hfind _ Hin).
  - exists next_action, w. split_and!; [done| |by left].
    intros Hne. destruct (surviving_moves ag here gs); [done|]. simpl in Hlen. lia.
Qed.

(** X10. A legal proposed move whose cell is at maze distance 2 or more
    from every visible enemy outside our field is returned unchanged by
    [avoid_enemy_collision]; nothing is logged and no random number is
    consumed. *)
Theorem avoid_enemy_collision_keeps_safe_move (ag : Agent) (here : Pos) (a : Action)
    (gs : GameState) (w : World) :
  a ∈ get_legal_actions gs (index ag) →
  keeps_distance ag gs here a = true →
  avoid_enemy_collision ag (Some here) a gs () w = (Ok a, (), w).
Proof. apply avoid_enemy_collision_keeps_safe_proposal. Qed.

(** * The attacker's heuristic *)

(** X11. The attacker's heuristic is 1 or 5, hence strictly positive; it
    is 5 exactly at the positions within maze distance 6 (exclusive) of a
    visible opponent that is outside the attacker's field; with no such
    opponent in sight it is the constant 1. *)
Theorem attacker_heuristic_values (i : nat) (r : bool) (pos : Pos) (gs : GameState) :
  let self := AttackAgent.agent i r in
  (heuristic self pos gs = 1 ∨ heuristic self pos gs = 5)
  ∧ (heuristic self pos gs = 5
     ↔ threatened self gs AttackAgent.DISTANCE_FROM_ENEMY_TO_FLEE pos)
  ∧ ((∀ j, j ∈ get_opponents self gs →
        match get_agent_position gs j with
        | Some enemy_position => in_our_field self enemy_position gs = true
        | None => True
        end) → unit_h self gs).
Proof.
  intros self.
  assert (∀ p, heuristic self p gs = 5
               ↔ threatened self gs AttackAgent.DISTANCE_FROM_ENEMY_TO_FLEE p) as Hiff.
  { intros p. unfold self at 1. simpl. unfold AttackAgent.heuristic.
    destruct (existsb _ _) eqn:Hex.
    - split; [intros _|done]. apply existsb_exists in Hex as (j & Hj & Hthreat).
      rewrite <- list_elem_of_In in Hj.
      destruct (get_agent_position gs j) as [e|] eqn:He; [|done].
      apply andb_true_iff in Hthreat as [Hfield Hd%bool_decide_eq_true].
      apply negb_true_iff in Hfield. by exists j, e.
    - split; [done|]. intros (j & e & Hj & He & Hfield & Hd). exfalso.
      apply not_true_iff_false in Hex. apply Hex. apply existsb_exists. exists j.
      rewrite <- list_elem_of_In. split; [done|]. cbn in Hfield |- *. rewrite He.
      apply andb_true_iff. split; [by apply negb_true_iff|by apply bool_decide_eq_true]. }
  split_and!.
  - simpl. unfold AttackAgent.heuristic. destruct (existsb _ _); auto.
  - apply Hiff.
  - intros Hnone p.
    assert (heuristic self p gs ≠ 5) as Hne.
    { rewrite Hiff. intros (j & e & Hj & He & Hfield & _).
      specialize (Hnone j Hj). rewrite He in Hnone. congruence. }
    revert Hne. simpl. unfold AttackAgent.heuristic.
    destruct (existsb _ _); [by intros []|done].
Qed.

(** * The attacker's bookkeeping *)

Lemma hoare_bind {S A B} (P R Q : S → Prop) (m : M S A) (k : A → M S B) :
  hoare P m R → (∀ a, hoare R (k a) Q) → (∀ s, R s → Q s) → hoare P (m ≫= k) Q.
Proof.
  intros Hm Hk HRQ s w Hs. specialize (Hm s w Hs).
  unfold mbind, M_bind, bind, final in *.
  destruct (m s w) as [[[a|e|] s'] w']; simpl in *; [by apply Hk|by apply HRQ..].
Qed.

Section AttackerBookkeeping.

Import AttackAgent.

Variables (fuel : nat) (self : Agent).

(** [update_counters] counts the turn and leaves the flee history alone. *)
Lemma attacker_update_counters_turn gs s w :
  let s1 := final (update_counters self gs s w) in
  turn_counter s1 = turn_counter s + 1 ∧ has_fled s1 = has_fled s.
Proof.
  intros s1. subst s1. unfold update_counters. rewrite run_modify_bind.
  set (keep := λ x : State, turn_counter x = turn_counter s + 1 ∧ has_fled x = has_fled s).
  apply (preserves_run keep); [|by destruct s].
  subst keep. frame.
Qed.

(** The scan for a threatening opponent of [decide_action_in_enemy_field]. *)
Lemma threat_scan gs (pos : option Pos) here (l : list nat) found (s : State) w :
  pos = Some here →
  (∀ i, i ∈ l → i ∈ get_opponents self gs) →
  ∃ o,
    for_each (λ (found : option Z) agent_index,
      match found with
      | Some d => mret (Some d)
      | None =>
          match get_agent_position gs agent_index with
          | Some enemy_position =>
              if negb (in_our_field self enemy_position gs) then
                here ← as_pos pos;
                if decide (get_maze_distance gs here enemy_position
                           < DISTANCE_FROM_ENEMY_TO_FLEE)
                then mret (Some (get_maze_distance gs here enemy_position))
                else mret None
              else mret None
          | None => mret None
          end
      end) found l s w = (Ok o, s, w)
    ∧ ∀ d, o = Some d →
        found = Some d ∨ threatened self gs DISTANCE_FROM_ENEMY_TO_FLEE here.
Proof.
  intros ->. revert found. induction l as [|i l IH]; intros found Hl; simpl.
  { exists found. split; [done|]. by left. }
  assert (∀ j, j ∈ l → j ∈ get_opponents self gs) as Hl' by (intros; apply Hl; by right).
  destruct found as [d0|].
  { autorewrite with run. destruct (IH (Some d0) Hl') as (o & Heq & Ho).
    exists o. split; [exact Heq|]. intros d Hd. destruct (Ho d Hd) as [?|?]; auto. }
  destruct (get_agent_position gs i) as [enemy|] eqn:Hpos; cycle 1.
  { autorewrite with run. destruct (IH None Hl') as (o & Heq & Ho).
    exists o. split; [exact Heq|]. intros d Hd. destruct (Ho d Hd) as [?|?]; [done|auto]. }
  destruct (in_our_field self enemy gs) eqn:Hfield; simpl.
  { autorewrite with run. destruct (IH None Hl') as (o & Heq & Ho).
    exists o. split; [exact Heq|]. intros d Hd. destruct (Ho d Hd) as [?|?]; [done|auto]. }
  autorewrite with run. case_decide as Hd; autorewrite with run.
  - destruct (IH (Some (get_maze_distance gs here enemy)) Hl') as (o & Heq & Ho).
    exists o. split; [exact Heq|]. intros d Hdo. right.
    exists i, enemy. split_and!; [apply Hl; left|done..].
  - destruct (IH None Hl') as (o & Heq & Ho).
    exists o. split; [exact Heq|]. intros d Hdo. destruct (Ho d Hdo) as [?|?]; [done|auto].
Qed.

(** The flee branch records the turn, once, unless the flee point could
    not be computed. *)
Lemma flee_records gs d s w :
  let s' := final (flee fuel self gs d s w) in
  turn_counter s' = turn_counter s
  ∧ turns_with_capsule_effect s' = turns_with_capsule_effect s
  ∧ (has_fled s' = has_fled s ∨ has_fled s' = has_fled s ++ [turn_counter s]).
Proof.
  intros s'. subst s'. unfold flee. rewrite run_lift_bind.
  destruct (get_closest_point_in_our_field self gs () w) as [[[flee_point|e|] []] w1];
    [|by auto..].
  rewrite run_log_bind, run_modify_bind.
  set (keep := λ x : State,
         turn_counter x = turn_counter s
         ∧ turns_with_capsule_effect x = turns_with_capsule_effect s
         ∧ has_fled x = has_fled s ++ [turn_counter s]).
  match goal with
  | |- context [final (?m ?s1 ?w1)] =>
      destruct (preserves_run keep m s1 w1) as (Ht & Hc & Hf); [|by destruct s|]
  end.
  { subst keep. frame. }
  auto.
Qed.

(** What the part of a turn after [update_counters] does to the turn
    counter and the flee history. *)
Lemma attacker_decision_flight gs s w :
  let s' :=
    final ((s ← get;
            return_now ←
              (if decide (FOOD_EATEN_TO_RETURN < food_eaten s) then mret true
               else foods ← lift (get_food_positions_enemy self gs);
                    mret (bool_decide (length foods = 0%nat)));
            if return_now : bool then decide_action_return fuel self gs
            else
              here ← as_pos (get_our_position self gs);
              if in_our_field self here gs then decide_action_attack fuel self gs
              else decide_action_in_enemy_field fuel self gs) s w) in
  turn_counter s' = turn_counter s
  ∧ (has_fled s' = has_fled s
     ∨ (has_fled s' = has_fled s ++ [turn_counter s]
        ∧ turns_with_capsule_effect s' = 0
        ∧ ∃ here, get_our_position self gs = Some here
                  ∧ in_our_field self here gs = false
                  ∧ threatened self gs DISTANCE_FROM_ENEMY_TO_FLEE here)).
Proof.
  set (P := λ x : State, turn_counter x = turn_counter s ∧ has_fled x = has_fled s).
  set (Q := λ x : State,
         turn_counter x = turn_counter s
         ∧ (has_fled x = has_fled s
            ∨ (has_fled x = has_fled s ++ [turn_counter s]
               ∧ turns_with_capsule_effect x = 0
               ∧ ∃ here, get_our_position self gs = Some here
                         ∧ in_our_field self here gs = false
                         ∧ threatened self gs DISTANCE_FROM_ENEMY_TO_FLEE here))).
  assert (∀ x, P x → Q x) as HPQ by (intros x [? ?]; split; auto).
  assert (preserves P (decide_action_attack fuel self gs)) as Hatt
    by (apply decide_action_attack_frame; intros ? [] ?; done).
  assert (preserves P (decide_action_return fuel self gs)) as Hret
    by apply decide_action_return_frame.
  simpl.
  match goal with
  | |- context [final (?m s w)] =>
      cut (hoare P m Q); [intros Hm; by apply (Hm s w)|]
  end.
  apply hoare_bind_frame; [subst P; frame| |done]. intros x.
  apply hoare_bind_frame; [subst P; frame| |done]. intros [|].
  { by apply hoare_frame. }
  destruct (get_our_position self gs) as [here|] eqn:Hhere; cycle 1.
  { apply hoare_frame; [subst P; frame|done]. }
  intros y w' Hy. rewrite run_as_pos_bind.
  destruct (in_our_field self here gs) eqn:Hfield; [by apply HPQ, Hatt|].
  unfold decide_action_in_enemy_field. rewrite run_get_bind.
  destruct Hy as [Hy1 Hy2].
  case_decide as Hcap; cycle 1.
  { autorewrite with run. apply HPQ, Hatt. by split. }
  rewrite run_bind.
  destruct (threat_scan gs (get_our_position self gs) here (get_opponents self gs) None y w'
              Hhere (λ _ H, H)) as (o & Heq & Ho).
  rewrite Heq. destruct o as [d|]; [|apply HPQ, Hatt; by split].
  destruct (Ho d eq_refl) as [?|Hthreat]; [done|].
  destruct (flee_records gs d y w') as (Ht & Hc & Hf). subst Q. simpl.
  rewrite Ht, Hc. split; [done|]. destruct Hf as [->| ->]; [by left|].
  right. rewrite Hy1, Hy2. split_and!; [done..|]. by exists here.
Qed.

(** The same for a whole turn. *)
Lemma attacker_turn_flight gs s w :
  let s' := final (choose_action fuel self gs s w) in
  turn_counter s' = turn_counter s + 1
  ∧ (has_fled s' = has_fled s
     ∨ (has_fled s' = has_fled s ++ [turn_counter s']
        ∧ turns_with_capsule_effect s' = 0
        ∧ ∃ here, get_our_position self gs = Some here
                  ∧ in_our_field self here gs = false
                  ∧ threatened self gs DISTANCE_FROM_ENEMY_TO_FLEE here)).
Proof.
  intros s'. subst s'.
  destruct (attacker_update_counters_turn gs s w) as [Ht Hf].
  unfold choose_action. rewrite run_bind.
  destruct (update_counters self gs s w) as [[[[]|e|] s1] w1];
    unfold final in Ht, Hf; simpl in Ht, Hf;
    [|unfold final; simpl; rewrite Ht, Hf; by auto..].
  destruct (attacker_decision_flight gs s1 w1) as [Ht' Hf']. simpl in Ht', Hf'.
  rewrite Ht', Ht. split; [done|]. by rewrite <- Hf, <- Ht.
Qed.

(** ** The window of the mini-retreat *)

Lemma attacker_update_counters_window gs s w :
  let s1 := final (update_counters self gs s w) in
  turns_has_to_flee s1 = 0
  ∨ (turns_has_to_flee s1 = turns_has_to_flee s - 1 ∧ 0 < turns_has_to_flee s)
  ∨ (turns_has_to_flee s1 = turns_has_to_flee s ∧ turns_has_to_flee s ≤ 0).
Proof.
  intros s1. subst s1. unfold update_counters.
  rewrite run_modify_bind, run_get_bind.
  set (keep v := λ x : State, turns_has_to_flee x = v ∨ turns_has_to_flee x = 0).
  case_decide as Hpos; autorewrite with run;
    match goal with
    | |- context [final (?m ?s1 ?w1)] =>
        destruct (preserves_run (keep (turns_has_to_flee s1)) m s1 w1) as [Hk|Hk];
          [subst keep; frame|by left|..]
    end; destruct s; simpl in *; auto with lia.
Qed.

Lemma mini_retreat_window gs s w :
  let s' := final (mini_retreat fuel self gs s w) in
  turns_has_to_flee s' = turns_has_to_flee s ∨ turns_has_to_flee s' = TURNS_HAS_TO_FLEE.
Proof.
  intros s'. subst s'. unfold mini_retreat.
  set (keep v := λ x : State, turns_has_to_flee x = v).
  rewrite run_lift_bind.
  destruct (get_food_positions_ours self gs () w) as [[[ours|e|] []] w1]; [|by left..].
  case_decide; [by left|].
  rewrite run_bind.
  pose proof (preserves_run (keep (turns_has_to_flee s)) (get_fleeing_point fuel self gs) s w1
                (get_fleeing_point_frame fuel self _ gs) eq_refl) as Hpoint.
  destruct (get_fleeing_point fuel self gs s w1) as [[[point|e|] s2] w2];
    unfold final in Hpoint; simpl in Hpoint; [|by left..].
  rewrite !run_modify_bind, run_log_bind. right.
  apply (preserves_run (keep TURNS_HAS_TO_FLEE)); [|done].
  apply first_move_towards_frame.
Qed.

Lemma decide_action_attack_window gs s w :
  let s' := final (decide_action_attack fuel self gs s w) in
  turns_has_to_flee s' = turns_has_to_flee s
  ∨ (turns_has_to_flee s' = TURNS_HAS_TO_FLEE ∧ turns_has_to_flee s ≤ 0).
Proof.
  intros s'. subst s'. unfold decide_action_attack.
  set (P := λ x : State, turns_has_to_flee x = turns_has_to_flee s).
  set (Q := λ x : State,
         turns_has_to_flee x = turns_has_to_flee s
         ∨ (turns_has_to_flee x = TURNS_HAS_TO_FLEE ∧ turns_has_to_flee s ≤ 0)).
  match goal with
  | |- context [final (?m s w)] =>
      cut (hoare P m Q); [intros Hm; by apply (Hm s w)|]
  end.
  apply hoare_bind_frame; [subst P; frame| |by left]. intros x.
  apply hoare_bind_frame; [subst P; frame| |by left]. intros [].
  intros y w' Hy. rewrite run_get_bind.
  destruct (first_actions y) as [|next rest].
  - case_decide as Hpos.
    + left. apply (preserves_run P); [|exact Hy].
      pose proof (get_fleeing_point_frame fuel self P).
      pose proof (first_move_towards_frame fuel self P).
      subst P. frame.
    + rewrite run_bind.
      pose proof (preserves_run P (has_been_fleeing_too_much self gs) y w') as Hkeep.
      destruct (has_been_fleeing_too_much self gs y w') as [[[too_much|e|] y1] w1];
        unfold final in Hkeep |- *; simpl in Hkeep |- *;
        [|left; apply Hkeep; [apply has_been_fleeing_too_much_frame; by intros ? []|done]..].
      assert (P y1) as Hy1
        by (apply Hkeep; [apply has_been_fleeing_too_much_frame; by intros ? []|done]).
      destruct too_much.
      * destruct (mini_retreat_window gs y1 w1) as [Hm|Hm]; simpl in Hm.
        -- left. unfold P in *. unfold final in Hm. congruence.
        -- right. unfold P in *. unfold final in Hm. split; [done|lia].
      * left. apply (preserves_run P); [|exact Hy1]. apply attack_closest_food_frame.
  - left. autorewrite with run. rewrite final_lift. by destruct y.
Qed.

Lemma attacker_decision_window gs s w :
  let s' :=
    final ((s ← get;
            return_now ←
              (if decide (FOOD_EATEN_TO_RETURN < food_eaten s) then mret true
               else foods ← lift (get_food_positions_enemy self gs);
                    mret (bool_decide (length foods = 0%nat)));
            if return_now : bool then decide_action_return fuel self gs
            else
              here ← as_pos (get_our_position self gs);
              if in_our_field self here gs then decide_action_attack fuel self gs
              else decide_action_in_enemy_field fuel self gs) s w) in
  turns_has_to_flee s' = turns_has_to_flee s
  ∨ (turns_has_to_flee s' = TURNS_HAS_TO_FLEE ∧ turns_has_to_flee s ≤ 0).
Proof.
  set (P := λ x : State, turns_has_to_flee x = turns_has_to_flee s).
  set (Q := λ x : State,
         turns_has_to_flee x = turns_has_to_flee s
         ∨ (turns_has_to_flee x = TURNS_HAS_TO_FLEE ∧ turns_has_to_flee s ≤ 0)).
  assert (hoare P (decide_action_attack fuel self gs) Q) as Hatt.
  { intros x w' Hx. unfold Q, P in *. rewrite <- Hx. apply decide_action_attack_window. }
  assert (∀ d, preserves P (flee fuel self gs d)) as Hflee
    by (intros; apply flee_frame; intros ? [] ?; done).
  assert (preserves P (decide_action_return fuel self gs)) as Hret
    by apply decide_action_return_frame.
  simpl.
  match goal with
  | |- context [final (?m s w)] =>
      cut (hoare P m Q); [intros Hm; by apply (Hm s w)|]
  end.
  apply hoare_bind_frame; [subst P; frame| |by left]. intros x.
  apply hoare_bind_frame; [subst P; frame| |by left]. intros [|].
  { apply hoare_frame; [done|by left]. }
  apply hoare_bind_frame; [subst P; frame| |by left]. intros here.
  destruct (in_our_field self here gs); [done|].
  unfold decide_action_in_enemy_field.
  apply hoare_bind_frame; [subst P; frame| |by left]. intros x'.
  apply hoare_bind_frame; [subst P; frame| |by left]. intros [d|]; [|done].
  apply hoare_frame; [done|by left].
Qed.

Lemma attacker_turn_window gs s w :
  let s' := final (choose_action fuel self gs s w) in
  turns_has_to_flee s' = 0
  ∨ turns_has_to_flee s' = TURNS_HAS_TO_FLEE
  ∨ (turns_has_to_flee s' = turns_has_to_flee s - 1 ∧ 0 < turns_has_to_flee s)
  ∨ (turns_has_to_flee s' = turns_has_to_flee s ∧ turns_has_to_flee s ≤ 0).
Proof.
  intros s'. subst s'.
  pose proof (attacker_update_counters_window gs s w) as Hupd. simpl in Hupd.
  unfold choose_action. rewrite run_bind.
  destruct (update_counters self gs s w) as [[[[]|e|] s1] w1];
    unfold final in Hupd; simpl in Hupd; [|unfold final; simpl; tauto..].
  destruct (attacker_decision_window gs s1 w1) as [Hd|[Hd _]]; simpl in Hd;
    rewrite Hd; tauto.
Qed.

Lemma attacker_window_range s :
  attacker_reachable fuel self s → 0 ≤ turns_has_to_flee s ≤ TURNS_HAS_TO_FLEE.
Proof.
  induction 1 as [gs w|s gs w _ IH].
  - unfold register_initial_state. rewrite run_lift_bind.
    destruct (get_food_positions_enemy self gs () w) as [[[foods|e|] []] w'];
      autorewrite with run; unfold final; simpl; unfold TURNS_HAS_TO_FLEE; lia.
  - pose proof (attacker_turn_window gs s w) as Hstep. simpl in Hstep.
    unfold TURNS_HAS_TO_FLEE in *. lia.
Qed.

(** ** The count of eaten food *)

Lemma attacker_update_counters_food gs s w :
  let s1 := final (update_counters self gs s w) in
  food_step self gs (food_eaten s) (food_in_last_turn s)
    (food_eaten s1) (food_in_last_turn s1).
Proof.
  intros s1. subst s1. unfold update_counters.
  set (P0 := λ x : State,
         food_in_last_turn x = food_in_last_turn s ∧ food_eaten x = food_eaten s).
  set (P1 := λ x : State,
         food_in_last_turn x = food_in_last_turn s
         ∧ (food_eaten x = food_eaten s ∨ (food_eaten x = 0 ∧ at_home self gs))).
  set (Q := λ x : State,
         food_step self gs (food_eaten s) (food_in_last_turn s)
           (food_eaten x) (food_in_last_turn x)).
  assert (∀ x, P0 x → Q x) as H0Q by (intros x [? ?]; left; auto).
  assert (∀ x, P1 x → Q x) as H1Q by (intros x [? ?]; left; auto).
  match goal with
  | |- context [final (?m s w)] =>
      cut (hoare P0 m Q); [intros Hm; by apply (Hm s w)|]
  end.
  apply hoare_bind_frame; [subst P0; frame| |done]. intros [].
  apply hoare_bind_frame; [subst P0; frame| |done]. intros x1.
  apply hoare_bind_frame; [subst P0; frame| |done]. intros [].
  apply hoare_bind_frame; [subst P0; frame| |done]. intros x2.
  apply hoare_bind_frame; [subst P0; frame| |done]. intros [].
  apply hoare_bind_frame; [subst P0; frame| |done]. intros x3.
  apply hoare_bind_frame; [subst P0; frame| |done]. intros [].
  destruct (get_our_position self gs) as [here|] eqn:Hhere; cycle 1.
  { apply hoare_frame; [subst P0; frame|done]. }
  intros y w' Hy. rewrite run_as_pos_bind. revert y w' Hy.
  change (hoare P0 ((if in_our_field self here gs
                     then modify (set_food_eaten 0) else modify (set_first_actions []))
                    ≫= λ _ : (),
                      s ← get;
                      (if already_randomized s
                          && bool_decide (Some here = Some (get_my_initial_position self gs))
                       then logging_info LogKilled;;
                            modify (set_first_actions []);;
                            modify (set_turns_has_to_flee 0)
                       else mret ());;
                      foods ← lift (get_food_positions_enemy self gs);
                      s ← get;
                      if decide (Z.of_nat (length foods) < food_in_last_turn s)
                      then modify (set_food_in_last_turn (Z.of_nat (length foods)));;
                           modify (set_food_eaten (food_eaten s + 1));;
                           logging_info (LogAteFood (food_eaten s + 1))
                      else mret ()) Q).
  apply (hoare_bind _ P1); [| |done].
  { destruct (in_our_field self here gs) eqn:Hfield; intros y w' [Hy1 Hy2];
      unfold final; destruct y; simpl in *; (split; [done|]).
    - right. split; [done|]. by exists here.
    - by left. }
  intros [].
  apply hoare_bind_frame; [subst P1; frame| |done]. intros x4.
  apply hoare_bind_frame; [subst P1; frame| |done]. intros [].
  apply hoare_bind_frame; [subst P1; frame| |done]. intros foods.
  intros y w' [Hy1 Hy2]. rewrite run_get_bind. unfold Q, food_step.
  case_decide as Hlt; autorewrite with run; unfold final; destruct y; simpl in *.
  - right. split; [lia|]. destruct Hy2 as [->|[-> ?]]; auto.
  - left. auto.
Qed.

Lemma attacker_turn_food gs s w :
  let s' := final (choose_action fuel self gs s w) in
  food_step self gs (food_eaten s) (food_in_last_turn s)
    (food_eaten s') (food_in_last_turn s').
Proof.
  intros s'. subst s'.
  pose proof (attacker_update_counters_food gs s w) as Hupd. simpl in Hupd.
  unfold choose_action. rewrite run_bind.
  destruct (update_counters self gs s w) as [[[[]|e|] s1] w1]; [|exact Hupd..].
  unfold final in Hupd. simpl in Hupd.
  set (keep := λ x : State, food_eaten x = food_eaten s1
                            ∧ food_in_last_turn x = food_in_last_turn s1).
  match goal with
  | |- context [final (?m ?s1 ?w1)] =>
      destruct (preserves_run keep m s1 w1) as [He Hl]; [|done|]
  end.
  { pose proof (decide_action_return_frame fuel self keep).
    assert (preserves keep (decide_action_attack fuel self gs)) as Hatt
      by (apply decide_action_attack_frame; intros ? [] ?; done).
    assert (preserves keep (decide_action_in_enemy_field fuel self gs))
      by (apply decide_action_in_enemy_field_frame; intros ? [] ?; done).
    subst keep. frame. }
  rewrite He, Hl. exact Hupd.
Qed.

Lemma attacker_food_range s :
  attacker_reachable fuel self s → 0 ≤ food_eaten s ∧ 0 ≤ food_in_last_turn s.
Proof.
  induction 1 as [gs w|s gs w _ IH].
  - unfold register_initial_state. rewrite run_lift_bind.
    destruct (get_food_positions_enemy self gs () w) as [[[foods|e|] []] w'];
      autorewrite with run; unfold final; simpl; lia.
  - pose proof (attacker_turn_food gs s w) as Hstep. simpl in Hstep.
    unfold food_step in Hstep. lia.
Qed.

End AttackerBookkeeping.

(** X12. Every turn of the attacker, however it ends, adds exactly one to
    the turn counter.  The flee history is never shortened or rewritten:
    a turn leaves it as it is or appends the new turn number, once; and
    it appends only on a turn that ends with the power-up counter at 0,
    with the attacker seen outside its own field and a visible opponent,
    itself outside the attacker's field, at a maze distance below 6. *)
Theorem attacker_turn_is_counted (fuel : nat) (self : Agent) (gs : GameState)
    (s : AttackAgent.State) (w : World) :
  let s' := final (AttackAgent.choose_action fuel self gs s w) in
  AttackAgent.turn_counter s' = AttackAgent.turn_counter s + 1
  ∧ (AttackAgent.has_fled s' = AttackAgent.has_fled s
     ∨ (AttackAgent.has_fled s' = AttackAgent.has_fled s ++ [AttackAgent.turn_counter s']
        ∧ AttackAgent.turns_with_capsule_effect s' = 0
        ∧ ∃ here, get_our_position self gs = Some here
                  ∧ in_our_field self here gs = false
                  ∧ threatened self gs AttackAgent.DISTANCE_FROM_ENEMY_TO_FLEE here)).
Proof. apply attacker_turn_flight. Qed.

(** X13. The window of the mini-retreat lies between 0 and 6 in every
    state the attacker can reach; over one turn, however it ends, it is
    set to 0, set to 6, decreased by exactly one from a positive value,
    or left at a value that is not positive. *)
Theorem attacker_flee_window_steps :
  (∀ fuel self s, attacker_reachable fuel self s →
     0 ≤ AttackAgent.turns_has_to_flee s ≤ AttackAgent.TURNS_HAS_TO_FLEE)
  ∧ (∀ fuel self gs s w,
       window_step (AttackAgent.turns_has_to_flee s)
         (AttackAgent.turns_has_to_flee
            (final (AttackAgent.choose_action fuel self gs s w)))).
Proof.
  split.
  - apply attacker_window_range.
  - intros fuel self gs s w. apply attacker_turn_window.
Qed.

(** X14. The attacker's count of eaten food and the remembered number of
    enemy food positions are never negative in a state the attacker can
    reach.  Over one turn, however it ends, the remembered number never
    goes up; the count goes up by one exactly when the remembered number
    drops (by whatever amount), and it is reset to 0 beforehand only when
    the attacker is seen inside its own field. *)
Theorem attacker_food_count_steps :
  (∀ fuel self s, attacker_reachable fuel self s →
     0 ≤ AttackAgent.food_eaten s ∧ 0 ≤ AttackAgent.food_in_last_turn s)
  ∧ (∀ fuel self gs s w,
       let s' := final (AttackAgent.choose_action fuel self gs s w) in
       food_step self gs (AttackAgent.food_eaten s) (AttackAgent.food_in_last_turn s)
         (AttackAgent.food_eaten s') (AttackAgent.food_in_last_turn s')).
Proof.
  split.
  - apply attacker_food_range.
  - intros fuel self gs s w. apply attacker_turn_food.
Qed.

(** * The defender's bookkeeping *)

Section DefenderBookkeeping.

Import DefendAgent.

Variables (fuel : nat) (self : Agent).

(** Once the opening has been planned, [update_counters] leaves the
    opening queue, the goal and the patrol points alone. *)
Lemma defender_update_counters_opening gs s w g :
  initial_goal s = Some g →
  let s1 := final (update_counters fuel self gs s w) in
  initial_goal s1 = Some g ∧ initial_actions s1 = initial_actions s
  ∧ patrol_point_1 s1 = patrol_point_1 s ∧ patrol_point_2 s1 = patrol_point_2 s
  ∧ last_patrolled_point s1 = last_patrolled_point s.
Proof.
  intros Hg s1. subst s1. unfold update_counters. rewrite run_get_bind, Hg.
  set (keep := λ x : State,
         initial_goal x = Some g ∧ initial_actions x = initial_actions s
         ∧ patrol_point_1 x = patrol_point_1 s ∧ patrol_point_2 x = patrol_point_2 s
         ∧ last_patrolled_point x = last_patrolled_point s).
  apply (preserves_run keep); [|done].
  subst keep. frame.
Qed.

Lemma defender_turn_opening gs s w g :
  initial_goal s = Some g →
  let r := choose_action fuel self gs s w in
  initial_goal (final r) = Some g
  ∧ (initial_actions (final r) = initial_actions s
     ∨ ∃ a, initial_actions s = a :: initial_actions (final r) ∧ result r = Ok a)
  ∧ (∀ a rest, initial_actions s = a :: rest →
       result (update_counters fuel self gs s w) = Ok () →
       result r = Ok a ∧ initial_actions (final r) = rest).
Proof.
  intros Hg r. subst r.
  destruct (defender_update_counters_opening gs s w g Hg) as (Hg1 & Ha1 & _).
  unfold choose_action. rewrite run_bind.
  destruct (update_counters fuel self gs s w) as [[[[]|e|] s1] w1];
    unfold final in Hg1, Ha1; simpl in Hg1, Ha1;
    [|unfold final, result; simpl; split_and!; [done|by left|done]..].
  rewrite run_get_bind. destruct (initial_actions s1) as [|next rest] eqn:Hq.
  - set (keep := λ x : State, initial_goal x = Some g ∧ initial_actions x = []).
    match goal with
    | |- context [final (?m s1 w1)] =>
        destruct (preserves_run keep m s1 w1) as [H1 H2]; [|done|]
    end.
    { assert (∀ gs, preserves keep (do_vertical_patrol fuel self gs))
        by (intros; apply do_vertical_patrol_frame; intros ? [] ?; done).
      assert (∀ e gs, preserves keep (decide_action_enemy_close_in_our_field fuel self e gs))
        by (intros; apply decide_action_enemy_close_in_our_field_frame; intros ? [] ?; done).
      subst keep. frame. }
    split_and!; [done|left; congruence|]. intros a rest' Hs. congruence.
  - autorewrite with run. unfold final, result. simpl.
    split_and!; [by destruct s1|right|].
    + exists next. split; [|done]. rewrite <- Ha1. by destruct s1.
    + intros a rest' Hs _. rewrite <- Ha1 in Hs. injection Hs as -> ->. by destruct s1.
Qed.

(** What [update_counters] does to the remembered food and to the
    position of the food seen eaten. *)
Lemma defender_update_counters_food gs s w g last :
  initial_goal s = Some g →
  food_positions_in_last_turn s = Some last →
  let r := update_counters fuel self gs s w in
  match get_food_positions_ours self gs () w with
  | (Ok ours, _, _) =>
      result r = Ok ()
      ∧ food_positions_in_last_turn (final r) = Some (list_to_set ours)
      ∧ match elements (last ∖ list_to_set ours) with
        | [] => eaten_food_position (final r) = eaten_food_position s
        | e :: _ => eaten_food_position (final r) = Some e
        end
  | (o, _, _) => final r = s ∧ result r ≠ Ok ()
  end.
Proof.
  intros Hg Hlast r. subst r. unfold update_counters.
  rewrite run_get_bind, Hg. autorewrite with run. rewrite run_lift_bind.
  destruct (get_food_positions_ours self gs () w) as [[[ours|e|] []] w1]; [|done..].
  rewrite run_get_bind, Hlast. autorewrite with run.
  destruct (elements (last ∖ list_to_set ours)) as [|eaten rest]; autorewrite with run;
    repeat (case_decide; autorewrite with run); unfold final, result; by destruct s.
Qed.

End DefenderBookkeeping.

(** X15. Once the defender's opening goal is set it is never changed, and
    the queue of opening moves is only drained: a turn leaves the queue as
    it is or removes its first move and returns that move; whenever the
    queue is not empty and [update_counters] returns, the turn returns
    the first queued move, as it is, and removes it. *)
Theorem defender_opening_queue_is_drained (fuel : nat) (self : Agent) (gs : GameState)
    (s : DefendAgent.State) (w : World) (g : Pos) :
  DefendAgent.initial_goal s = Some g →
  let r := DefendAgent.choose_action fuel self gs s w in
  DefendAgent.initial_goal (final r) = Some g
  ∧ (DefendAgent.initial_actions (final r) = DefendAgent.initial_actions s
     ∨ ∃ a, DefendAgent.initial_actions s = a :: DefendAgent.initial_actions (final r)
            ∧ result r = Ok a)
  ∧ (∀ a rest, DefendAgent.initial_actions s = a :: rest →
       result (DefendAgent.update_counters fuel self gs s w) = Ok () →
       result r = Ok a ∧ DefendAgent.initial_actions (final r) = rest).
Proof. apply defender_turn_opening. Qed.

Lemma defender_opening_queue_is_drained_witness :
  let r := DefendAgent.choose_action 200 (DefendAgent.agent 0 true) (defender_board (4, 3))
             defender_in_opening quiet_world in
  DefendAgent.initial_goal (final r) = Some (2, 2)
  ∧ (DefendAgent.initial_actions (final r) = DefendAgent.initial_actions defender_in_opening
     ∨ ∃ a, DefendAgent.initial_actions defender_in_opening
            = a :: DefendAgent.initial_actions (final r)
            ∧ result r = Ok a)
  ∧ (∀ a rest, DefendAgent.initial_actions defender_in_opening = a :: rest →
       result (DefendAgent.update_counters 200 (DefendAgent.agent 0 true)
                 (defender_board (4, 3)) defender_in_opening quiet_world) = Ok () →
       result r = Ok a ∧ DefendAgent.initial_actions (final r) = rest).
Proof.
  apply (defender_opening_queue_is_drained 200 (DefendAgent.agent 0 true)
           (defender_board (4, 3)) defender_in_opening quiet_world (2, 2)).
  reflexivity.
Defined.

(** X16. After the opening has been planned, a run of the defender's
    [update_counters] on a board whose own food is listed as [ours]
    returns and remembers exactly the set of [ours].  The position of the
    food seen eaten is left as it was when every remembered position is
    still listed; otherwise it is set to a position that was remembered
    and is not listed any more. *)
Theorem defender_tracks_eaten_food (fuel : nat) (self : Agent) (gs : GameState)
    (s : DefendAgent.State) (w : World) (g : Pos) (last : gset Pos) (ours : list Pos) :
  DefendAgent.initial_goal s = Some g →
  DefendAgent.food_positions_in_last_turn s = Some last →
  lists_food self gs get_food_positions_ours ours →
  let r := DefendAgent.update_counters fuel self gs s w in
  result r = Ok ()
  ∧ DefendAgent.food_positions_in_last_turn (final r) = Some (list_to_set ours)
  ∧ ((last ⊆ list_to_set ours
      ∧ DefendAgent.eaten_food_position (final r) = DefendAgent.eaten_food_position s)
     ∨ (∃ e, DefendAgent.eaten_food_position (final r) = Some e ∧ e ∈ last ∧ e ∉ ours)).
Proof.
  intros Hg Hlast Hours r.
  pose proof (defender_update_counters_food fuel self gs s w g last Hg Hlast) as Hrun.
  simpl in Hrun. rewrite Hours in Hrun. destruct Hrun as (Hres & Hfood & Heaten).
  split_and!; [done..|].
  destruct (elements (last ∖ list_to_set ours)) as [|e rest] eqn:Hel.
  - left. split; [|done]. apply elements_empty_inv in Hel.
    intros p Hp. destruct (decide (p ∈ (list_to_set ours : gset Pos))) as [|Hn]; [done|].
    exfalso. assert (p ∈ last ∖ list_to_set ours) as Hin by set_solver.
    rewrite Hel in Hin. set_solver.
  - right. exists e. split; [done|].
    assert (e ∈ last ∖ list_to_set ours) as Hin.
    { apply elem_of_elements. rewrite Hel. left. }
    set_solver.
Qed.

Lemma defender_tracks_eaten_food_witness :
  let r := DefendAgent.update_counters 200 (DefendAgent.agent 0 true) (defender_board (4, 3))
             defender_in_opening quiet_world in
  result r = Ok ()
  ∧ DefendAgent.food_positions_in_last_turn (final r) = Some (list_to_set [(2, 2); (3, 4)])
  ∧ ((({[ (2, 2); (3, 4); (3, 3) ]} : gset Pos) ⊆ list_to_set [(2, 2); (3, 4)]
      ∧ DefendAgent.eaten_food_position (final r)
        = DefendAgent.eaten_food_position defender_in_opening)
     ∨ (∃ e, DefendAgent.eaten_food_position (final r) = Some e
             ∧ e ∈ ({[ (2, 2); (3, 4); (3, 3) ]} : gset Pos) ∧ e ∉ [(2, 2); (3, 4)])).
Proof.
  apply (defender_tracks_eaten_food 200 (DefendAgent.agent 0 true) (defender_board (4, 3))
           defender_in_opening quiet_world (2, 2)).
  - reflexivity.
  - reflexivity.
  - intros w. reflexivity.
Defined.

(** * Computations that do not raise a given exception *)

Section Guards.

Context {S : Type} (bad : PyError).

Lemma guards_weaken {A} (P P' Q Q' : S → Prop) (m : M S A) :
  guards bad P m Q → (∀ s, P' s → P s) → (∀ s, Q s → Q' s) → guards bad P' m Q'.
Proof. intros Hm HP HQ s w Hs. destruct (Hm s w (HP s Hs)). split; auto. Qed.

Lemma guards_ret {A} (I : S → Prop) (a : A) : guards bad I (mret a : M S A) I.
Proof. by intros s w Hs. Qed.

Lemma guards_raise {A} (I : S → Prop) e : e ≠ bad → guards bad I (raise e : M S A) I.
Proof. intros He s w Hs. split; [done|]. intros [= H]. by apply He. Qed.

Lemma guards_get (I : S → Prop) : guards bad I (get : M S S) I.
Proof. by intros s w Hs. Qed.

Lemma guards_log (I : S → Prop) m : guards bad I (logging_info m : M S unit) I.
Proof. by intros s w Hs. Qed.

Lemma guards_modify (P Q : S → Prop) f : (∀ s, P s → Q (f s)) → guards bad P (modify f) Q.
Proof. intros Hf s w Hs. split; [by apply Hf|done]. Qed.

Lemma guards_or_raise {A} (I : S → Prop) e (o : option A) :
  e ≠ bad → guards bad I (or_raise e o : M S A) I.
Proof. intros He s w Hs. destruct o; (split; [done|]); [done|]. intros [= H]. by apply He. Qed.

Lemma guards_or_out_of_fuel {A} (I : S → Prop) (o : option A) :
  guards bad I (or_out_of_fuel o : M S A) I.
Proof. intros s w Hs. by destruct o. Qed.

Lemma guards_unpack_pair (I : S → Prop) r :
  ValueError ≠ bad → guards bad I (unpack_pair r : M S _) I.
Proof. intros He s w Hs. destruct r; (split; [done|]); [done|]. intros [= H]. by apply He. Qed.

Lemma guards_random_choice {A} (I : S → Prop) (l : list A) :
  IndexError ≠ bad → guards bad I (random_choice l : M S A) I.
Proof.
  intros He s w Hs. unfold random_choice, final, result.
  destruct (l !! _); simpl; (split; [done|]); [done|]. intros [= H]. by apply He.
Qed.

Lemma guards_bind {A B} (P R Q : S → Prop) (m : M S A) (k : A → M S B) :
  guards bad P m R → (∀ a, guards bad R (k a) Q) → (∀ s, R s → Q s) →
  guards bad P (m ≫= k) Q.
Proof.
  intros Hm Hk HRQ s w Hs. destruct (Hm s w Hs) as [H1 H2].
  unfold mbind, M_bind, bind, final, result in *.
  destruct (m s w) as [[[a|e|] s'] w']; simpl in *.
  - exact (Hk a s' w' H1).
  - split; [by apply HRQ|]. intros [= ->]. by apply H2.
  - split; [by apply HRQ|done].
Qed.

Lemma guards_bind_frame {A B} (I : S → Prop) (m : M S A) (k : A → M S B) :
  guards bad I m I → (∀ a, guards bad I (k a) I) → guards bad I (m ≫= k) I.
Proof. intros Hm Hk. by apply (guards_bind I I I). Qed.

Lemma guards_for_each {A B} (I : S → Prop) (f : B → A → M S B) b l :
  (∀ b a, guards bad I (f b a) I) → guards bad I (for_each f b l) I.
Proof.
  intros Hf. revert b. induction l as [|x t IH]; intros b; simpl.
  - apply guards_ret.
  - apply guards_bind_frame; [apply Hf|apply IH].
Qed.

End Guards.

Lemma guards_lift {S A} bad (I : S → Prop) (m : Eff A) :
  guards bad (λ _, True) m (λ _, True) → guards bad I (lift m : M S A) I.
Proof.
  intros Hm s w Hs. destruct (Hm tt w Logic.I) as [_ H2].
  unfold lift, final, result in *. by destruct (m tt w) as [[o []] w'].
Qed.

(** One step of a proof that a computation keeps [I] and does not raise
    the exception: follow the shape of the computation. *)
Ltac guards_step :=
  lazymatch goal with
  | |- guards _ _ (mbind _ _) _ => apply guards_bind_frame; [|intros ?]
  | |- guards _ _ (mret _) _ => apply guards_ret
  | |- guards _ _ (raise _) _ => apply guards_raise; discriminate
  | |- guards _ _ get _ => apply guards_get
  | |- guards _ _ (logging_info _) _ => apply guards_log
  | |- guards _ _ (or_raise _ _) _ => apply guards_or_raise; discriminate
  | |- guards _ _ (as_pos _) _ => apply guards_or_raise; discriminate
  | |- guards _ _ (or_out_of_fuel _) _ => apply guards_or_out_of_fuel
  | |- guards _ _ (unpack_pair _) _ => apply guards_unpack_pair; discriminate
  | |- guards _ _ (random_choice _) _ => apply guards_random_choice; discriminate
  | |- guards _ _ (for_each _ _ _) _ => apply guards_for_each; intros ? ?
  | |- guards _ _ (modify _) _ =>
      apply guards_modify;
      first [ solve [eauto] | intros [] ?; simpl in *; solve [intuition (subst; auto)] ]
  | |- guards _ _ (lift _) _ => first [solve [eauto] | apply guards_lift]
  | |- guards _ _ (if ?c then _ else _) _ => destruct c eqn:?
  | |- guards _ _ (match ?x with _ => _ end) _ => destruct x eqn:?
  | |- guards _ _ ((match ?x with _ => _ end) _) _ => destruct x eqn:?
  | |- guards _ _ _ _ => solve [eauto]
  end.

Ltac guards_all := repeat guards_step.

(** * The goal of the vertical patrol *)

Section SharedGuarded.

Variables (fuel : nat) (ag : Agent) (gs : GameState).

Let T : unit → Prop := λ _, True.

Lemma scan_food_guarded g : guards goal_unbound T (scan_food g) T.
Proof. unfold scan_food. guards_all. Qed.

Lemma get_food_positions_ours_guarded :
  guards goal_unbound T (get_food_positions_ours ag gs) T.
Proof. pose proof scan_food_guarded. unfold get_food_positions_ours. guards_all. Qed.

Lemma get_initial_enemy_position_guarded :
  guards goal_unbound T (get_initial_enemy_position ag gs) T.
Proof. unfold get_initial_enemy_position. guards_all. Qed.

Lemma get_column_slice_guarded col offset :
  guards goal_unbound T (get_column_slice col gs offset) T.
Proof. unfold get_column_slice. guards_all. Qed.

Lemma search_guarded start goal : guards goal_unbound T (search fuel ag start goal gs) T.
Proof. unfold search. guards_all. Qed.

Lemma a_star_to_food_position_guarded :
  guards goal_unbound T
    (a_star_to_food_position fuel ag gs get_food_positions_ours false
       (Some get_initial_enemy_position)) T.
Proof.
  pose proof get_food_positions_ours_guarded. pose proof get_initial_enemy_position_guarded.
  pose proof search_guarded.
  unfold a_star_to_food_position. guards_all.
Qed.

End SharedGuarded.

Section DefenderGuarded.

Import DefendAgent.

Variables (fuel : nat) (self : Agent).

Lemma patrol_route_guarded I gs goal :
  guards goal_unbound I (patrol_route fuel self gs goal) I.
Proof. pose proof (search_guarded fuel self gs). unfold patrol_route. guards_all. Qed.

Lemma pursue_guarded I enemy gs : guards goal_unbound I (pursue fuel self enemy gs) I.
Proof. pose proof (search_guarded fuel self gs). unfold pursue. guards_all. Qed.

(** What [do_vertical_patrol] does once both patrol points are set and
    the defender's position is known. *)
Lemma do_vertical_patrol_run gs s w p1 p2 here :
  patrol_inv s →
  patrol_point_1 s = Some p1 → patrol_point_2 s = Some p2 →
  get_our_position self gs = Some here →
  ∃ goal s1,
    do_vertical_patrol fuel self gs s w = patrol_route fuel self gs goal s1 w
    ∧ (goal = p1 ∨ goal = p2)
    ∧ (get_maze_distance gs here goal = 0 →
         get_maze_distance gs here p1 = 0 ∧ get_maze_distance gs here p2 = 0)
    ∧ (∃ v, s1 = set_last_patrolled_point v s)
    ∧ match last_patrolled_point s1 with
      | Some q => (q = p1 ∧ goal = p2) ∨ (q = p2 ∧ goal = p1)
      | None =>
          get_maze_distance gs here goal ≤ get_maze_distance gs here p1
          ∧ get_maze_distance gs here goal ≤ get_maze_distance gs here p2
      end.
Proof.
  intros [_ Hlast] H1 H2 Hhere. unfold do_vertical_patrol, patrol_route.
  rewrite run_get_bind, H1, H2, Hhere. autorewrite with run.
  assert (s = set_last_patrolled_point (last_patrolled_point s) s) as Hs by (by destruct s).
  destruct (decide (get_maze_distance gs here p1 = 0)) as [Hd1|Hd1];
    [|destruct (decide (get_maze_distance gs here p2 = 0)) as [Hd2|Hd2];
      [|destruct (decide (last_patrolled_point s = Some p1)) as [Hl1|Hl1];
        [|destruct (decide (last_patrolled_point s = Some p2)) as [Hl2|Hl2]]]];
    autorewrite with run.
  - exists p2, (set_last_patrolled_point (Some p1) s).
    split_and!; [done|by right|intros; by split|by eexists|destruct s; simpl; by left].
  - exists p1, (set_last_patrolled_point (Some p2) s).
    split_and!; [done|by left|lia|by eexists|destruct s; simpl; by right].
  - exists p2, s. split_and!; [done|by right|lia|by eexists|].
    rewrite Hl1. by left.
  - exists p1, s. split_and!; [done|by left|lia|by eexists|].
    rewrite Hl2. by right.
  - destruct (last_patrolled_point s) as [q|] eqn:Hq.
    { destruct (Hlast q eq_refl) as [Hq1|Hq2]; congruence. }
    case_decide; autorewrite with run.
    + exists p1, s. split_and!; [done|by left|lia|by eexists|]. rewrite Hq. lia.
    + exists p2, s. split_and!; [done|by right|lia|by eexists|]. rewrite Hq. lia.
Qed.

Lemma patrol_inv_set_last s p :
  patrol_inv s → patrol_point_1 s = Some p ∨ patrol_point_2 s = Some p →
  patrol_inv (set_last_patrolled_point (Some p) s).
Proof.
  intros [Hnone Hlast] Hp. split.
  - destruct s; simpl in *. intros Hg. destruct (Hnone Hg) as (? & ? & ?).
    destruct Hp; congruence.
  - destruct s; simpl in *. by intros q [= <-].
Qed.

Lemma do_vertical_patrol_guarded gs :
  guards goal_unbound patrol_inv (do_vertical_patrol fuel self gs) patrol_inv.
Proof.
  intros s w Hinv.
  destruct (patrol_point_1 s) as [p1|] eqn:H1, (patrol_point_2 s) as [p2|] eqn:H2.
  - destruct (get_our_position self gs) as [here|] eqn:Hhere.
    + destruct (do_vertical_patrol_run gs s w p1 p2 here Hinv H1 H2 Hhere)
        as (goal & s1 & -> & _ & _ & [v ->] & Hopp).
      apply patrol_route_guarded.
      destruct v as [q|].
      * destruct s; simpl in *.
        apply (patrol_inv_set_last _ q) in Hinv; [done|]. simpl.
        destruct Hopp as [[-> _]|[-> _]]; auto.
      * destruct Hinv as [Hnone Hlast]. split; destruct s; simpl in *; [|done].
        intros Hg. destruct (Hnone Hg) as (? & ? & ?). done.
    + unfold do_vertical_patrol. rewrite run_get_bind, H1, H2, Hhere. by split.
  - unfold do_vertical_patrol. rewrite run_get_bind, H1, H2.
    destruct (get_our_position self gs); by split.
  - unfold do_vertical_patrol. rewrite run_get_bind, H1, H2.
    destruct (get_our_position self gs); by split.
  - unfold do_vertical_patrol. rewrite run_get_bind, H1, H2. by split.
Qed.

Lemma decide_action_enemy_close_in_our_field_guarded enemy gs :
  guards goal_unbound patrol_inv
    (decide_action_enemy_close_in_our_field fuel self enemy gs) patrol_inv.
Proof.
  pose proof (pursue_guarded patrol_inv). pose proof do_vertical_patrol_guarded.
  unfold decide_action_enemy_close_in_our_field. guards_all.
Qed.

Lemma calculate_patrol_points_guarded gs :
  guards goal_unbound
    (λ s, patrol_inv s ∧ initial_goal s = None)
    (calculate_patrol_points fuel self gs) patrol_inv.
Proof.
  set (P0 := λ s : State, patrol_inv s ∧ initial_goal s = None).
  set (K := λ s : State, last_patrolled_point s = None ∧ initial_goal s ≠ None).
  assert (∀ s, P0 s → patrol_inv s) as HP0 by (by intros s [? _]).
  assert (∀ s, K s → patrol_inv s) as HK.
  { intros s [Hl Hg]. split; [done|]. intros p. by rewrite Hl. }
  pose proof (get_food_positions_ours_guarded self gs).
  pose proof (a_star_to_food_position_guarded fuel self gs).
  pose proof (search_guarded fuel self gs).
  pose proof (get_column_slice_guarded gs).
  unfold calculate_patrol_points.
  apply (guards_bind _ P0 P0); [by apply guards_lift| |done]. intros ours.
  case_decide; [|intros s w Hs; split; [by apply HP0|done]].
  apply (guards_bind _ P0 P0); [by apply guards_lift| |done]. intros [goal acts].
  apply (guards_bind _ _ K).
  { apply guards_modify. intros s [[Hnone _] Hg]. destruct (Hnone Hg) as (_ & _ & Hl).
    by destruct s. }
  2: done.
  intros []. eapply guards_weaken; [|intros ? Hx; exact Hx|exact HK].
  guards_all.
Qed.

Lemma defender_update_counters_guarded gs :
  guards goal_unbound patrol_inv (update_counters fuel self gs) patrol_inv.
Proof.
  pose proof (get_food_positions_ours_guarded self gs).
  assert (∀ v s, patrol_inv s → patrol_inv (set_food_positions_in_last_turn v s))
    by (by intros ? []).
  assert (∀ v s, patrol_inv s → patrol_inv (set_eaten_food_position v s))
    by (by intros ? []).
  assert (∀ v s, patrol_inv s → patrol_inv (set_turns_with_capsule_effect v s))
    by (by intros ? []).
  assert (∀ v s, patrol_inv s → patrol_inv (set_capsules_in_last_turn v s))
    by (by intros ? []).
  intros s w Hinv. unfold update_counters. rewrite run_get_bind.
  match goal with
  | |- context [(?m ≫= ?k) s w] =>
      assert (∀ a, guards goal_unbound patrol_inv (k a) patrol_inv) as Hk
        by (intros a; guards_all);
      assert (patrol_inv (final (m s w)) ∧ result (m s w) ≠ Raise goal_unbound) as [Hm1 Hm2]
  end.
  { destruct (initial_goal s) eqn:Hg; [done|].
    by apply calculate_patrol_points_guarded. }
  rewrite run_bind.
  match goal with
  | |- context [match ?r with _ => _ end] =>
      destruct r as [[[a|e|] s1] w1]; unfold final, result in Hm1, Hm2; simpl in Hm1, Hm2
  end.
  - by apply Hk.
  - split; [done|]. intros [= ->]. by apply Hm2.
  - by split.
Qed.

Lemma defender_choose_action_guarded gs :
  guards goal_unbound patrol_inv (choose_action fuel self gs) patrol_inv.
Proof.
  pose proof (search_guarded fuel self gs).
  pose proof defender_update_counters_guarded.
  pose proof do_vertical_patrol_guarded.
  pose proof decide_action_enemy_close_in_our_field_guarded.
  assert (∀ v s, patrol_inv s → patrol_inv (set_initial_actions v s))
    by (by intros ? []).
  assert (∀ v s, patrol_inv s → patrol_inv (set_eaten_food_position v s))
    by (by intros ? []).
  unfold choose_action. guards_all.
Qed.

Lemma defender_reachable_patrol_inv s : defender_reachable fuel self s → patrol_inv s.
Proof.
  induction 1 as [gs w|s gs w _ IH].
  - unfold register_initial_state. rewrite run_lift_bind.
    destruct (get_food_positions_ours self gs () w) as [[[foods|e|] []] w'];
      autorewrite with run; unfold final; simpl; by split.
  - by apply defender_choose_action_guarded.
Qed.

(** Outside the reachable states the name is read unbound. *)
Lemma do_vertical_patrol_unbound gs s w p1 p2 q here :
  patrol_point_1 s = Some p1 → patrol_point_2 s = Some p2 →
  last_patrolled_point s = Some q → q ≠ p1 → q ≠ p2 →
  get_our_position self gs = Some here →
  get_maze_distance gs here p1 ≠ 0 → get_maze_distance gs here p2 ≠ 0 →
  do_vertical_patrol fuel self gs s w = (Raise goal_unbound, s, w).
Proof.
  intros H1 H2 Hq Hq1 Hq2 Hhere Hd1 Hd2. unfold do_vertical_patrol.
  rewrite run_get_bind, H1, H2, Hhere. autorewrite with run.
  rewrite !decide_False by congruence. autorewrite with run. by rewrite Hq.
Qed.

End DefenderGuarded.

(** X17. In every state the defender can reach, a patrolled point is one
    of the two patrol points, and there is none before the opening goal is
    set; so neither a turn nor the vertical patrol reads the name [goal]
    unbound.  The attributes matter: with a patrolled point that is
    neither patrol point and the defender at a non-zero distance from
    both, the vertical patrol raises [UnboundLocalError]. *)
Theorem defender_patrol_goal_is_bound :
  (∀ fuel self s, defender_reachable fuel self s →
     patrol_inv s
     ∧ ∀ gs w,
         result (DefendAgent.choose_action fuel self gs s w) ≠ Raise goal_unbound
         ∧ result (DefendAgent.do_vertical_patrol fuel self gs s w) ≠ Raise goal_unbound)
  ∧ (∀ fuel self gs s w p1 p2 q here,
       DefendAgent.patrol_point_1 s = Some p1 → DefendAgent.patrol_point_2 s = Some p2 →
       DefendAgent.last_patrolled_point s = Some q → q ≠ p1 → q ≠ p2 →
       get_our_position self gs = Some here →
       get_maze_distance gs here p1 ≠ 0 → get_maze_distance gs here p2 ≠ 0 →
       DefendAgent.do_vertical_patrol fuel self gs s w = (Raise goal_unbound, s, w)).
Proof.
  split.
  - intros fuel self s Hreach.
    pose proof (defender_reachable_patrol_inv fuel self s Hreach) as Hinv.
    split; [done|]. intros gs w. split.
    + by apply defender_choose_action_guarded.
    + by apply do_vertical_patrol_guarded.
  - intros fuel self gs s w p1 p2 q here. apply do_vertical_patrol_unbound.
Qed.

(** X18. With both patrol points set and the defender's position known,
    the vertical patrol heads for one of the two patrol points: the one
    opposite to the point recorded as patrolled when the call ends (a
    point the defender stands on is recorded first), and with no point
    recorded the closer one.  The goal is at maze distance 0 only if both
    patrol points are.  The call logs the goal, plans a route to it and
    returns its first move. *)
Theorem vertical_patrol_alternates (fuel : nat) (self : Agent) (gs : GameState)
    (s : DefendAgent.State) (w : World) (p1 p2 here : Pos) :
  patrol_inv s →
  DefendAgent.patrol_point_1 s = Some p1 → DefendAgent.patrol_point_2 s = Some p2 →
  get_our_position self gs = Some here →
  ∃ goal s1,
    DefendAgent.do_vertical_patrol fuel self gs s w = patrol_route fuel self gs goal s1 w
    ∧ (goal = p1 ∨ goal = p2)
    ∧ (get_maze_distance gs here goal = 0 →
         get_maze_distance gs here p1 = 0 ∧ get_maze_distance gs here p2 = 0)
    ∧ (∃ v, s1 = DefendAgent.set_last_patrolled_point v s)
    ∧ match DefendAgent.last_patrolled_point s1 with
      | Some q => (q = p1 ∧ goal = p2) ∨ (q = p2 ∧ goal = p1)
      | None =>
          get_maze_distance gs here goal ≤ get_maze_distance gs here p1
          ∧ get_maze_distance gs here goal ≤ get_maze_distance gs here p2
      end.
Proof. apply do_vertical_patrol_run. Qed.

Lemma vertical_patrol_alternates_witness :
  let self := DefendAgent.agent 0 true in
  let gs := defender_board (4, 3) in
  ∃ goal s1,
    DefendAgent.do_vertical_patrol 200 self gs defender_patrolling quiet_world
    = patrol_route 200 self gs goal s1 quiet_world
    ∧ (goal = (2, 1) ∨ goal = (2, 5))
    ∧ (get_maze_distance gs (1, 1) goal = 0 →
         get_maze_distance gs (1, 1) (2, 1) = 0 ∧ get_maze_distance gs (1, 1) (2, 5) = 0)
    ∧ (∃ v, s1 = DefendAgent.set_last_patrolled_point v defender_patrolling)
    ∧ match DefendAgent.last_patrolled_point s1 with
      | Some q => (q = (2, 1) ∧ goal = (2, 5)) ∨ (q = (2, 5) ∧ goal = (2, 1))
      | None =>
          get_maze_distance gs (1, 1) goal ≤ get_maze_distance gs (1, 1) (2, 1)
          ∧ get_maze_distance gs (1, 1) goal ≤ get_maze_distance gs (1, 1) (2, 5)
      end.
Proof.
  apply (vertical_patrol_alternates 200 (DefendAgent.agent 0 true) (defender_board (4, 3))
           defender_patrolling quiet_world (2, 1) (2, 5) (1, 1)).
  - split; [discriminate|]. intros p. discriminate.
  - reflexivity.
  - reflexivity.
  - reflexivity.
Defined.

(** * The defender facing an enemy in its own field: the move it returns *)

(** Planning a route from a known position and taking its first move. *)
Lemma planned_move_run {S} fuel (ag : Agent) (gs : GameState) (here goal : Pos)
    (s : S) (w : World) :
  (r ← lift (search fuel ag (Some here) (Some goal) gs);
   '(_, actions) ← unpack_pair r;
   or_raise IndexError (py_index actions 0)) s w
  = (first_planned_move (aStarSearch fuel ag here (Some goal) gs), s, w).
Proof.
  rewrite run_lift_bind. unfold search. rewrite run_as_pos_bind.
  destruct (aStarSearch fuel ag here (Some goal) gs) as [[p [|first rest]|]|]; done.
Qed.

(** A move the call sites take from the planner starts a legal route that
    ends on the goal. *)
Lemma first_planned_move_sound fuel (ag : Agent) (gs : GameState) (here goal : Pos) first :
  first_planned_move (aStarSearch fuel ag here (Some goal) gs) = Ok first →
  ∃ rest, aStarSearch fuel ag here (Some goal) gs = Some (Found goal (first :: rest))
          ∧ walk gs here (first :: rest) = Some goal.
Proof.
  destruct (aStarSearch fuel ag here (Some goal) gs) as [[p [|a rest]|]|] eqn:Hrun;
    simpl; try done.
  intros [= ->]. exists rest.
  destruct (astar_loop_sound _ _ _ _ _ _ _ _ _ (routes_from_init gs here) Hrun)
    as [Hw [= ->]].
  done.
Qed.

(** With a legal route to a goal other than the start, in a maze whose
    reachable part is finite, the planner's answer has a first move, the
    same for every iteration budget above a bound. *)
Lemma first_planned_move_exists (ag : Agent) (gs : GameState) (here goal : Pos)
    (cells : gset Pos) :
  (∀ p, reachable gs here p → p ∈ cells) → reachable gs here goal → here ≠ goal →
  ∃ first rest bound,
    walk gs here (first :: rest) = Some goal
    ∧ (∀ k, (k < length (first :: rest))%nat →
         walk gs here (take k (first :: rest)) ≠ Some goal)
    ∧ ∀ fuel, (bound ≤ fuel)%nat →
        aStarSearch fuel ag here (Some goal) gs = Some (Found goal (first :: rest)).
Proof.
  intros Hcells Hreach Hne.
  destruct (astar_loop_correct ag gs here goal cells Hcells Hreach
              _ _ _ _ (search_inv_init ag gs here goal cells Hcells Hreach)
              eq_refl eq_refl)
    as (bound & acts & Hrun & Hw & Hpre & _).
  destruct acts as [|first rest]; [simpl in Hw; congruence|].
  exists first, rest, bound. split_and!; [done|done|].
  intros fuel Hle. unfold aStarSearch. by eapply astar_loop_fuel_mono.
Qed.

Section DefenderMove.

Import DefendAgent.

Variable self : Agent.

Lemma pursue_run fuel enemy gs s w here :
  get_our_position self gs = Some here →
  pursue fuel self enemy gs s w
  = (first_planned_move (aStarSearch fuel self here (Some enemy) gs), s, w).
Proof. intros Hhere. unfold pursue. rewrite Hhere. apply planned_move_run. Qed.

Lemma patrol_route_run fuel gs goal s w here :
  get_our_position self gs = Some here →
  patrol_route fuel self gs goal s w
  = (first_planned_move (aStarSearch fuel self here (Some goal) gs), s,
     {| tape := tape w; trace := trace w ++ [LogPatrolling goal] |}).
Proof.
  intros Hhere. unfold patrol_route. rewrite run_log_bind, Hhere.
  apply planned_move_run.
Qed.

End DefenderMove.

(** C5. With the defender's power-up counter positive and an enemy seen
    at [enemy_position], [decide_action_enemy_close_in_our_field] pursues
    exactly when the remaining duration is strictly less than the maze
    distance from the defender to the enemy.  Pursuing, it logs the
    pursuit, asks the planner for a route from its own position to the
    enemy's position and returns the first move of the answer, leaving
    its attributes alone: a move it returns starts a legal route that
    ends on the enemy's position, and when such a route exists (in a maze
    whose reachable part is finite, the enemy not on the defender's own
    cell) it does return that move, for every iteration budget above a
    bound.  Otherwise, equality of duration and distance included, it
    logs the fallback and runs [do_vertical_patrol]: with both patrol
    points set this logs a goal that is one of the two patrol points and
    returns the first move of the route planned to that goal, not to the
    enemy.  The log tells the two cases apart. *)
Theorem defender_pursues_iff_duration_below_distance
    (self : Agent) (enemy_position here : Pos) (gs : GameState)
    (s : DefendAgent.State) (w : World) :
  0 < DefendAgent.turns_with_capsule_effect s →
  get_our_position self gs = Some here →
  let duration := DefendAgent.turns_with_capsule_effect s in
  let distance := get_maze_distance gs here enemy_position in
  let run fuel :=
    DefendAgent.decide_action_enemy_close_in_our_field fuel self enemy_position gs s w in
  let after msgs := {| tape := tape w; trace := trace w ++ msgs |} in
  (duration < distance →
     (∀ fuel,
        run fuel
        = (first_planned_move (aStarSearch fuel self here (Some enemy_position) gs), s,
           after [LogPursuingCapsule enemy_position duration distance]))
     ∧ (∀ fuel first,
          result (run fuel) = Ok first →
          ∃ rest,
            aStarSearch fuel self here (Some enemy_position) gs
            = Some (Found enemy_position (first :: rest))
            ∧ walk gs here (first :: rest) = Some enemy_position)
     ∧ (∀ cells : gset Pos,
          (∀ p, reachable gs here p → p ∈ cells) →
          reachable gs here enemy_position → here ≠ enemy_position →
          ∃ first rest bound,
            walk gs here (first :: rest) = Some enemy_position
            ∧ (∀ k, (k < length (first :: rest))%nat →
                 walk gs here (take k (first :: rest)) ≠ Some enemy_position)
            ∧ ∀ fuel, (bound ≤ fuel)%nat →
                run fuel
                = (Ok first, s, after [LogPursuingCapsule enemy_position duration distance])))
  ∧ (distance ≤ duration →
     (∀ fuel,
        run fuel
        = DefendAgent.do_vertical_patrol fuel self gs s
            (after [LogDoingPatrol enemy_position duration distance]))
     ∧ (∀ fuel p1 p2,
          patrol_inv s →
          DefendAgent.patrol_point_1 s = Some p1 → DefendAgent.patrol_point_2 s = Some p2 →
          ∃ goal s1,
            (goal = p1 ∨ goal = p2)
            ∧ (∃ v, s1 = DefendAgent.set_last_patrolled_point v s)
            ∧ run fuel
              = (first_planned_move (aStarSearch fuel self here (Some goal) gs), s1,
                 after [LogDoingPatrol enemy_position duration distance;
                        LogPatrolling goal])))
  ∧ (∀ fuel, Exists is_capsule_pursuit (logged w (run fuel)) ↔ duration < distance)
  ∧ (∀ fuel, Exists is_patrol_fallback (logged w (run fuel)) ↔ distance ≤ duration).
Proof.
  intros Hpos Hhere duration distance run after.
  assert (∀ fuel, run fuel
          = if decide (duration < distance)
            then (first_planned_move (aStarSearch fuel self here (Some enemy_position) gs), s,
                  after [LogPursuingCapsule enemy_position duration distance])
            else DefendAgent.do_vertical_patrol fuel self gs s
                   (after [LogDoingPatrol enemy_position duration distance])) as Hrun.
  { intros fuel. subst run. unfold DefendAgent.decide_action_enemy_close_in_our_field. simpl.
    rewrite run_get_bind. rewrite decide_False by (subst duration; lia).
    rewrite Hhere, run_as_pos_bind. fold duration distance.
    case_decide; rewrite run_log_bind; [|done].
    by apply pursue_run. }
  split_and!.
  - intros Hlt. split_and!.
    + intros fuel. rewrite Hrun. by rewrite decide_True.
    + intros fuel first. rewrite Hrun, decide_True by done. unfold result. simpl.
      apply first_planned_move_sound.
    + intros cells Hcells Hreach Hne.
      destruct (first_planned_move_exists self gs here enemy_position cells Hcells Hreach Hne)
        as (first & rest & bound & Hw & Hpre & Hfound).
      exists first, rest, bound. split_and!; [done|done|].
      intros fuel Hle. rewrite Hrun, decide_True by done. by rewrite (Hfound fuel Hle).
  - intros Hge. split.
    + intros fuel. rewrite Hrun. by rewrite decide_False by lia.
    + intros fuel p1 p2 Hinv H1 H2. rewrite Hrun, decide_False by lia.
      destruct (do_vertical_patrol_run fuel self gs s
                  (after [LogDoingPatrol enemy_position duration distance])
                  p1 p2 here Hinv H1 H2 Hhere)
        as (goal & s1 & Hpatrol & Hgoal & _ & Hs1 & _).
      exists goal, s1. split_and!; [done|done|].
      rewrite Hpatrol, (patrol_route_run self fuel gs goal s1 _ here Hhere).
      subst after. simpl. by rewrite <- app_assoc.
  - intros fuel. subst run duration distance. cbv beta.
    rewrite (defender_capsule_branch fuel self enemy_position gs s w here) by (done || lia).
    case_decide as Hlt.
    + destruct (pursuit_branch_logged fuel self enemy_position
                  (get_maze_distance gs here enemy_position) gs s w) as (l & -> & Hq).
      split; [done|]. intros _. by left.
    + destruct (patrol_branch_logged fuel self enemy_position
                  (get_maze_distance gs here enemy_position) gs s w) as (l & -> & Hq).
      split; [|lia]. intros [[]|Hex]%Exists_cons. by apply quiet_no_pursuit in Hq.
  - intros fuel. subst run duration distance. cbv beta.
    rewrite (defender_capsule_branch fuel self enemy_position gs s w here) by (done || lia).
    case_decide as Hlt.
    + destruct (pursuit_branch_logged fuel self enemy_position
                  (get_maze_distance gs here enemy_position) gs s w) as (l & -> & Hq).
      split; [|lia]. intros [[]|Hex]%Exists_cons. by apply quiet_no_fallback in Hq.
    + destruct (patrol_branch_logged fuel self enemy_position
                  (get_maze_distance gs here enemy_position) gs s w) as (l & -> & Hq).
      split; [lia|]. intros _. by left.
Qed.

(** C5 on the closed room, the defender at (1, 1) and the enemy at (4, 3),
    5 moves away.  With 3 turns of the effect left the defender pursues:
    it returns East, the first move of the planned route to (4, 3).  With
    5 turns left, as many as the distance, it patrols: it returns the
    first move of the route to a patrol point. *)
Lemma defender_pursues_iff_duration_below_distance_witness :
  let self := DefendAgent.agent 0 true in
  let gs := defender_board (4, 3) in
  let pursuer := defender_state 3 in
  let patroller := DefendAgent.set_turns_with_capsule_effect 5 defender_patrolling in
  let run s fuel :=
    DefendAgent.decide_action_enemy_close_in_our_field fuel self (4, 3) gs s quiet_world in
  get_maze_distance gs (1, 1) (4, 3) = 5
  ∧ run pursuer 200%nat
    = (Ok East, pursuer, {| tape := []; trace := [LogPursuingCapsule (4, 3) 3 5] |})
  ∧ (∃ rest,
       aStarSearch 200 self (1, 1) (Some (4, 3)) gs = Some (Found (4, 3) (East :: rest))
       ∧ walk gs (1, 1) (East :: rest) = Some (4, 3))
  ∧ (∃ first rest bound,
       walk gs (1, 1) (first :: rest) = Some (4, 3)
       ∧ (∀ k, (k < length (first :: rest))%nat →
            walk gs (1, 1) (take k (first :: rest)) ≠ Some (4, 3))
       ∧ ∀ fuel, (bound ≤ fuel)%nat →
           run pursuer fuel
           = (Ok first, pursuer, {| tape := []; trace := [LogPursuingCapsule (4, 3) 3 5] |}))
  ∧ Exists is_capsule_pursuit (logged quiet_world (run pursuer 200%nat))
  ∧ ¬ Exists is_patrol_fallback (logged quiet_world (run pursuer 200%nat))
  ∧ (∃ goal s1,
       (goal = (2, 1) ∨ goal = (2, 5))
       ∧ (∃ v, s1 = DefendAgent.set_last_patrolled_point v patroller)
       ∧ run patroller 200%nat
         = (first_planned_move (aStarSearch 200 self (1, 1) (Some goal) gs), s1,
            {| tape := []; trace := [LogDoingPatrol (4, 3) 5 5; LogPatrolling goal] |}))
  ∧ run patroller 200%nat
    = (Ok East, patroller,
       {| tape := []; trace := [LogDoingPatrol (4, 3) 5 5; LogPatrolling (2, 1)] |})
  ∧ Exists is_patrol_fallback (logged quiet_world (run patroller 200%nat))
  ∧ ¬ Exists is_capsule_pursuit (logged quiet_world (run patroller 200%nat)).
Proof.
  intros self gs pursuer patroller run. subst run. cbv beta.
  assert (0 < DefendAgent.turns_with_capsule_effect pursuer) as Hpos3 by (simpl; lia).
  assert (0 < DefendAgent.turns_with_capsule_effect patroller) as Hpos5 by (simpl; lia).
  assert (get_our_position self gs = Some (1, 1)) as Hhere by reflexivity.
  assert (get_maze_distance gs (1, 1) (4, 3) = 5) as Hdist by (vm_compute; reflexivity).
  destruct (defender_pursues_iff_duration_below_distance self (4, 3) (1, 1) gs pursuer
              quiet_world Hpos3 Hhere) as (Hpursue & _ & Hlog_pursuit & Hlog_fallback).
  destruct Hpursue as (Hrun & Hsound & Hexists); [rewrite Hdist; simpl; lia|].
  destruct (defender_pursues_iff_duration_below_distance self (4, 3) (1, 1) gs patroller
              quiet_world Hpos5 Hhere) as (_ & Hpatrol & Hlog_pursuit' & Hlog_fallback').
  destruct Hpatrol as (_ & Hgoal); [rewrite Hdist; simpl; lia|].
  split; [exact Hdist|].
  split; [rewrite Hrun; vm_compute; reflexivity|].
  split; [apply (Hsound 200%nat East); vm_compute; reflexivity|].
  split.
  { rewrite Hdist in Hexists.
    apply (Hexists (list_to_set (Layout.open_cells (Layout.wall_grid Layout.room)))).
    - apply reachable_in_closed; vm_compute; reflexivity.
    - exists [East; East; East; North; North]. vm_compute. reflexivity.
    - discriminate. }
  split; [apply Hlog_pursuit; rewrite Hdist; simpl; lia|].
  split; [rewrite Hlog_fallback, Hdist; simpl; lia|].
  split.
  { rewrite Hdist in Hgoal.
    apply (Hgoal 200%nat (2, 1) (2, 5)); [|reflexivity|reflexivity].
    split; [discriminate|]. intros p. discriminate. }
  split; [vm_compute; reflexivity|].
  split; [apply Hlog_fallback'; rewrite Hdist; simpl; lia|].
  rewrite Hlog_pursuit', Hdist; simpl; lia.
Defined.

(** * The ends of the food column *)

Lemma column_cells_ends gs col low rest :
  column_cells gs col = low :: rest →
  ∃ high, py_index (column_cells gs col) (-1) = Some high
          ∧ high ∈ column_cells gs col
          ∧ ∀ q, q ∈ column_cells gs col → low.2 ≤ q.2 ≤ high.2.
Proof.
  intros Hcells.
  assert (∃ front high, column_cells gs col = front ++ [high]) as (front & high & Hsnoc).
  { rewrite Hcells. clear Hcells.
    induction rest as [|x t IH] using rev_ind; [by exists [], low|].
    exists (low :: t), x. done. }
  exists high. assert (py_index (column_cells gs col) (-1) = Some high) as Hhigh
    by (rewrite Hsnoc; apply py_index_last_snoc).
  split_and!; [done|rewrite Hsnoc; apply elem_of_app; right; left|].
  intros q Hq. apply (ascending_bounds snd (column_cells gs col)); [|by rewrite Hcells|done..].
  apply column_cells_ascending.
Qed.

Section FleeingPoint.

Import AttackAgent.

Variables (fuel : nat) (self : Agent).

(** X19. Let [a_star_to_food_position], asked for the own food closest to
    the enemy's start position, return the destination [dest]; on a
    rectangular wall grid, with the attacker's position known,
    [get_fleeing_point] then looks at the open cells of the column of
    [dest]: without any it raises [IndexError]; otherwise it returns the
    lowest or the highest of them, whichever is farther from the attacker:
    the lowest when that one is strictly farther, the highest otherwise,
    so the highest when both are equally far.  It changes no attribute. *)
Theorem get_fleeing_point_is_far_end (gs : GameState) (s : State) (w w' : World)
    (dest here : Pos) (acts : list Action) (width height : nat) :
  a_star_to_food_position fuel self gs get_food_positions_ours false
    (Some get_initial_enemy_position) () w = (Ok (dest, acts), (), w') →
  rectangular width height (layout_walls gs) →
  0 ≤ dest.1 < Z.of_nat width →
  layout_height gs ≤ Z.of_nat height →
  get_our_position self gs = Some here →
  match column_cells gs dest.1 with
  | [] => get_fleeing_point fuel self gs s w = (Raise IndexError, s, w')
  | low :: _ =>
      ∃ high p,
        py_index (column_cells gs dest.1) (-1) = Some high
        ∧ get_fleeing_point fuel self gs s w = (Ok p, s, w')
        ∧ (p = low ∨ p = high)
        ∧ get_maze_distance gs here low ≤ get_maze_distance gs here p
        ∧ get_maze_distance gs here high ≤ get_maze_distance gs here p
        ∧ (get_maze_distance gs here high < get_maze_distance gs here low → p = low)
        ∧ (get_maze_distance gs here low ≤ get_maze_distance gs here high → p = high)
        ∧ ∀ q, q ∈ column_cells gs dest.1 → low.2 ≤ q.2 ≤ high.2
  end.
Proof.
  intros Hstar Hrect Hcol Hh Hhere.
  assert (∀ w0, get_column_slice dest.1 gs None () w0 = (Ok (column_cells gs dest.1), (), w0))
    as Hslice.
  { apply (get_column_slice_run gs dest.1 None). intros y Hy.
    destruct (grid_get_in_range width height (layout_walls gs) dest.1 y Hrect) as [b Hb];
      [lia..|]. by exists b. }
  unfold get_fleeing_point. rewrite run_lift_bind, Hstar.
  destruct dest as [x y]. simpl in *. rewrite run_lift_bind, Hslice.
  rewrite (sorted_by_key_id snd) by apply column_cells_ascending.
  destruct (column_cells gs x) as [|low rest] eqn:Hcells; [done|].
  destruct (column_cells_ends gs x low rest Hcells) as (high & Hhigh & Hin & Hbounds).
  rewrite Hcells in Hhigh, Hbounds.
  rewrite py_index_head. simpl. autorewrite with run. rewrite Hhigh.
  autorewrite with run. rewrite Hhere. autorewrite with run.
  exists high. case_decide.
  - exists low. split_and!; [done|done|by left|lia|lia|done|lia|done].
  - exists high. split_and!; [done|done|by right|lia|lia|lia|done|done].
Qed.

End FleeingPoint.

(** X19 on the closed room: the attacker at (2, 3) is equally far, 3 moves,
    from both ends (3, 1) and (3, 5) of column 3, and flees to the highest. *)
Lemma get_fleeing_point_is_far_end_witness :
  let self := AttackAgent.agent 0 true in
  let gs := attacker_home_board in
  ∃ high p,
    py_index (column_cells gs 3) (-1) = Some high
    ∧ AttackAgent.get_fleeing_point 200 self gs AttackAgent.fresh quiet_world
      = (Ok p, AttackAgent.fresh, quiet_world)
    ∧ (p = (3, 1) ∨ p = high)
    ∧ get_maze_distance gs (2, 3) (3, 1) ≤ get_maze_distance gs (2, 3) p
    ∧ get_maze_distance gs (2, 3) high ≤ get_maze_distance gs (2, 3) p
    ∧ (get_maze_distance gs (2, 3) high < get_maze_distance gs (2, 3) (3, 1) → p = (3, 1))
    ∧ (get_maze_distance gs (2, 3) (3, 1) ≤ get_maze_distance gs (2, 3) high → p = high)
    ∧ (∀ q, q ∈ column_cells gs 3 → (3, 1).2 ≤ q.2 ≤ high.2)
    ∧ high = (3, 5) ∧ p = (3, 5)
    ∧ get_maze_distance gs (2, 3) (3, 1) = 3 ∧ get_maze_distance gs (2, 3) (3, 5) = 3.
Proof.
  assert (rectangular 10 7 (layout_walls attacker_home_board)) as Hrect
    by (split; [reflexivity|vm_compute; repeat constructor]).
  assert (0 ≤ (3, 4).1 < Z.of_nat 10) as Hcol by (simpl; lia).
  assert (layout_height attacker_home_board ≤ Z.of_nat 7) as Hh
    by (vm_compute; discriminate).
  pose proof (get_fleeing_point_is_far_end 200 (AttackAgent.agent 0 true) attacker_home_board
                AttackAgent.fresh quiet_world quiet_world (3, 4) (2, 3) [East; North] 10 7
                eq_refl Hrect Hcol Hh eq_refl) as Hflee.
  change (column_cells attacker_home_board (3, 4).1)
    with [(3, 1); (3, 2); (3, 3); (3, 4); (3, 5)] in Hflee.
  cbv beta iota in Hflee.
  destruct Hflee
    as (high & p & Hhigh & Hrun & Hends & Hlow & Hfar & Hstrict & Htie & Hbounds).
  assert (high = (3, 5)) as Hh5 by (vm_compute in Hhigh; congruence).
  assert (p = (3, 5)) as Hp5.
  { rewrite <- Hh5. apply Htie. rewrite Hh5. vm_compute. discriminate. }
  exists high, p.
  split_and!; [exact Hhigh|exact Hrun|exact Hends|exact Hlow|exact Hfar|exact Hstrict
              |exact Htie|exact Hbounds|exact Hh5|exact Hp5|reflexivity|reflexivity].
Defined.

Section PatrolPoints.

Import DefendAgent.

Variables (fuel : nat) (self : Agent).

(** X20. Let the own food be listed and not empty, let
    [a_star_to_food_position] return [goal] as the own food closest to the
    enemy's start position, and let the planner find a route [actions]
    from the defender to [goal].  On a rectangular wall grid
    [calculate_patrol_points] then records [goal] as the opening goal and
    [actions] as the opening queue, logs the start of the match, and sets
    the patrol points to the lowest and the highest open cell of the
    column of [goal]; with no open cell in that column (rows 1 to
    [height - 1]) it raises [IndexError] after recording goal and queue. *)
Theorem calculate_patrol_points_sets_column_ends (gs : GameState) (s : State)
    (w w1 w2 w3 : World) (ours : list Pos) (goal p : Pos) (acts0 actions : list Action)
    (width height : nat) :
  get_food_positions_ours self gs () w = (Ok ours, (), w1) →
  ours ≠ [] →
  a_star_to_food_position fuel self gs get_food_positions_ours false
    (Some get_initial_enemy_position) () w1 = (Ok (goal, acts0), (), w2) →
  search fuel self (get_our_position self gs) (Some goal) gs ()
    {| tape := tape w2; trace := trace w2 ++ [LogDefStart goal] |}
  = (Ok (Found p actions), (), w3) →
  rectangular width height (layout_walls gs) →
  0 ≤ goal.1 < Z.of_nat width →
  layout_height gs ≤ Z.of_nat height →
  let planned := set_initial_actions actions (set_initial_goal (Some goal) s) in
  match column_cells gs goal.1 with
  | [] => calculate_patrol_points fuel self gs s w = (Raise IndexError, planned, w3)
  | low :: _ =>
      ∃ high,
        py_index (column_cells gs goal.1) (-1) = Some high
        ∧ calculate_patrol_points fuel self gs s w
          = (Ok (), set_patrol_points (Some low) (Some high) planned, w3)
        ∧ ∀ q, q ∈ column_cells gs goal.1 → low.2 ≤ q.2 ≤ high.2
  end.
Proof.
  intros Hours Hne Hstar Hroute Hrect Hcol Hh planned.
  assert (∀ w0, get_column_slice goal.1 gs None () w0 = (Ok (column_cells gs goal.1), (), w0))
    as Hslice.
  { apply (get_column_slice_run gs goal.1 None). intros y Hy.
    destruct (grid_get_in_range width height (layout_walls gs) goal.1 y Hrect) as [b Hb];
      [lia..|]. by exists b. }
  unfold calculate_patrol_points. rewrite run_lift_bind, Hours.
  rewrite decide_True by (destruct ours; [done|simpl; lia]).
  rewrite run_lift_bind, Hstar. rewrite run_modify_bind, run_log_bind.
  rewrite run_lift_bind, Hroute. simpl. autorewrite with run.
  destruct goal as [x y]. simpl in *. rewrite run_lift_bind, Hslice.
  rewrite (sorted_by_key_id snd) by apply column_cells_ascending.
  destruct (column_cells gs x) as [|low rest] eqn:Hcells; [done|].
  destruct (column_cells_ends gs x low rest Hcells) as (high & Hhigh & Hin & Hbounds).
  rewrite Hcells in Hhigh, Hbounds.
  rewrite py_index_head. simpl. autorewrite with run. rewrite Hhigh.
  autorewrite with run. exists high. split_and!; [done| |done].
  by destruct s.
Qed.

End PatrolPoints.

Lemma calculate_patrol_points_sets_column_ends_witness :
  let self := DefendAgent.agent 0 true in
  let gs := defender_board (4, 3) in
  let planned :=
    DefendAgent.set_initial_actions [East; East; North; North; North]
      (DefendAgent.set_initial_goal (Some (3, 4)) DefendAgent.fresh) in
  ∃ high,
    py_index (column_cells gs 3) (-1) = Some high
    ∧ DefendAgent.calculate_patrol_points 200 self gs DefendAgent.fresh quiet_world
      = (Ok (), DefendAgent.set_patrol_points (Some (3, 1)) (Some high) planned,
         {| tape := []; trace := [LogDefStart (3, 4)] |})
    ∧ ∀ q, q ∈ column_cells gs 3 → (3, 1).2 ≤ q.2 ≤ high.2.
Proof.
  assert (rectangular 10 7 (layout_walls (defender_board (4, 3)))) as Hrect
    by (split; [reflexivity|vm_compute; repeat constructor]).
  assert (0 ≤ (3, 4).1 < Z.of_nat 10) as Hcol by (simpl; lia).
  assert (layout_height (defender_board (4, 3)) ≤ Z.of_nat 7) as Hh
    by (vm_compute; discriminate).
  assert ([(2, 2); (3, 4)] ≠ @nil Pos) as Hne by discriminate.
  exact (calculate_patrol_points_sets_column_ends 200 (DefendAgent.agent 0 true)
           (defender_board (4, 3)) DefendAgent.fresh quiet_world quiet_world quiet_world
           {| tape := []; trace := [LogDefStart (3, 4)] |}
           [(2, 2); (3, 4)] (3, 4) (3, 4) [East; East; North; North; North]
           [East; East; North; North; North] 10 7
           eq_refl Hne eq_refl eq_refl Hrect Hcol Hh).
Defined.

(** * The detour on the way home *)

Section Detour.

Import AttackAgent.

Variables (fuel : nat) (self : Agent).

(** The scan for a close opponent of [decide_action_return] finds none. *)
Lemma nobody_near_scan gs (pos : option Pos) here (l : list nat) (s : State) w :
  pos = Some here →
  (∀ i enemy_position, i ∈ l → get_agent_position gs i = Some enemy_position →
     DISTANCE_FROM_ENEMY_TO_FLEE ≤ get_maze_distance gs here enemy_position) →
  for_each (λ (found : bool) agent_index,
    if found then mret true else
    match get_agent_position gs agent_index with
    | Some enemy_position =>
        here ← as_pos pos;
        mret (bool_decide (get_maze_distance gs here enemy_position
                           < DISTANCE_FROM_ENEMY_TO_FLEE))
    | None => mret false
    end) false l s w = (Ok false, s, w).
Proof.
  intros ->. induction l as [|i l IH]; intros Hfar; simpl; [done|].
  destruct (get_agent_position gs i) as [enemy|] eqn:Hpos; autorewrite with run.
  - rewrite bool_decide_eq_false_2 by (specialize (Hfar i enemy ltac:(left) Hpos); lia).
    apply IH. intros j e Hj. apply Hfar. by right.
  - apply IH. intros j e Hj. apply Hfar. by right.
Qed.

(** Once a detour is taken the scan of the food keeps it. *)
Lemma detour_scan_taken gs (pos : option Pos) a (l : list Pos) (s : State) w :
  for_each (λ (taken : option Action) food_pos,
    match taken with
    | Some a => mret (Some a)
    | None =>
        '(x, y) ← as_pos pos;
        if decide (get_maze_distance gs (x, y) food_pos = 1) then
          logging_info (LogDetour food_pos);;
          if decide (food_pos = (x, y + 1)) then mret (Some North)
          else if decide (food_pos = (x, y - 1)) then mret (Some South)
          else if decide (food_pos = (x + 1, y)) then mret (Some East)
          else if decide (food_pos = (x - 1, y)) then mret (Some West)
          else raise (UnboundLocalError "next_action")
        else mret None
    end) (Some a) l s w = (Ok (Some a), s, w).
Proof. induction l as [|f l IH]; simpl; [done|]. autorewrite with run. apply IH. Qed.

(** The scan of the food takes the first position at maze distance 1. *)
Lemma detour_scan gs (pos : option Pos) here a food_pos before after (s : State) w :
  pos = Some here →
  Forall (λ f, get_maze_distance gs here f ≠ 1) before →
  get_maze_distance gs here food_pos = 1 →
  move here a = Some food_pos →
  for_each (λ (taken : option Action) food_pos,
    match taken with
    | Some a => mret (Some a)
    | None =>
        '(x, y) ← as_pos pos;
        if decide (get_maze_distance gs (x, y) food_pos = 1) then
          logging_info (LogDetour food_pos);;
          if decide (food_pos = (x, y + 1)) then mret (Some North)
          else if decide (food_pos = (x, y - 1)) then mret (Some South)
          else if decide (food_pos = (x + 1, y)) then mret (Some East)
          else if decide (food_pos = (x - 1, y)) then mret (Some West)
          else raise (UnboundLocalError "next_action")
        else mret None
    end) None (before ++ food_pos :: after) s w
  = (Ok (Some a), s, {| tape := tape w; trace := trace w ++ [LogDetour food_pos] |}).
Proof.
  intros -> Hbefore Hd Hmove. destruct here as [x y].
  induction Hbefore as [|f before Hf Hbefore IH]; simpl.
  - autorewrite with run. rewrite decide_True by done. autorewrite with run.
    destruct a; simpl in Hmove; try done; injection Hmove as <-;
      repeat first [rewrite decide_True by done | rewrite decide_False by (intros [=]; lia)];
      autorewrite with run; exact (detour_scan_taken gs (Some (x, y)) _ after s _).
  - autorewrite with run. rewrite decide_False by done. autorewrite with run. exact IH.
Qed.

(** X21. On the way home, with no visible opponent (in either field)
    within maze distance 6 (exclusive) of the attacker, the attacker takes
    the first listed enemy food position at maze distance 1: when that
    position is the cell next to the attacker in direction [a],
    [decide_action_return] logs the detour and returns [a] itself,
    whatever route the planner found, without passing it through the
    collision filter, and changes no attribute. *)
Theorem decide_action_return_takes_adjacent_food (gs : GameState) (s : State)
    (w w1 w2 w3 : World) (closest : option Pos) (p here food_pos : Pos)
    (next_actions : list Action) (before after : list Pos) (a : Action) :
  get_closest_point_in_our_field self gs () w = (Ok closest, (), w1) →
  search fuel self (get_our_position self gs) closest gs () w1
  = (Ok (Found p next_actions), (), w2) →
  get_our_position self gs = Some here →
  nobody_near self gs DISTANCE_FROM_ENEMY_TO_FLEE here →
  get_food_positions_enemy self gs () w2 = (Ok (before ++ food_pos :: after), (), w3) →
  Forall (λ f, get_maze_distance gs here f ≠ 1) before →
  get_maze_distance gs here food_pos = 1 →
  move here a = Some food_pos →
  decide_action_return fuel self gs s w
  = (Ok a, s, {| tape := tape w3; trace := trace w3 ++ [LogDetour food_pos] |}).
Proof.
  intros Hclosest Hsearch Hhere Hnobody Hfoods Hbefore Hd Hmove.
  unfold decide_action_return.
  rewrite run_lift_bind, Hclosest. rewrite run_lift_bind, Hsearch. simpl.
  autorewrite with run. rewrite run_bind.
  rewrite (nobody_near_scan gs (get_our_position self gs) here (get_opponents self gs) s w2
             Hhere) by (intros i e Hi He; by apply (Hnobody i e)).
  simpl. rewrite run_bind_assoc, run_lift_bind, Hfoods. rewrite run_bind.
  by rewrite (detour_scan gs (get_our_position self gs) here a food_pos before after s w3
                Hhere Hbefore Hd Hmove).
Qed.

End Detour.

Lemma decide_action_return_takes_adjacent_food_witness :
  AttackAgent.decide_action_return 200 (AttackAgent.agent 0 true) detour_board
    AttackAgent.fresh quiet_world
  = (Ok North, AttackAgent.fresh, {| tape := []; trace := [LogDetour (7, 4)] |}).
Proof.
  assert (nobody_near (AttackAgent.agent 0 true) detour_board
            AttackAgent.DISTANCE_FROM_ENEMY_TO_FLEE (7, 3)) as Hnobody.
  { intros i e [->|Hi%elem_of_nil]%elem_of_cons; [discriminate|done]. }
  assert (Forall (λ f, get_maze_distance detour_board (7, 3) f ≠ 1) [(8, 2)]) as Hbefore.
  { repeat constructor. vm_compute. discriminate. }
  exact (decide_action_return_takes_adjacent_food 200 (AttackAgent.agent 0 true)
           detour_board AttackAgent.fresh quiet_world quiet_world quiet_world quiet_world
           (Some (4, 3)) (4, 3) (7, 3) (7, 4) [West; West; West] [(8, 2)] [] North
           eq_refl eq_refl eq_refl Hnobody eq_refl Hbefore eq_refl eq_refl).
Defined.

(** * The shared functions on the boards of the examples *)

(** X2 on the closed room: the red attacker at (6, 3), border column 4. *)
Lemma get_closest_point_in_our_field_is_closest_witness :
  let ag := AttackAgent.agent 0 true in
  ∃ r,
    (∀ w, get_closest_point_in_our_field ag attacker_board () w = (Ok r, (), w))
    ∧ match r with
      | Some p =>
          p ∈ column_cells attacker_board (border_column ag attacker_board)
          ∧ in_our_field ag p attacker_board = true
          ∧ get_maze_distance attacker_board (6, 3) p < 999999
          ∧ ∀ q, q ∈ column_cells attacker_board (border_column ag attacker_board) →
              get_maze_distance attacker_board (6, 3) p
              ≤ get_maze_distance attacker_board (6, 3) q
              ∧ (get_maze_distance attacker_board (6, 3) q
                 = get_maze_distance attacker_board (6, 3) p → p.2 ≤ q.2)
      | None =>
          ∀ q, q ∈ column_cells attacker_board (border_column ag attacker_board) →
            999999 ≤ get_maze_distance attacker_board (6, 3) q
      end.
Proof.
  apply (get_closest_point_in_our_field_is_closest (AttackAgent.agent 0 true)
           attacker_board (6, 3) 10 7).
  - split; [reflexivity|]. vm_compute. repeat constructor.
  - vm_compute. split; [discriminate|reflexivity].
  - vm_compute. discriminate.
  - reflexivity.
Defined.

(** X3 on the closed room: column 2. *)
Lemma get_column_slice_lists_open_cells_witness :
  ∃ cells,
    (∀ w, get_column_slice 2 attacker_board None () w = (Ok cells, (), w))
    ∧ (∀ p, p ∈ cells
            ↔ p.1 = 2 ∧ 1 ≤ p.2 < layout_height attacker_board
              ∧ grid_get (layout_walls attacker_board) p.1 p.2 = Some false)
    ∧ sorted_by_key snd cells = cells
    ∧ (∀ low high p, py_index cells 0 = Some low → py_index cells (-1) = Some high →
         p ∈ cells → low.2 ≤ p.2 ≤ high.2).
Proof.
  apply (get_column_slice_lists_open_cells attacker_board 2 None 10 7).
  - split; [reflexivity|]. vm_compute. repeat constructor.
  - lia.
  - vm_compute. discriminate.
Defined.

(** X4 on the closed room: the enemy food seen from (6, 3). *)
Lemma a_star_to_food_position_targets_closest_witness :
  let ag := AttackAgent.agent 0 true in
  ∃ target before after,
    [(8, 2); (7, 4)] = before ++ target :: after
    ∧ Forall (λ f, get_maze_distance attacker_board (6, 3) target
                   < get_maze_distance attacker_board (6, 3) f) before
    ∧ Forall (λ f, get_maze_distance attacker_board (6, 3) target
                   ≤ get_maze_distance attacker_board (6, 3) f) after
    ∧ (∀ w, a_star_to_food_position 200 ag attacker_board get_food_positions_enemy false
              None () w
            = route_to 200 ag attacker_board target () w)
    ∧ (∀ w dest actions w',
         a_star_to_food_position 200 ag attacker_board get_food_positions_enemy false
           None () w = (Ok (dest, actions), (), w') →
         dest = target ∧ w' = w
         ∧ ∃ here, get_our_position ag attacker_board = Some here
                   ∧ walk attacker_board here actions = Some dest).
Proof.
  apply (a_star_to_food_position_targets_closest 200 (AttackAgent.agent 0 true)
           attacker_board get_food_positions_enemy None (6, 3) [(8, 2); (7, 4)]).
  - reflexivity.
  - intros w. reflexivity.
  - discriminate.
Defined.

(** X5 on the same board. *)
Lemma a_star_to_food_position_random_top_three_witness :
  let ag := AttackAgent.agent 0 true in
  ∃ target,
    target ∈ [(8, 2); (7, 4)]
    ∧ (length (filter (λ f, (get_maze_distance attacker_board (6, 3) f
                             < get_maze_distance attacker_board (6, 3) target)%Z)
                 [(8, 2); (7, 4)]%Z) < 3)%nat
    ∧ a_star_to_food_position 200 ag attacker_board get_food_positions_enemy true
        None () quiet_world
      = route_to 200 ag attacker_board target ()
          {| tape := tail (tape quiet_world); trace := trace quiet_world |}.
Proof.
  apply (a_star_to_food_position_random_top_three 200 (AttackAgent.agent 0 true)
           attacker_board get_food_positions_enemy None (6, 3) [(8, 2); (7, 4)]).
  - reflexivity.
  - intros w. reflexivity.
  - discriminate.
Defined.

(** X6 on a board without food. *)
Lemma a_star_to_food_position_without_food_witness :
  a_star_to_food_position 200 (AttackAgent.agent 0 true) collision_board
    get_food_positions_enemy true None () quiet_world
  = (Raise IndexError, (), quiet_world).
Proof.
  apply (a_star_to_food_position_without_food 200 (AttackAgent.agent 0 true)
           collision_board get_food_positions_enemy None true).
  - intros w. reflexivity.
  - discriminate.
Defined.

(** X7 on the closed room. *)
Lemma route_to_own_cell_is_empty_witness :
  aStarSearch 1 (DefendAgent.agent 0 true) (1, 1) (Some (1, 1)) (defender_board (4, 3))
  = Some (Found (1, 1) [])
  ∧ (∀ s w, DefendAgent.pursue 1 (DefendAgent.agent 0 true) (1, 1) (defender_board (4, 3)) s w
            = (Raise IndexError, s, w))
  ∧ (∀ s w, AttackAgent.first_move_towards 1 (DefendAgent.agent 0 true) (Some (1, 1))
              (defender_board (4, 3)) s w
            = (Raise IndexError, s, w)).
Proof.
  apply (route_to_own_cell_is_empty 0 (DefendAgent.agent 0 true) (defender_board (4, 3)) (1, 1)).
  reflexivity.
Defined.

(** X8 on the maze with the sealed pocket. *)
Lemma route_to_unreachable_goal_is_not_unpacked_witness :
  let self := DefendAgent.agent 0 true in
  ∃ bound, ∀ fuel, (bound ≤ fuel)%nat →
    aStarSearch fuel self (1, 1) (Some (3, 2)) pocket_board = Some NoPath
    ∧ (∀ s w, AttackAgent.first_move_towards fuel self (Some (3, 2)) pocket_board s w
              = (Raise ValueError, s, w))
    ∧ (∀ g s w, Some (3, 2) = Some g →
         DefendAgent.pursue fuel self g pocket_board s w = (Raise ValueError, s, w)).
Proof.
  assert (∀ p, reachable pocket_board (1, 1) p → p ∈ (list_to_set [(1, 1); (1, 2); (1, 3)] : gset Pos))
    as Hcells by (apply reachable_in_closed; vm_compute; reflexivity).
  apply (route_to_unreachable_goal_is_not_unpacked (DefendAgent.agent 0 true) pocket_board
           (1, 1) (Some (3, 2)) (list_to_set [(1, 1); (1, 2); (1, 3)])).
  - reflexivity.
  - exact Hcells.
  - intros g [= <-] Hreach. apply Hcells in Hreach. set_solver.
Defined.

(** X9 on the board of the collision example. *)
Lemma avoid_enemy_collision_returns_legal_move_witness :
  let ag := AttackAgent.agent 0 true in
  ∃ a w',
    avoid_enemy_collision ag (Some (6, 3)) East collision_board () quiet_world
    = (Ok a, (), w')
    ∧ (surviving_moves ag (6, 3) collision_board ≠ [] →
         a ∈ get_legal_actions collision_board (index ag) ∧ cardinal a
         ∧ ∃ q, move (6, 3) a = Some q ∧ (a, q) ∈ surviving_moves ag (6, 3) collision_board)
    ∧ ((a = East ∧ w' = quiet_world)
       ∨ (a ≠ East
          ∧ (∀ q, move (6, 3) East = Some q →
               (East, q) ∉ surviving_moves ag (6, 3) collision_board)
          ∧ w' = {| tape := tail (tape quiet_world);
                    trace := trace quiet_world ++ [LogAlternativeAction a] |})).
Proof.
  apply (avoid_enemy_collision_returns_legal_move (AttackAgent.agent 0 true) (6, 3) East
           collision_board quiet_world).
  discriminate.
Defined.

(** X10 on the same board: West is legal and keeps the distance. *)
Lemma avoid_enemy_collision_keeps_safe_move_witness :
  avoid_enemy_collision (AttackAgent.agent 0 true) (Some (6, 3)) West collision_board ()
    quiet_world
  = (Ok West, (), quiet_world).
Proof.
  apply (avoid_enemy_collision_keeps_safe_move (AttackAgent.agent 0 true) (6, 3) West
           collision_board quiet_world).
  - vm_compute. set_solver.
  - reflexivity.
Defined.
